(** * FAUG [engine.py]: training loops and evaluation wrappers

    A shallow embedding of [src/engine.py]: the warm-up loop
    ([train_warm_up]), the standard epoch runner ([train_one_epoch]), the
    uncertainty-guided mix-up runner ([train_one_epoch_FIESTA]), the
    evaluator ([evaluate]), the slice-to-volume reassembly
    ([prediction_wrapper]) and the per-domain aggregation
    ([eval_list_wrapper]).

    Conventions of the embedding.
    - Python [int] is [Z]; class ids, sizes and indices are [nat].
    - Tensor entries and loss scalars are exact rationals ([Qc]); rounding
      of floating-point arithmetic is not modelled.  Where the code divides
      by a value that can be zero (numpy scalars), the result is an
      [npfloat], which has IEEE's [NaN] and the two infinities.
    - A Python [dict] is an insertion-ordered association list ([dict]);
      the criterion's weight table, which is only looked up, is a [gmap].
    - A Python exception is a [Raise] result.
    - External collaborators (network, criterion, optimizer update,
      softmax entropy) are [Variable]s of a [Section]. *)

From Stdlib Require Import QArith Qcanon Ascii.
From stdpp Require Import base option list gmap strings numbers.

Open Scope Qc_scope.

(** ** Python values, exceptions and dictionaries *)

Module Py.

Inductive exn : Type :=
| KeyError (key : string)
| UnboundLocalError (name : string)
| ZeroDivisionError
| IndexError
| AssertionError
| ValueError
| AttributeError
| RuntimeError.

Inductive result (A : Type) : Type :=
| Ok (a : A)
| Raise (e : exn).
Arguments Ok {A} a.
Arguments Raise {A} e.

#[export] Instance result_ret : MRet result := fun A a => Ok a.
#[export] Instance result_bind : MBind result := fun A B f m =>
  match m with
  | Ok a => f a
  | Raise e => Raise e
  end.
#[export] Instance result_fmap : FMap result := fun A B f m =>
  match m with
  | Ok a => Ok (f a)
  | Raise e => Raise e
  end.

(** [[f x for x in xs]]: elements are evaluated left to right and the first
    exception ends the evaluation. *)
Fixpoint for_each {A B : Type} (f : A -> result B) (xs : list A) : result (list B) :=
  match xs with
  | [] => Ok []
  | x :: xs' => y ← f x; ys ← for_each f xs'; Ok (y :: ys)
  end.

(** Insertion-ordered dictionary with string keys. *)
Definition dict (V : Type) : Type := list (string * V).

Definition keys {V : Type} (d : dict V) : list string := d.*1.

Fixpoint get {V : Type} (d : dict V) (k : string) : option V :=
  match d with
  | [] => None
  | (k', v) :: d' => if decide (k' = k) then Some v else get d' k
  end.

(** [d[k]] *)
Definition getitem {V : Type} (d : dict V) (k : string) : result V :=
  match get d k with
  | Some v => Ok v
  | None => Raise (KeyError k)
  end.

(** [d[k] = v]: an existing key keeps its position, a new one goes last. *)
Fixpoint setitem {V : Type} (d : dict V) (k : string) (v : V) : dict V :=
  match d with
  | [] => [(k, v)]
  | (k', v') :: d' =>
      if decide (k' = k) then (k, v) :: d' else (k', v') :: setitem d' k v
  end.

(** [k in d] *)
Definition contains {V : Type} (d : dict V) (k : string) : bool :=
  bool_decide (is_Some (get d k)).

(** The value of [sum(...)] over tensors: Python starts from the [int] 0,
    so an empty generator yields that [int] and not a tensor. *)
Inductive total : Type :=
| IntZero
| Scalar (q : Qc).

Definition total_value (t : total) : Qc :=
  match t with
  | IntZero => 0
  | Scalar q => q
  end.

Definition py_add (acc : total) (x : Qc) : total :=
  Scalar (total_value acc + x).

(** [sum(xs)]: accumulation from the left, starting from [int] 0. *)
Definition py_sum (xs : list Qc) : total := foldl py_add IntZero xs.

(** numpy floating-point scalars: finite values, [nan], [inf], [-inf]. *)
Inductive npfloat : Type :=
| Fin (q : Qc)
| NaN
| PInf
| NInf.

Definition np_add (x y : npfloat) : npfloat :=
  match x, y with
  | Fin a, Fin b => Fin (a + b)
  | NaN, _ | _, NaN => NaN
  | PInf, NInf | NInf, PInf => NaN
  | PInf, _ | _, PInf => PInf
  | NInf, _ | _, NInf => NInf
  end.

(** [x / n] for a numpy scalar [x] and an integer [n]: a zero divisor gives
    [nan] or an infinity together with a warning, never an exception. *)
Definition np_div_int (x : npfloat) (n : Z) : npfloat :=
  match x with
  | Fin q =>
      if decide (n = 0%Z) then
        (if decide (q = 0) then NaN
         else if decide (0 < q) then PInf else NInf)
      else Fin (q / Q2Qc (inject_Z n))
  | NaN => NaN
  | PInf => if decide (n < 0)%Z then NInf else PInf
  | NInf => if decide (n < 0)%Z then PInf else NInf
  end.

(** [x < c]: every comparison with [nan] is false. *)
Definition np_lt (x : npfloat) (c : Qc) : bool :=
  match x with
  | Fin q => bool_decide (q < c)
  | NaN => false
  | PInf => false
  | NInf => true
  end.

Definition np_sum (xs : list npfloat) : npfloat := foldl np_add (Fin 0) xs.

(** [np.mean(xs)]: the sum divided by the number of entries; the mean of
    an empty array is [nan]. *)
Definition np_mean (xs : list npfloat) : npfloat :=
  np_div_int (np_sum xs) (Z.of_nat (length xs)).

Definition isnan (x : npfloat) : bool :=
  match x with
  | NaN => true
  | _ => false
  end.

(** [np.nanmean(xs)]: [nan] entries are replaced by 0 in the sum and left
    out of the count; if every entry is [nan] the quotient 0/0 is [nan]. *)
Definition np_nanmean (xs : list npfloat) : npfloat :=
  np_div_int (np_sum (map (fun x => if isnan x then Fin 0 else x) xs))
             (Z.of_nat (length (filter (fun x => isnan x = false) xs))).

End Py.
Export Py.

(** ** Tensors *)

Module Tensor.

(** A 2-D map [[H, W]], a batch of maps [[N, H, W]] (also used for
    [[N, 1, H, W]], the singleton channel axis being dropped) and a batch of
    multi-channel images [[N, C, H, W]]. *)
Definition img : Type := list (list Qc).
Definition maps : Type := list img.
Definition images : Type := list (list img).

(** Integer label maps [[N, H, W]]; class ids are non-negative. *)
Definition labels : Type := list (list (list nat)).

Definition Qc_of_nat (n : nat) : Qc := Q2Qc (inject_Z (Z.of_nat n)).

Definition Qc_max (a b : Qc) : Qc := if decide (a ≤ b) then b else a.
Definition Qc_min (a b : Qc) : Qc := if decide (a ≤ b) then a else b.

Definition Qc_sum (xs : list Qc) : Qc := foldr Qcplus 0 xs.

(** Element-wise binary operations on equal-shaped tensors. *)
Definition img_zip (f : Qc -> Qc -> Qc) (a b : img) : img :=
  zip_with (zip_with f) a b.
Definition maps_zip (f : Qc -> Qc -> Qc) (a b : maps) : maps :=
  zip_with (img_zip f) a b.
Definition maps_map (f : Qc -> Qc) (a : maps) : maps :=
  map (map (map f)) a.

(** [x op u] for [x : [N, C, H, W]] and [u : [N, 1, H, W]]: [u] is broadcast
    along the channel axis. *)
Definition images_zip_bc (f : Qc -> Qc -> Qc) (x : images) (u : maps) : images :=
  zip_with (fun chans m => map (fun c => img_zip f c m) chans) x u.

Definition images_zip (f : Qc -> Qc -> Qc) (x y : images) : images :=
  zip_with (zip_with (img_zip f)) x y.

(** [torch.sum] / [np.sum] over every entry. *)
Definition maps_sum (a : maps) : Qc := Qc_sum (concat (concat a)).

Definition min_of (xs : list Qc) : Qc :=
  match xs with
  | [] => 0
  | x :: xs' => foldl Qc_min x xs'
  end.
Definition max_of (xs : list Qc) : Qc :=
  match xs with
  | [] => 0
  | x :: xs' => foldl Qc_max x xs'
  end.

(** Modelled from the spec: [af.rescale_intensity] (module
    [dataloaders.aggregative_fusion], not part of the sources) is the
    min-max rescale to [[0,1]], taken per sample over the spatial axes.
    For a constant map the quotient is 0/0; it is left as [Qc]'s 0. *)
Definition rescale_img (m : img) : img :=
  let mn := min_of (concat m) in
  let mx := max_of (concat m) in
  map (map (fun x => (x - mn) / (mx - mn))) m.
Definition rescale_intensity (t : maps) : maps := map rescale_img t.

(** *** [torchvision.transforms.GaussianBlur]

    The 1-D kernel is [pdf / pdf.sum()] with [pdf(x) = exp(-x^2 / (2 sigma^2))]
    at [x = -h .. h], [h = (kernel_size - 1) / 2]; the 2-D kernel is its
    outer product with itself; the image is padded by [h] on each side in
    [reflect] mode and convolved.  [exp] is tabulated to three decimals. *)

Definition exp_neg_sq_200 : list Qc :=
  map (fun n => Q2Qc (Z.pos n # 1000))
      [1000; 995; 980; 956; 923; 882; 835; 783;
       726; 667; 607; 546; 487; 430; 375]%positive.

(** [pdf] for [kernel_size = 29], [sigma = 10]: offsets -14 .. 14. *)
Definition pdf_29_10 : list Qc :=
  reverse (drop 1 exp_neg_sq_200) ++ exp_neg_sq_200.

Definition kernel1d (pdf : list Qc) : list Qc :=
  let s := Qc_sum pdf in map (fun p => p / s) pdf.

(** Index of the padded image in [reflect] mode (the border is not
    repeated). *)
Definition reflect (n i : Z) : Z :=
  if (i <? 0)%Z then (- i)%Z
  else if (n <=? i)%Z then (2 * (n - 1) - i)%Z
  else i.

Definition pixel (m : img) (y x : Z) : Qc :=
  default 0 (m !! Z.to_nat y ≫= fun row => row !! Z.to_nat x).

Definition height (m : img) : nat := length m.
Definition width (m : img) : nat := length (default [] (head m)).

(** The 2-D kernel with the offsets of its taps: [kernel1d_y^T kernel1d_x]. *)
Definition kernel2d (k : list Qc) : list (Z * Z * Qc) :=
  let h := Z.of_nat (length k / 2) in
  let taps := imap (fun i w => (Z.of_nat i - h, w)%Z) k in
  flat_map (fun '(dy, wy) => map (fun '(dx, wx) => (dy, dx, wy * wx)) taps) taps.

Definition conv_at (k2 : list (Z * Z * Qc)) (m : img) (y x : Z) : Qc :=
  Qc_sum (map (fun '(dy, dx, w) =>
                 w * pixel m (reflect (Z.of_nat (height m)) (y + dy))
                             (reflect (Z.of_nat (width m)) (x + dx)))
              k2).

(** Blur of one map; the padding must be smaller than the map, otherwise
    [torch] raises a [RuntimeError]. *)
Definition blur_img (k : list Qc) (m : img) : result img :=
  let h := (length k / 2)%nat in
  if bool_decide (h < height m)%nat && bool_decide (h < width m)%nat then
    let k2 := kernel2d k in
    Ok (map (fun y => map (fun x => conv_at k2 m (Z.of_nat y) (Z.of_nat x))
                          (seq 0 (width m)))
            (seq 0 (height m)))
  else Raise RuntimeError.

(** [GaussianBlur(kernel_size=(29, 29), sigma=(10, 10))(t)] *)
Definition GaussianBlur_29_10 (t : maps) : result maps :=
  for_each (blur_img (kernel1d pdf_29_10)) t.

(** [t.detach()]: the same values, cut from the autograd graph (which the
    embedding does not represent). *)
Definition detach {A : Type} (t : A) : A := t.

End Tensor.
Export Tensor.

(** ** The training loops *)

Module Engine.

(** One entry of [optimizer.param_groups]. *)
Record param_group : Type := ParamGroup { lr : Qc; lr_scale : Qc }.

(** A training batch: [samples['images']], [samples['aug_images']] (only
    the mix-up runner reads it) and [samples['labels']]. *)
Record batch : Type := Batch {
  b_images : images;
  b_aug_images : option images;
  b_labels : labels
}.

(** Observable effects, in program order. *)
Inductive event : Type :=
| EvZeroGrad
| EvBackward (retain_graph : bool) (losses : Qc)
| EvStep (lrs : list Qc)
| EvScalerStep (lrs : list Qc)
| EvScalerUpdate
| EvMetrics (record : dict Qc)
| EvMetricLr (lr0 : Qc)
| EvVisDump (iteration : Z) (panels : list string)
| EvSynchronize.

(** Outcome of one loop body: go on, [break], or [return v]. *)
Inductive flow : Type :=
| Next
| Break
| Return (v : Z).

(** [a / b] on Python [int]s. *)
Definition py_truediv (a b : Z) : result Qc :=
  if decide (b = 0%Z) then Raise ZeroDivisionError
  else Ok (Q2Qc (inject_Z a) / Q2Qc (inject_Z b)).

(** [losses.backward()]: the [int] 0 of an empty sum has no such method. *)
Definition as_tensor (t : total) : result Qc :=
  match t with
  | IntZero => Raise AttributeError
  | Scalar q => Ok q
  end.

(** Panels of [visual_dict], in insertion order. *)
Definition visual_keys : list string :=
  ["CFAT"; "LFAT"; "GT"; "CFAT_pred"; "uncertainty_map_CFAT"; "LFAT_pred";
   "uncertainty_map_LFAT"; "mixed_img"; "mixed_pred"; "combined-UG"].

Definition visual_freq : Z := 200.

Section Collaborators.

(** The network's parameters together with the optimizer's internal
    buffers, and the network's output. *)
Variable net : Type.
Variable logits : Type.
(** [model(x)] *)
Variable forward : net -> images -> logits.
(** [criterion.get_loss(logits, lbl)] and [criterion.weight_dict] *)
Variable get_loss : logits -> labels -> dict Qc.
Variable weight_dict : gmap string Qc.
(** [-torch.mean(proba * torch.log2(proba), 1)] for
    [proba = Softmax(dim=1)(logits)]: a map per sample. *)
Variable entropy : logits -> maps.
(** [optimizer.step()]: the new parameters, from the learning rates and the
    (input, label) pairs back-propagated since [zero_grad]. *)
Variable update : net -> list Qc -> list (images * labels) -> net.

(** State threaded through the loops. *)
Record train_state : Type := TrainState {
  cur_iteration : Z;
  model : net;
  param_groups : list param_group;
  pending : list (images * labels);
  trace : list event
}.

Definition emit (e : event) (st : train_state) : train_state :=
  TrainState (cur_iteration st) (model st) (param_groups st) (pending st)
             (trace st ++ [e]).

Definition set_iteration (n : Z) (st : train_state) : train_state :=
  TrainState n (model st) (param_groups st) (pending st) (trace st).

Definition set_groups (gs : list param_group) (st : train_state) : train_state :=
  TrainState (cur_iteration st) (model st) gs (pending st) (trace st).

(** [optimizer.zero_grad()] *)
Definition zero_grad (st : train_state) : train_state :=
  emit EvZeroGrad
    (TrainState (cur_iteration st) (model st) (param_groups st) [] (trace st)).

(** [losses.backward(...)] for the loss of input [x] and label [lbl]. *)
Definition backward (retain : bool) (losses : total) (x : images) (lbl : labels)
    (st : train_state) : result train_state :=
  q ← as_tensor losses;
  Ok (emit (EvBackward retain q)
        (TrainState (cur_iteration st) (model st) (param_groups st)
                    (pending st ++ [(x, lbl)]) (trace st))).

(** [optimizer.step()] *)
Definition optimizer_step (st : train_state) : train_state :=
  let lrs := map lr (param_groups st) in
  emit (EvStep lrs)
    (TrainState (cur_iteration st) (update (model st) lrs (pending st))
                (param_groups st) (pending st) (trace st)).

(** [metric_logger.update(lr=optimizer.param_groups[0]["lr"])] *)
Definition log_lr (st : train_state) : result train_state :=
  match param_groups st with
  | [] => Raise IndexError
  | g :: _ => Ok (emit (EvMetricLr (lr g)) st)
  end.

Definition weight_of (k : string) : result Qc :=
  match weight_dict !! k with
  | Some w => Ok w
  | None => Raise (KeyError k)
  end.

(** [sum(loss_dict[k] * criterion.weight_dict[k] for k in loss_dict.keys())] *)
Definition weighted_losses (loss_dict : dict Qc) : result total :=
  terms ← for_each (fun k => l ← getitem loss_dict k; w ← weight_of k; Ok (l * w))
                   (keys loss_dict);
  Ok (py_sum terms).

(** [sum(loss_dict[k] * criterion.weight_dict[k] for k in loss_dict.keys()
         if k in criterion.weight_dict)] *)
Definition weighted_losses_filtered (loss_dict : dict Qc) : result total :=
  terms ← for_each (fun k => l ← getitem loss_dict k; w ← weight_of k; Ok (l * w))
                   (filter (fun k => is_Some (weight_dict !! k)) (keys loss_dict));
  Ok (py_sum terms).

(** [for samples in data_loader: body], with [break] and [return]. *)
Fixpoint for_loop {S : Type} (body : S -> batch -> result (flow * S))
    (s : S) (data_loader : list batch) : result (flow * S) :=
  match data_loader with
  | [] => Ok (Next, s)
  | samples :: rest =>
      r ← body s samples;
      match r.1 with
      | Next => for_loop body r.2 rest
      | _ => Ok r
      end
  end.

(** *** [train_warm_up] *)

(** [param_group["lr"] = cur_iteration/warmup_iteration*learning_rate
                         * param_group["lr_scale"]] for every group *)
Definition set_warmup_lr (cur warmup_iteration : Z) (learning_rate : Qc)
    (gs : list param_group) : result (list param_group) :=
  for_each (fun g =>
      r ← py_truediv cur warmup_iteration;
      Ok (ParamGroup (r * learning_rate * lr_scale g) (lr_scale g))) gs.

Definition warm_up_body (learning_rate : Qc) (warmup_iteration : Z)
    (st : train_state) (samples : batch) : result (flow * train_state) :=
  let st := set_iteration (cur_iteration st + 1) st in
  gs ← set_warmup_lr (cur_iteration st) warmup_iteration learning_rate
                     (param_groups st);
  let st := set_groups gs st in
  let img := b_images samples in
  let lbl := b_labels samples in
  let pred := forward (model st) img in
  let loss_dict := get_loss pred lbl in
  losses ← weighted_losses loss_dict;
  let st := zero_grad st in
  st ← backward false losses img lbl st;
  let st := optimizer_step st in
  let st := emit (EvMetrics loss_dict) st in
  st ← log_lr st;
  if decide (warmup_iteration ≤ cur_iteration st)%Z
  then Ok (Return (cur_iteration st), st)
  else Ok (Next, st).

(** [while True:] one pass over the loader per unit of [fuel]; [None] when
    the fuel is used up before the function returns. *)
Fixpoint warm_up_passes (fuel : nat) (learning_rate : Qc) (warmup_iteration : Z)
    (data_loader : list batch) (st : train_state)
    : option (result (Z * train_state)) :=
  match fuel with
  | O => None
  | S fuel' =>
      match for_loop (warm_up_body learning_rate warmup_iteration) st data_loader with
      | Raise e => Some (Raise e)
      | Ok (Return v, st') => Some (Ok (v, st'))
      | Ok (_, st') =>
          warm_up_passes fuel' learning_rate warmup_iteration data_loader
                         (emit EvSynchronize st')
      end
  end.

Definition train_warm_up (fuel : nat) (model0 : net) (data_loader : list batch)
    (optimizer : list param_group) (learning_rate : Qc) (warmup_iteration : Z)
    : option (result (Z * train_state)) :=
  warm_up_passes fuel learning_rate warmup_iteration data_loader
                 (TrainState 0 model0 optimizer [] []).

(** *** [train_one_epoch] *)

(** [grad_scaler.step(optimizer); grad_scaler.update()] *)
Definition scaler_step (st : train_state) : train_state :=
  let lrs := map lr (param_groups st) in
  emit EvScalerUpdate
    (emit (EvScalerStep lrs)
      (TrainState (cur_iteration st) (update (model st) lrs (pending st))
                  (param_groups st) (pending st) (trace st))).

Definition epoch_body (max_iteration : Z) (grad_scaler : bool)
    (st : train_state) (samples : batch) : result (flow * train_state) :=
  let img := b_images samples in
  let lbl := b_labels samples in
  let pred := forward (model st) img in
  let loss_dict := get_loss pred lbl in
  losses ← weighted_losses loss_dict;
  let st := zero_grad st in
  st ← backward false losses img lbl st;
  let st := if grad_scaler then scaler_step st else optimizer_step st in
  let st := emit (EvMetrics loss_dict) st in
  st ← log_lr st;
  let st := set_iteration (cur_iteration st + 1) st in
  if decide (max_iteration ≤ cur_iteration st ∧ 0 < max_iteration)%Z
  then Ok (Break, st)
  else Ok (Next, st).

Definition train_one_epoch (model0 : net) (data_loader : list batch)
    (optimizer : list param_group) (cur_iteration0 max_iteration : Z)
    (grad_scaler : bool) : result (Z * train_state) :=
  r ← for_loop (epoch_body max_iteration grad_scaler)
               (TrainState cur_iteration0 model0 optimizer [] []) data_loader;
  Ok (cur_iteration r.2, emit EvSynchronize r.2).

(** *** [train_one_epoch_FIESTA] *)

(** Lines 166-170: the fused guidance mask. *)
Definition fuse_UG (uncertainty_CFAT uncertainty_LFAT : maps) : result maps :=
  let mean_UG := maps_map (fun x => x / 2)
                          (maps_zip Qcplus uncertainty_CFAT uncertainty_LFAT) in
  let max_UG := maps_zip Qc_max uncertainty_CFAT uncertainty_LFAT in
  let UG := maps_map (fun x => x / 2) (maps_zip Qcplus mean_UG max_UG) in
  blurred ← GaussianBlur_29_10 UG;
  Ok (rescale_intensity blurred).

(** [np.where(gt > 1, 1, gt)] *)
Definition binarize (gt : labels) : labels :=
  map (map (map (fun v => if decide (1 < v)%nat then 1%nat else v))) gt.

(** [gt * UG[:, 0]] *)
Definition labels_times (gt : labels) (UG : maps) : maps :=
  zip_with (zip_with (zip_with (fun g u => Qc_of_nat g * u))) gt UG.

(** [len(np.where(gt == 1)[0])] *)
Definition count_ones (gt : labels) : nat :=
  length (filter (fun v => v = 1%nat) (concat (concat gt))).

(** Lines 172-179: [uncer_sum / gt_idx_len]. *)
Definition coverage_ratio (lbl : labels) (UG : maps) : npfloat :=
  let gt := binarize lbl in
  let gt_ug := labels_times gt UG in
  let gt_idx_len := count_ones gt in
  let uncer_sum := maps_sum gt_ug in
  np_div_int (Fin uncer_sum) (Z.of_nat gt_idx_len).

(** Lines 179-182: the mixed input. *)
Definition mixed_input (CFAT_img LFAT_img : images) (lbl : labels) (UG : maps)
    : images :=
  if np_lt (coverage_ratio lbl UG) (1 / 2) then
    images_zip Qcplus
      (images_zip_bc Qcmult (detach CFAT_img) UG)
      (images_zip_bc Qcmult LFAT_img (maps_map (fun u => 1 - u) UG))
  else
    images_zip Qcplus (detach CFAT_img) LFAT_img.

(** Lines 201-206: the aggregated record [all_loss_dict]. *)
Fixpoint aggregate_loop (loss_dict aug_loss_dict mixed_loss_dict : dict Qc)
    (ks : list string) (all_loss_dict : dict Qc) : result (dict Qc) :=
  match ks with
  | [] => Ok all_loss_dict
  | k :: ks' =>
      if decide (is_Some (weight_dict !! k)) then
        v ← getitem loss_dict k;
        let all1 := setitem all_loss_dict k v in
        va ← getitem aug_loss_dict k;
        let all2 := setitem all1 (k ++ "_aug") va in
        vm ← getitem mixed_loss_dict k;
        let all3 := setitem all2 (k ++ "_mix") vm in
        aggregate_loop loss_dict aug_loss_dict mixed_loss_dict ks' all3
      else
        aggregate_loop loss_dict aug_loss_dict mixed_loss_dict ks' all_loss_dict
  end.

Definition aggregate_losses (loss_dict aug_loss_dict mixed_loss_dict : dict Qc)
    : result (dict Qc) :=
  aggregate_loop loss_dict aug_loss_dict mixed_loss_dict (keys loss_dict) [].

(** The loop body; the second component of the loop state is the local
    [aug_loss_dict], [None] while the name is unbound. *)
Definition ugm_body (max_iteration : Z) (visdir : option string)
    (s : train_state * option (dict Qc)) (samples : batch)
    : result (flow * (train_state * option (dict Qc))) :=
  let st := s.1 in
  let CFAT_img := b_images samples in
  LFAT_img ← match b_aug_images samples with
             | Some x => Ok x
             | None => Raise (KeyError "aug_images")
             end;
  let lbl := b_labels samples in
  let st := zero_grad st in
  let logits0 := forward (model st) CFAT_img in
  let loss_dict := get_loss logits0 lbl in
  losses ← weighted_losses_filtered loss_dict;
  st ← backward true losses CFAT_img lbl st;
  let uncertainty_CFAT :=
    rescale_intensity (entropy (forward (model st) CFAT_img)) in
  let aug_logits := forward (model st) LFAT_img in
  let aug_loss_dict := get_loss aug_logits lbl in
  aug_losses ← weighted_losses_filtered aug_loss_dict;
  st ← backward true aug_losses LFAT_img lbl st;
  let uncertainty_LFAT :=
    rescale_intensity (entropy (forward (model st) LFAT_img)) in
  UG ← fuse_UG uncertainty_CFAT uncertainty_LFAT;
  let mixed_var := mixed_input CFAT_img LFAT_img lbl UG in
  let mixed_logits := forward (model st) mixed_var in
  let mixed_loss_dict := get_loss mixed_logits lbl in
  mix_losses ← weighted_losses_filtered mixed_loss_dict;
  st ← backward false mix_losses mixed_var lbl st;
  let st := optimizer_step st in
  all_loss_dict ← aggregate_losses loss_dict aug_loss_dict mixed_loss_dict;
  let st := emit (EvMetrics all_loss_dict) st in
  st ← log_lr st;
  if decide (max_iteration ≤ cur_iteration st ∧ 0 < max_iteration)%Z
  then Ok (Break, (st, Some aug_loss_dict))
  else
    let st :=
      if decide (is_Some visdir ∧ (cur_iteration st mod visual_freq = 0)%Z)
      then emit (EvVisDump (cur_iteration st) visual_keys) st
      else st in
    Ok (Next, (set_iteration (cur_iteration st + 1) st, Some aug_loss_dict)).

Definition train_one_epoch_FIESTA (model0 : net) (data_loader : list batch)
    (optimizer : list param_group) (cur_iteration0 max_iteration : Z)
    (visdir : option string) : result (Z * dict Qc * train_state) :=
  r ← for_loop (ugm_body max_iteration visdir)
               (TrainState cur_iteration0 model0 optimizer [] [], None)
               data_loader;
  let st := emit EvSynchronize r.2.1 in
  match r.2.2 with
  | None => Raise (UnboundLocalError "aug_loss_dict")
  | Some aug_loss_dict => Ok (cur_iteration st, aug_loss_dict, st)
  end.

End Collaborators.

Arguments TrainState {net}.
Arguments cur_iteration {net}.
Arguments model {net}.
Arguments param_groups {net}.
Arguments pending {net}.
Arguments trace {net}.
Arguments emit {net}.
Arguments set_iteration {net}.
Arguments set_groups {net}.
Arguments zero_grad {net}.
Arguments backward {net}.
Arguments optimizer_step {net}.
Arguments scaler_step {net}.
Arguments log_lr {net}.
Arguments warm_up_body {net logits}.
Arguments warm_up_passes {net logits}.
Arguments train_warm_up {net logits}.
Arguments epoch_body {net logits}.
Arguments train_one_epoch {net logits}.
Arguments ugm_body {net logits}.
Arguments train_one_epoch_FIESTA {net logits}.

End Engine.

(** ** Evaluation: [evaluate], [prediction_wrapper], [eval_list_wrapper] *)

Module Evaluation.
Import Engine.

(** [F.one_hot(tensor, num_c)] moved to class-major layout: mask [c] holds 1
    where the value is [c].  A value outside [0 .. num_c - 1] is an error. *)
Definition one_hot (num_c : nat) (xs : list nat) : result (list (list nat)) :=
  if bool_decide (Forall (fun v => v < num_c)%nat xs) then
    Ok (map (fun c => map (fun v => if decide (v = c) then 1%nat else 0%nat) xs)
            (seq 0 num_c))
  else Raise RuntimeError.

(** [monai.metrics.compute_meandice] for one sample and one class mask:
    [2 |P ∩ G| / (|P| + |G|)], and [nan] when the class has no ground-truth
    pixel. *)
Definition dice_channel (y_pred y : list nat) : npfloat :=
  let intersection := sum_list (zip_with Nat.mul y y_pred) in
  let y_o := sum_list y in
  let y_pred_o := sum_list y_pred in
  let denominator := (y_o + y_pred_o)%nat in
  if bool_decide (0 < y_o)%nat
  then Fin (2 * Qc_of_nat intersection / Qc_of_nat denominator)
  else NaN.

Definition compute_meandice (y_pred y : list (list nat))
    (include_background : bool) : list npfloat :=
  let y_pred := if include_background then y_pred else drop 1 y_pred in
  let y := if include_background then y else drop 1 y in
  zip_with dice_channel y_pred y.

(** One row of scores per sample of the batch. *)
Definition batch_dice (num_classes : nat) (pred lbl : labels)
    : result (list (list npfloat)) :=
  one_hot_pred ← for_each (fun p => one_hot num_classes (concat p)) pred;
  one_hot_gt ← for_each (fun g => one_hot num_classes (concat g)) lbl;
  Ok (zip_with (fun yp y => compute_meandice yp y false) one_hot_pred one_hot_gt).

(** [np.concatenate(arrays, 0)]: an empty list of arrays and rows of
    unequal width are errors. *)
Definition np_concatenate (arrays : list (list (list npfloat)))
    : result (list (list npfloat)) :=
  match arrays with
  | [] => Raise ValueError
  | _ =>
      let rows := concat arrays in
      let w := length (default [] (head rows)) in
      if bool_decide (Forall (fun r => length r = w) rows) then Ok rows
      else Raise ValueError
  end.

(** [table[:, j]] *)
Definition column (j : nat) (rows : list (list npfloat)) : list npfloat :=
  map (fun r => default NaN (r !! j)) rows.

(** [np.nanmean(table, 0)] *)
Definition nanmean_axis0 (rows : list (list npfloat)) : list npfloat :=
  map (fun j => np_nanmean (column j rows))
      (seq 0 (length (default [] (head rows)))).

(** [table[:, 1:].mean()] *)
Definition mean_without_background (rows : list (list npfloat)) : npfloat :=
  np_mean (concat (map (drop 1) rows)).

(** [scan_id.split("_")] *)
Fixpoint split_on (sep : Ascii.ascii) (s : string) : list string :=
  match s with
  | EmptyString => [EmptyString]
  | String c s' =>
      if decide (c = sep) then EmptyString :: split_on sep s'
      else match split_on sep s' with
           | [] => [String c EmptyString]
           | w :: ws => String c w :: ws
           end
  end.

(** [domain, pid = scan_id.split("_")]: unpacking needs exactly two parts. *)
Definition domain_of (scan_id : string) : result string :=
  match split_on "_"%char scan_id with
  | [domain; pid] => Ok domain
  | _ => Raise ValueError
  end.

(** A volume [[nframe, H, W]] of class ids. *)
Definition volume : Type := list (list (list nat)).

(** One entry of [vol_list]: a dictionary that may hold ['pred'] and
    ['gth']. *)
Record vol_entry : Type := VolEntry {
  v_pred : option volume;
  v_gth : option volume
}.

(** One entry of [tables_by_domain]. *)
Record domain_table : Type := DomainTable {
  scores : list (list npfloat);
  scan_ids : list string
}.

(** Values stored in [error_dict]. *)
Inductive evalue : Type :=
| VFloat (x : npfloat)
| VTable (t : list (list npfloat))
| VStr (s : string).

Definition lookup_key {V : Type} (o : option V) (k : string) : result V :=
  match o with
  | Some v => Ok v
  | None => Raise (KeyError k)
  end.

(** Line 338: per-class Dice of one reassembled volume, background
    included. *)
Definition scan_dice (nclass : nat) (comp : vol_entry) : result (list npfloat) :=
  pred_ ← lookup_key (v_pred comp) "pred";
  gth_ ← lookup_key (v_gth comp) "gth";
  y_pred ← one_hot nclass (concat (concat pred_));
  y ← one_hot nclass (concat (concat gth_));
  Ok (compute_meandice y_pred y true).

(** Lines 332-346: rows of [dsc_table] in arrival order and the tables
    grouped by domain. *)
Fixpoint scan_loop (nclass : nat) (vol_list : list (string * vol_entry))
    (tables_by_domain : dict domain_table) (dsc_table : list (list npfloat))
    : result (dict domain_table * list (list npfloat)) :=
  match vol_list with
  | [] => Ok (tables_by_domain, dsc_table)
  | (scan_id, comp) :: rest =>
      domain ← domain_of scan_id;
      let tables := if contains tables_by_domain domain then tables_by_domain
                    else setitem tables_by_domain domain (DomainTable [] []) in
      dices ← scan_dice nclass comp;
      t ← getitem tables domain;
      let tables := setitem tables domain
                      (DomainTable (scores t ++ [dices]) (scan_ids t ++ [scan_id])) in
      scan_loop nclass rest tables (dsc_table ++ [dices])
  end.

(** Lines 350-354: per-class means. *)
Fixpoint organ_loop (label_name : list string) (dsc_table : list (list npfloat))
    (organs : list nat) (error_dict : dict evalue) : result (dict evalue) :=
  match organs with
  | [] => Ok error_dict
  | organ :: rest =>
      let mean_dc := np_mean (column organ dsc_table) in
      name ← match label_name !! organ with
             | Some n => Ok n
             | None => Raise IndexError
             end;
      organ_loop label_name dsc_table rest (setitem error_dict name (VFloat mean_dc))
  end.

(** Lines 362-368: per-domain means.  The value paired with [domain_name]
    is the one the source looks up again under that key. *)
Fixpoint domain_loop (tables : list (string * domain_table))
    (error_dict : dict evalue) (overall_by_domain : list npfloat)
    (domain_names : list string)
    : dict evalue * list npfloat * list string :=
  match tables with
  | [] => (error_dict, overall_by_domain, domain_names)
  | (domain_name, domain_dict) :: rest =>
      let domain_scores := scores domain_dict in
      let domain_mean_score := mean_without_background domain_scores in
      let error_dict :=
        setitem error_dict ("domain_" ++ domain_name ++ "_overall")
                (VFloat domain_mean_score) in
      let error_dict :=
        setitem error_dict ("domain_" ++ domain_name ++ "_table")
                (VTable domain_scores) in
      domain_loop rest error_dict (overall_by_domain ++ [domain_mean_score])
                  (domain_names ++ [domain_name])
  end.

Definition eval_list_wrapper (vol_list : dict vol_entry) (nclass : nat)
    (label_name : list string)
    : result (dict evalue * list (list npfloat) * list string) :=
  r ← scan_loop nclass vol_list [] [];
  let tables_by_domain := r.1 in
  let dsc_table := r.2 in
  error_dict ← organ_loop label_name dsc_table (seq 0 nclass) [];
  let error_dict :=
    setitem error_dict "overall" (VFloat (mean_without_background dsc_table)) in
  let d := domain_loop tables_by_domain error_dict [] [] in
  let error_dict :=
    setitem d.1.1 "overall_by_domain" (VFloat (np_mean d.1.2)) in
  Ok (error_dict, dsc_table, d.2).

(** A batch of the volumetric test loader. *)
Record slice_batch : Type := SliceBatch {
  is_start : bool;
  is_end : bool;
  scan_id : list string;
  nframe : nat;
  s_images : images;
  s_labels : labels
}.

(** One entry of [out_prediction_list]; the tensors are referred to by
    their address in the store, as the dictionary holds references. *)
Record comp : Type := Comp {
  c_pred : option nat;
  c_gth : option nat
}.

(** Local variables of [prediction_wrapper] ([None]: not yet bound), the
    store of allocated volumes and the result buffer.  The buffer
    [curr_img], which is written and never read, and the image files saved
    for every batch are left out. *)
Record pw_state : Type := PwState {
  slice_idx : option nat;
  scan_id_full : option string;
  curr_pred : option nat;
  curr_gth : option nat;
  store : list volume;
  out_prediction_list : dict comp
}.

Definition bound {V : Type} (o : option V) (name : string) : result V :=
  match o with
  | Some v => Ok v
  | None => Raise (UnboundLocalError name)
  end.

(** [np.zeros([nframe, nx, ny])] *)
Definition zeros (n nx ny : nat) : volume :=
  replicate n (replicate nx (replicate ny 0%nat)).

(** Broadcasting of one axis to length [n]: equal length, or length 1. *)
Definition expand {A : Type} (n : nat) (l : list A) : option (list A) :=
  if decide (length l = n) then Some l
  else match l with
       | [x] => Some (replicate n x)
       | _ => None
       end.

(** [vol[idx, ...] = slice]: [idx] must be in range and [slice] must
    broadcast to the shape of the target. *)
Definition assign_slice (vol : volume) (idx : nat) (slice : list (list nat))
    : result volume :=
  match vol !! idx with
  | None => Raise IndexError
  | Some target =>
      let nx := length target in
      let ny := length (default [] (head target)) in
      match mapM (expand ny) slice ≫= expand nx with
      | Some s => Ok (<[idx := s]> vol)
      | None => Raise RuntimeError
      end
  end.

Definition store_slice (st : list volume) (addr idx : nat)
    (slice : list (list nat)) : result (list volume) :=
  match st !! addr with
  | None => Raise RuntimeError
  | Some vol => vol' ← assign_slice vol idx slice; Ok (<[addr := vol']> st)
  end.

Definition first {A : Type} (l : list A) : result A :=
  match l with
  | [] => Raise IndexError
  | x :: _ => Ok x
  end.

Section Model.

(** The network in evaluation mode. *)
Variable logits : Type.
Variable model : images -> logits.
(** [torch.argmax(logits, 1)] and [logits.size(1)] *)
Variable argmax : logits -> labels.
Variable size1 : logits -> nat.

(** *** [evaluate] *)

Definition evaluate (data_loader : list batch) : result (list npfloat) :=
  dices ← for_each (fun samples =>
             let img := b_images samples in
             let lbl := b_labels samples in
             let lg := model img in
             let num_classes := size1 lg in
             let pred := argmax lg in
             batch_dice num_classes pred lbl) data_loader;
  dices ← np_concatenate dices;
  Ok (nanmean_axis0 dices).

(** *** [prediction_wrapper] *)

(** Lines 276-286: a new scan starts. *)
Definition start_scan (st : pw_state) (batch : slice_batch) : result pw_state :=
  sid ← first (scan_id batch);
  let out := setitem (out_prediction_list st) sid (Comp None None) in
  let chan := default [] (head (default [] (head (s_images batch)))) in
  let nx := height chan in
  let ny := width chan in
  let a := length (store st) in
  Ok (PwState (Some 0%nat) (Some sid) (Some a) (Some (S a))
              (store st ++ [zeros (nframe batch) nx ny; zeros (nframe batch) nx ny])
              out).

(** Lines 300-302: the scan ends. *)
Definition end_scan (st : pw_state) : result pw_state :=
  sid ← bound (scan_id_full st) "scan_id_full";
  entry ← getitem (out_prediction_list st) sid;
  a_pred ← bound (curr_pred st) "curr_pred";
  let out := setitem (out_prediction_list st) sid (Comp (Some a_pred) (c_gth entry)) in
  entry ← getitem out sid;
  a_gth ← bound (curr_gth st) "curr_gth";
  let out := setitem out sid (Comp (c_pred entry) (Some a_gth)) in
  Ok (PwState (slice_idx st) (scan_id_full st) (curr_pred st) (curr_gth st)
              (store st) out).

(** Lines 288-302: the slice of the batch goes into the buffers. *)
Definition record_slice (st : pw_state) (batch : slice_batch) : result pw_state :=
  if bool_decide (length (s_labels batch) = 1%nat) then
    let gth := s_labels batch in
    let pred := argmax (model (s_images batch)) in
    pred0 ← first pred;
    a_pred ← bound (curr_pred st) "curr_pred";
    idx ← bound (slice_idx st) "slice_idx";
    store1 ← store_slice (store st) a_pred idx pred0;
    gth0 ← first gth;
    a_gth ← bound (curr_gth st) "curr_gth";
    store2 ← store_slice store1 a_gth idx gth0;
    let st := PwState (Some (S idx)) (scan_id_full st) (curr_pred st)
                      (curr_gth st) store2 (out_prediction_list st) in
    if is_end batch then end_scan st else Ok st
  else Raise AssertionError.

(** Lines 276-302: one batch of the test loader. *)
Definition pw_step (st : pw_state) (batch : slice_batch) : result pw_state :=
  st ← (if is_start batch then start_scan st batch else Ok st);
  record_slice st batch.

Fixpoint pw_loop (st : pw_state) (test_loader : list slice_batch)
    : result pw_state :=
  match test_loader with
  | [] => Ok st
  | batch :: rest => st' ← pw_step st batch; pw_loop st' rest
  end.

Definition pw_init : pw_state := PwState None None None None [] [].

(** The volumes behind the references of an entry. *)
Definition deref (st : list volume) (c : comp) : vol_entry :=
  VolEntry (c_pred c ≫= fun a => st !! a) (c_gth c ≫= fun a => st !! a).

Definition prediction_wrapper (test_loader : list slice_batch)
    (label_name : list string) (mode : string) (save_prediction : bool)
    : result (dict vol_entry * list (list npfloat) * dict evalue * list string) :=
  st ← pw_loop pw_init test_loader;
  let vol_list := map (fun kc => (kc.1, deref (store st) kc.2))
                      (out_prediction_list st) in
  r ← eval_list_wrapper vol_list (length label_name) label_name;
  let error_dict := setitem r.1.1 "mode" (VStr mode) in
  Ok (if save_prediction then vol_list else [], r.1.2, error_dict, r.2).

End Model.

Arguments evaluate {logits}.
Arguments record_slice {logits}.
Arguments pw_step {logits}.
Arguments pw_loop {logits}.
Arguments prediction_wrapper {logits}.

End Evaluation.

(** ** Statements in the words of the specification *)

Module Claims.
Import Engine Evaluation.

(** "sum over all keys k of L of L[k]*W[k]" *)
Definition spec_weighted_sum (W : gmap string Qc) (L : dict Qc) : Qc :=
  Qc_sum (map (fun kv => kv.2 * default 0 (W !! kv.1)) L).

(** "the sum restricted to keys of L that are present in W" *)
Definition spec_filtered_sum (W : gmap string Qc) (L : dict Qc) : Qc :=
  spec_weighted_sum W (filter (fun kv => is_Some (W !! kv.1)) L).

(** "keys outside W ... being excluded from the aggregated per-iteration
    record", read literally. *)
Definition record_excludes_unweighted (W : gmap string Qc)
    (L L_aug L_mix : dict Qc) : Prop :=
  forall rec k,
    aggregate_losses W L L_aug L_mix = Ok rec ->
    k ∈ keys L -> W !! k = None -> k ∉ keys rec.

(** The names under which a weighted key [k0] enters the record. *)
Definition record_names (k0 : string) : list string :=
  [k0; k0 ++ "_aug"; k0 ++ "_mix"]%string.

(** "(mean(uncertainty_c, uncertainty_a) + max(uncertainty_c,
    uncertainty_a)) / 2", entry by entry. *)
Definition spec_combination (uc ua : maps) : maps :=
  maps_zip (fun c a => ((c + a) / 2 + Qc_max c a) / 2) uc ua.

(** "the 29x29, sigma-10 Gaussian blur applied to the min-max-rescaled
    combination": rescale first, blur last. *)
Definition spec_UG_rescale_then_blur (uc ua : maps) : result maps :=
  GaussianBlur_29_10 (rescale_intensity (spec_combination uc ua)).

(** The other order: blur first, rescale last. *)
Definition spec_UG_blur_then_rescale (uc ua : maps) : result maps :=
  rescale_intensity <$> GaussianBlur_29_10 (spec_combination uc ua).

(** The learning rates in force at each [optimizer.step()] of a trace. *)
Definition steps_of (tr : list event) : list (list Qc) :=
  omap (fun e => match e with EvStep lrs => Some lrs | _ => None end) tr.

(** "(i/W) * base_lr * group.lr_scale" *)
Definition spec_warmup_lr (i W : Z) (base_lr scale : Qc) : Qc :=
  Q2Qc (inject_Z i) / Q2Qc (inject_Z W) * base_lr * scale.

(** The learning rates of all groups at iteration [i]. *)
Definition spec_warmup_row (W : Z) (base_lr : Qc) (optimizer : list param_group)
    (i : Z) : list Qc :=
  map (fun g => spec_warmup_lr i W base_lr (lr_scale g)) optimizer.

(** Rows [c + 1 .. c + n] of the schedule. *)
Definition spec_warmup_rows (W : Z) (base_lr : Qc) (optimizer : list param_group)
    (c : Z) (n : nat) : list (list Qc) :=
  map (fun k => spec_warmup_row W base_lr optimizer (c + 1 + Z.of_nat k)%Z)
      (seq 0 n).

(** The groups keep their [lr_scale]; only [lr] is overwritten. *)
Definition lr_scales_kept {net : Type} (optimizer : list param_group)
    (st : train_state net) : Prop :=
  map lr_scale (param_groups st) = map lr_scale optimizer.

(** The events of one iteration of the mix-up loop up to the budget check:
    three backward passes, then the optimizer step, then the two metric
    updates. *)
Definition ugm_events (q1 q2 q3 : Qc) (lrs : list Qc) (rec : dict Qc) (lr0 : Qc)
    : list event :=
  [EvZeroGrad; EvBackward true q1; EvBackward true q2; EvBackward false q3;
   EvStep lrs; EvMetrics rec; EvMetricLr lr0].

(** "the iteration counter has reached a positive max_iteration budget" *)
Definition budget_reached (max_iteration it : Z) : Prop :=
  (max_iteration <= it /\ 0 < max_iteration)%Z.

(** The periodic snapshot, labelled with the counter [it] at which it is
    taken. *)
Definition snapshot_events (visdir : option string) (it : Z) : list event :=
  if decide (is_Some visdir /\ (it mod visual_freq = 0)%Z)
  then [EvVisDump it visual_keys] else [].

(** What one iteration that raises no exception leaves behind, entered with
    counter [it] and trace [tr]: on a reached budget the loop breaks with
    the counter unchanged and nothing after the metric updates; otherwise
    the snapshot (if due) is the last effect and the counter is [it + 1]. *)
Definition ugm_outcome {net : Type} (max_iteration : Z) (visdir : option string)
    (it : Z) (m : net) (gs : list param_group) (pend : list (images * labels))
    (tr : list event) (q1 q2 q3 : Qc) (rec : dict Qc) (aug_loss_dict : dict Qc)
    : flow * (train_state net * option (dict Qc)) :=
  let tr' := tr ++ ugm_events q1 q2 q3 (map lr gs) rec
                              (default 0 (lr <$> head gs)) in
  if decide (budget_reached max_iteration it)
  then (Break, (TrainState it m gs pend tr', Some aug_loss_dict))
  else (Next, (TrainState (it + 1) m gs pend (tr' ++ snapshot_events visdir it),
               Some aug_loss_dict)).

(** Number of pixels of class [c], and of pixels where prediction and
    ground truth are both [c]. *)
Definition count_eq (c : nat) (xs : list nat) : nat :=
  length (filter (fun v => v = c) xs).
Definition count_both (c : nat) (p g : list nat) : nat :=
  length (filter (fun pg => pg.1 = c /\ pg.2 = c) (zip p g)).

(** "Dice: 2|P∩G| / (|P|+|G|)", and [NaN] for a class without ground-truth
    pixels in the sample. *)
Definition spec_dice (c : nat) (p g : list nat) : npfloat :=
  if decide (count_eq c g = 0)%nat then NaN
  else Fin (2 * Qc_of_nat (count_both c p g)
            / Qc_of_nat (count_eq c p + count_eq c g)).

(** The score row of one sample: classes [1 .. num_classes - 1]. *)
Definition spec_dice_row (num_classes : nat) (pred gt : list (list nat))
    : list npfloat :=
  map (fun c => spec_dice c (concat pred) (concat gt)) (seq 1 (num_classes - 1)).

(** "the mean of only the defined entries" of a column. *)
Definition defined_entries (col : list npfloat) : list Qc :=
  omap (fun x => match x with Fin q => Some q | _ => None end) col.
Definition spec_mean_defined (col : list npfloat) : npfloat :=
  match defined_entries col with
  | [] => NaN
  | ds => Fin (Qc_sum ds / Qc_of_nat (length ds))
  end.

Definition finite_or_nan (x : npfloat) : Prop :=
  match x with
  | Fin _ | NaN => True
  | _ => False
  end.

(** Class ids of a label tensor below [n]. *)
Definition classes_below (n : nat) (t : labels) : Prop :=
  Forall (Forall (Forall (fun v => v < n)%nat)) t.

(** Entry [[n, h, w]] of a 3-axis tensor and [[n, c, h, w]] of a 4-axis
    one; [None] out of range. *)
Definition at2 {A : Type} (t : list (list A)) (h w : nat) : option A :=
  match t !! h with
  | Some r => r !! w
  | None => None
  end.
Definition at3 {A : Type} (t : list (list (list A))) (n h w : nat) : option A :=
  match t !! n with
  | Some m => at2 m h w
  | None => None
  end.
Definition at4 {A : Type} (t : list (list (list (list A)))) (n c h w : nat)
    : option A :=
  match t !! n with
  | Some x => at3 x c h w
  | None => None
  end.

(** "the label is binarized by mapping values greater than 1 to 1" *)
Definition spec_label_fg (v : nat) : nat :=
  if decide (1 < v)%nat then 1%nat else v.

(** "sum(label_fg * UG)": pixel by pixel, row by row, sample by sample. *)
Definition spec_uncer_sum (lbl : labels) (UG : maps) : Qc :=
  Qc_sum (zip_with (fun lm um =>
    Qc_sum (zip_with (fun lr ur =>
      Qc_sum (zip_with (fun l u => Qc_of_nat (spec_label_fg l) * u) lr ur))
      lm um)) lbl UG).

(** "count(label_fg == 1)" *)
Definition spec_fg_count (lbl : labels) : nat :=
  length (filter (fun v => spec_label_fg v = 1%nat) (concat (concat lbl))).

(** "the coverage ratio equals sum(label_fg * UG) / count(label_fg == 1)" *)
Definition spec_coverage_ratio (lbl : labels) (UG : maps) : npfloat :=
  np_div_int (Fin (spec_uncer_sum lbl UG)) (Z.of_nat (spec_fg_count lbl)).

(** Concrete inputs used to exercise the statements. *)

(** A 15x15 map that is 1 at the top-left pixel and 0 elsewhere. *)
Definition spike : img :=
  map (fun y => map (fun x => if decide (x = 0 /\ y = 0)%nat then 1 else 0)
                    (seq 0 15)) (seq 0 15).

(** The top-left entry of the only map of a result. *)
Definition first_pixel (r : result maps) : Q :=
  match r with
  | Ok [m] => this (pixel m 0 0)
  | _ => 0%Q
  end.

Definition half : Qc := 1 / 2.

(** Stand-ins for the collaborators: a network that returns its input, a
    criterion with two fixed losses, an optimizer whose update leaves the
    parameters alone, and predictions without uncertainty (entropy 0 on a
    15x15 grid). *)
Definition forward_demo (_ : unit) (x : images) : images := x.
Definition get_loss_demo (_ : images) (_ : labels) : dict Qc :=
  [("ce"%string, Qc_of_nat 3); ("dice"%string, Qc_of_nat 5)].
Definition update_demo (m : unit) (_ : list Qc) (_ : list (images * labels))
    : unit := m.
Definition entropy_demo (lg : images) : maps :=
  map (fun _ => replicate 15 (replicate 15 0)) lg.
Definition optimizer_demo : list param_group :=
  [ParamGroup 0 1; ParamGroup 0 half].

(** The loop state at counter 200, before any batch. *)
Definition ugm_start : train_state unit * option (dict Qc) :=
  (TrainState 200 tt optimizer_demo [] [], None).

(** One sample, one channel, 15x15. *)
Definition clean15 : images := [[spike]].
Definition aug15 : images := [[map (map (fun x => 1 - x)) spike]].
Definition lbl15 : labels := [replicate 15 (replicate 15 1%nat)].
Definition batch15 : batch := Batch clean15 (Some aug15) lbl15.

Definition lbl_background : labels := [[[0; 0]; [0; 0]]]%nat.
Definition lbl_demo : labels := [[[0; 3]; [1; 0]]]%nat.
Definition UG_demo : maps := [[[half; 1]; [0; half]]].
Definition clean_demo : images := [[[[1; 0]; [1; 1]]]].
Definition aug_demo : images := [[[[0; 1]; [1; 0]]]].

Definition W_demo : gmap string Qc := <["ce" := 1]> (<["dice" := 2]> ∅).
Definition L_demo : dict Qc :=
  [("ce"%string, Qc_of_nat 3); ("dice"%string, Qc_of_nat 5);
   ("aux"%string, Qc_of_nat 7)].

(** A loss named like the augmented copy of a weighted loss. *)
Definition W_clash : gmap string Qc := <["ce" := 1]> ∅.
Definition L_clash : dict Qc := [("ce"%string, 1); ("ce_aug"%string, 2)].

(** The score rows of a whole evaluation run, one per sample, batch after
    batch. *)
Definition spec_score_rows {logits : Type} (model : images -> logits)
    (argmax : logits -> labels) (num_classes : nat) (data_loader : list batch)
    : list (list npfloat) :=
  concat (map (fun b => zip_with (spec_dice_row num_classes)
                                 (argmax (model (b_images b))) (b_labels b))
              data_loader).

(** A batch the evaluator accepts: labels are class ids of the network, and
    there is a prediction for each of its (at least one) samples. *)
Definition eval_batch_ok {logits : Type} (model : images -> logits)
    (argmax : logits -> labels) (num_classes : nat) (b : batch) : Prop :=
  classes_below num_classes (b_labels b)
  /\ b_labels b <> []
  /\ length (argmax (model (b_images b))) = length (b_labels b).

(** A stand-in network with three classes that predicts the same 2x2 map
    for every input, and two batches; class 2 is absent from the first. *)
Definition pred_demo : labels := [[[0; 1]; [1; 2]]]%nat.
Definition eval_model_demo (_ : images) : labels := pred_demo.
Definition eval_loader_demo : list batch :=
  [Batch clean_demo None [[[0; 1]; [1; 1]]]%nat;
   Batch clean_demo None [[[0; 1]; [2; 2]]]%nat].

(** A 2-D map with [nx] rows of [ny] entries. *)
Definition has_shape (nx ny : nat) (m : list (list nat)) : Prop :=
  length m = nx /\ Forall (fun r => length r = ny) m.

(** The predicted class map [pred[0]] and the label [gth[0]] of a batch of
    the test loader. *)
Definition pred_of {logits : Type} (model : images -> logits)
    (argmax : logits -> labels) (b : slice_batch) : list (list nat) :=
  default [] (head (argmax (model (s_images b)))).
Definition gth_of (b : slice_batch) : list (list nat) :=
  default [] (head (s_labels b)).

(** "well-formed scan stream (is_start on the first slice, is_end on the
    last, batch size 1, constant nframe)": the batches of one scan [sid],
    in slice order, with [nx] x [ny] slices. *)
Record well_formed_scan {logits : Type} (model : images -> logits)
    (argmax : logits -> labels) (nx ny : nat) (sid : string)
    (bs : list slice_batch) : Prop := WellFormedScan {
  wf_nonempty : bs <> [];
  wf_flags : forall i b, bs !! i = Some b ->
               is_start b = bool_decide (i = 0%nat)
               /\ is_end b = bool_decide (S i = length bs);
  wf_scan_id : forall b, head bs = Some b -> head (scan_id b) = Some sid;
  wf_image : forall b, head bs = Some b ->
               exists chan chans rest,
                 s_images b = (chan :: chans) :: rest
                 /\ height chan = nx /\ width chan = ny;
  wf_nframe : Forall (fun b => nframe b = length bs) bs;
  wf_batch_size : Forall (fun b => length (s_labels b) = 1%nat) bs;
  wf_gth : Forall (fun b => has_shape nx ny (gth_of b)) bs;
  wf_pred : Forall (fun b => argmax (model (s_images b)) <> []
                             /\ has_shape nx ny (pred_of model argmax b)) bs
}.

(** [np.zeros([nx, ny])] *)
Definition zero_slice (nx ny : nat) : list (list nat) :=
  replicate nx (replicate ny 0%nat).

(** A buffer of [n] slices after the first [k] batches of [bs] were
    written through [f]. *)
Definition scan_buffer (f : slice_batch -> list (list nat)) (nx ny n : nat)
    (bs : list slice_batch) (k : nat) : list (list (list nat)) :=
  map f (take k bs) ++ replicate (n - k) (zero_slice nx ny).

(** The state of [prediction_wrapper] after [k >= 1] batches of a scan of
    [n] slices that began in state [st0]. *)
Record scan_progress {logits : Type} (model : images -> logits)
    (argmax : logits -> labels) (nx ny : nat) (sid : string)
    (bs : list slice_batch) (st0 : pw_state) (k : nat) (st : pw_state)
    : Prop := ScanProgress {
  sp_slice_idx : slice_idx st = Some k;
  sp_scan_id : scan_id_full st = Some sid;
  sp_curr_pred : curr_pred st = Some (length (store st0));
  sp_curr_gth : curr_gth st = Some (S (length (store st0)));
  sp_store : store st
             = store st0
               ++ [scan_buffer (pred_of model argmax) nx ny (length bs) bs k;
                   scan_buffer gth_of nx ny (length bs) bs k];
  sp_entry : get (out_prediction_list st) sid
             = Some (if decide (k = length bs)
                     then Comp (Some (length (store st0)))
                               (Some (S (length (store st0))))
                     else Comp None None);
  sp_others : forall j, j <> sid ->
                get (out_prediction_list st) j = get (out_prediction_list st0) j
}.

(** A stand-in segmentation network (non-zero intensity of the first
    channel is class 1) and a scan ["A_1"] of three 2x2 slices. *)
Definition scan_model_demo (x : images) : labels :=
  map (fun chans => map (map (fun q : Qc => if decide (q = 0) then 0%nat else 1%nat))
                        (default [] (head chans))) x.
Definition slice_demo (s e : bool) (im : img) (g : list (list nat)) : slice_batch :=
  SliceBatch s e ["A_1"%string] 3 [[im]] [g].
Definition scan_demo : list slice_batch :=
  [slice_demo true false [[0; 1]; [1; 0]] [[0; 1]; [1; 1]]%nat;
   slice_demo false false [[1; 1]; [0; 0]] [[2; 1]; [0; 0]]%nat;
   slice_demo false true [[0; 0]; [0; 1]] [[0; 0]; [0; 2]]%nat].

(** The distinct values of a list, in the order of their first
    occurrence. *)
Fixpoint first_occurrences (ds : list string) : list string :=
  match ds with
  | [] => []
  | d :: ds' => d :: filter (fun x => x <> d) (first_occurrences ds')
  end.

(** The score rows of the scans of domain [d], in arrival order; [scored]
    pairs the domain of each scan with its score row. *)
Definition rows_of_domain (d : string) (scored : list (string * list npfloat))
    : list (list npfloat) :=
  map snd (filter (fun dr => dr.1 = d) scored).

(** "each domain's mean score computed over its scans and over all classes
    except background (column 0)" *)
Definition spec_domain_mean (d : string) (scored : list (string * list npfloat))
    : npfloat :=
  np_mean (concat (map (drop 1) (rows_of_domain d scored))).

(** "the unweighted mean over domains of each domain's mean score" *)
Definition spec_overall_by_domain (scored : list (string * list npfloat))
    : npfloat :=
  np_mean (map (fun d => spec_domain_mean d scored)
               (first_occurrences (map fst scored))).

(** "the scan-weighted global mean reported as 'overall'" *)
Definition spec_overall (scored : list (string * list npfloat)) : npfloat :=
  np_mean (concat (map (drop 1) (map snd scored))).

(** The domain and the score row of one entry of [vol_list]. *)
Definition score_scan (nclass : nat) (entry : string * vol_entry)
    : result (string * list npfloat) :=
  d ← domain_of entry.1; r ← scan_dice nclass entry.2; Ok (d, r).

(** The tables agree with the grouping of the scans scored so far. *)
Definition tables_group (tables : dict domain_table)
    (scored : list (string * list npfloat)) : Prop :=
  keys tables = first_occurrences (map fst scored)
  /\ Forall (fun kt => scores kt.2 = rows_of_domain kt.1 scored) tables.

(** Three scored scans, two of domain [A] and one of domain [B]; column 0
    is the background. *)
Definition scored_demo : list (string * list npfloat) :=
  [("A"%string, [Fin 1; Fin 1]); ("A"%string, [Fin 1; Fin 1]);
   ("B"%string, [Fin 1; Fin 0])].

(** Three reassembled one-slice volumes with two classes: the two scans of
    domain [A] are predicted exactly, the scan of domain [B] misses its
    foreground pixel. *)
Definition vol_list_demo : dict vol_entry :=
  [("A_1"%string, VolEntry (Some [[[0; 1]; [1; 0]]]%nat) (Some [[[0; 1]; [1; 0]]]%nat));
   ("A_2"%string, VolEntry (Some [[[1; 1]; [0; 0]]]%nat) (Some [[[1; 1]; [0; 0]]]%nat));
   ("B_1"%string, VolEntry (Some [[[0; 0]; [0; 1]]]%nat) (Some [[[1; 0]; [0; 0]]]%nat))].
Definition label_name_demo : list string := ["background"; "foreground"]%string.

(** The rational behind a finite score of [error_dict]. *)
Definition score_as_Q (o : option evalue) : option Q :=
  match o with
  | Some (VFloat (Fin q)) => Some (this q)
  | _ => None
  end.

End Claims.

(** ** Definitions for further properties of the code *)

Module Behaviour.
Import Engine Evaluation Claims.

(** *** The training loops *)

(** The learning rates of every parameter update of a trace, whether made
    by [optimizer.step()] or by [grad_scaler.step(optimizer)]. *)
Definition updates_of (tr : list event) : list (list Qc) :=
  omap (fun e => match e with
                 | EvStep lrs | EvScalerStep lrs => Some lrs
                 | _ => None
                 end) tr.

(** The number of batches [train_one_epoch] trains on, entered with counter
    [cur] and a loader of [len] batches: the counter is compared with the
    budget after it was incremented, so one batch is trained on even when
    the budget was already used up. *)
Definition epoch_batches (max_iteration cur : Z) (len : nat) : nat :=
  if decide (0 < max_iteration)%Z
  then Nat.min len (Z.to_nat (Z.max 1 (max_iteration - cur)))
  else len.

(** The parameters after [train_one_epoch] has trained on the batches [bs]:
    one update per batch, from the gradient of that batch alone. *)
Definition epoch_model {net : Type}
    (update : net -> list Qc -> list (images * labels) -> net)
    (lrs : list Qc) (model0 : net) (bs : list batch) : net :=
  foldl (fun m b => update m lrs [(b_images b, b_labels b)]) model0 bs.

(** The iterations of [train_one_epoch_FIESTA] that end with the counter
    incremented, and the batches it trains on: the counter is compared with
    the budget before it is incremented, so the batch at which the loop
    breaks is trained on and not counted. *)
Definition fiesta_counted (max_iteration cur : Z) (len : nat) : nat :=
  if decide (0 < max_iteration)%Z
  then Nat.min len (Z.to_nat (Z.max 0 (max_iteration - cur)))
  else len.
Definition fiesta_batches (max_iteration cur : Z) (len : nat) : nat :=
  if decide (0 < max_iteration)%Z
  then Nat.min len (S (Z.to_nat (Z.max 0 (max_iteration - cur))))
  else len.

(** The groups of [optimizer] with the learning rate of the last warm-up
    iteration, [learning_rate * lr_scale]. *)
Definition warmed_up (learning_rate : Qc) (optimizer : list param_group)
    : list param_group :=
  map (fun g => ParamGroup (learning_rate * lr_scale g) (lr_scale g)) optimizer.

(** A criterion whose only loss has no weight. *)
Definition get_loss_unweighted (_ : images) (_ : labels) : dict Qc :=
  [("aux"%string, Qc_of_nat 7)].

(** A small batch for the loops that do not blur. *)
Definition batch_demo : batch := Batch clean_demo (Some aug_demo) lbl_demo.

(** *** The aggregated record *)

(** The keys of a loss dictionary that have a weight, in order. *)
Definition weighted_keys (W : gmap string Qc) (L : dict Qc) : list string :=
  filter (fun k => is_Some (W !! k)) (keys L).

(** No weighted loss is named like the augmented or the mixed copy of a
    weighted loss. *)
Definition suffix_free (ks : list string) : Prop :=
  forall k k', k ∈ ks -> k' ∈ ks ->
    k <> (k' ++ "_aug")%string /\ k <> (k' ++ "_mix")%string.

(** Losses of the three branches of one iteration. *)
Definition L_aug_demo : dict Qc :=
  [("ce"%string, Qc_of_nat 2); ("dice"%string, Qc_of_nat 4)].
Definition L_mix_demo : dict Qc :=
  [("dice"%string, Qc_of_nat 6); ("ce"%string, Qc_of_nat 1)].

(** *** Evaluation *)

(** [c in s] *)
Fixpoint has_char (c : Ascii.ascii) (s : string) : bool :=
  match s with
  | EmptyString => false
  | String c' s' => if decide (c' = c) then true else has_char c s'
  end.

(** A scan id of the form [domain_pid], with one underscore. *)
Definition scan_id_of (domain pid : string) : string :=
  (domain ++ String "_"%char pid)%string.

(** A Dice score or a mean of Dice scores: [nan], or a value in [[0, 1]]. *)
Definition unit_score (x : npfloat) : Prop :=
  match x with
  | Fin q => 0 <= q /\ q <= 1
  | NaN => True
  | _ => False
  end.

(** The keys [eval_list_wrapper] writes besides the label names. *)
Definition reserved_key (k : string) : Prop :=
  k = "overall"%string \/ k = "overall_by_domain"%string
  \/ exists d, k = ("domain_" ++ d ++ "_overall")%string
               \/ k = ("domain_" ++ d ++ "_table")%string.

(** The last character of a string. *)
Fixpoint last_char (s : string) : option Ascii.ascii :=
  match s with
  | EmptyString => None
  | String c EmptyString => Some c
  | String _ s' => last_char s'
  end.

(** Two reassembled one-slice volumes with two classes; the ground truth
    of the second has no foreground voxel. *)
Definition vol_list_absent : dict vol_entry :=
  [("A_1"%string, VolEntry (Some [[[0; 1]; [1; 0]]]%nat) (Some [[[0; 1]; [1; 0]]]%nat));
   ("B_1"%string, VolEntry (Some [[[0; 0]; [0; 1]]]%nat) (Some [[[0; 0]; [0; 0]]]%nat))].

(** The rows of [dsc_table] that belong to the scans of domain [d]: row
    [i] is the row of the [i]-th scan of [vol_list]. *)
Definition domain_rows (d : string) (vol_list : dict vol_entry)
    (dsc_table : list (list npfloat)) : list (list npfloat) :=
  omap (fun ir : (string * vol_entry) * list npfloat =>
          match domain_of ir.1.1 with
          | Ok d' => if decide (d' = d) then Some ir.2 else None
          | Raise _ => None
          end)
       (zip vol_list dsc_table).

(** What [eval_list_wrapper] needs of one entry of [vol_list]: an id of
    the form [domain_pid] and a prediction and a ground truth with class
    ids below [nclass]. *)
Definition scorable (nclass : nat) (entry : string * vol_entry) : Prop :=
  (exists d pid, entry.1 = scan_id_of d pid
                 /\ has_char "_" d = false /\ has_char "_" pid = false)
  /\ exists p g, entry.2 = VolEntry (Some p) (Some g)
                 /\ classes_below nclass p /\ classes_below nclass g.

(** *** Reassembly of several scans *)

(** The reassembled volumes of a scan, as [eval_list_wrapper] reads them:
    slice [k] of ['pred'] is the predicted class map of the [k]-th batch,
    slice [k] of ['gth'] its label. *)
Definition reassembled {logits : Type} (model : images -> logits)
    (argmax : logits -> labels) (bs : list slice_batch) : vol_entry :=
  VolEntry (Some (map (pred_of model argmax) bs)) (Some (map gth_of bs)).

(** The volumes of a list of scans, each given by its id and its
    batches. *)
Definition reassembled_scans {logits : Type} (model : images -> logits)
    (argmax : logits -> labels) (scans : list (string * list slice_batch))
    : dict vol_entry :=
  map (fun s => (s.1, reassembled model argmax s.2)) scans.

(** The test loader of a list of scans: the batches of the first scan,
    then those of the second, and so on. *)
Definition loader_of (scans : list (string * list slice_batch))
    : list slice_batch :=
  concat (map snd scans).

(** The volumes behind [out_prediction_list]. *)
Definition volumes_of (st : pw_state) : dict vol_entry :=
  map (fun kc => (kc.1, deref (store st) kc.2)) (out_prediction_list st).

(** A second scan, ["B_7"], of two 2x2 slices, and a batch that continues
    a scan. *)
Definition scan_demo_B : list slice_batch :=
  [SliceBatch true false ["B_7"%string] 2 [[[[1; 0]; [0; 0]]]] [[[1; 0]; [0; 1]]%nat];
   SliceBatch false true ["B_7"%string] 2 [[[[0; 0]; [1; 1]]]] [[[0; 0]; [1; 1]]%nat]].
Definition stray_demo : slice_batch :=
  SliceBatch false false ["A_1"%string] 3 [[[[0; 1]; [1; 0]]]] [[[0; 1]; [1; 1]]%nat].

(** Every reference held in [out_prediction_list] is an address of the
    store. *)
Definition references_bound (st : pw_state) : Prop :=
  Forall (fun kc : string * comp =>
            forall a, c_pred kc.2 = Some a \/ c_gth kc.2 = Some a ->
                      (a < length (store st))%nat)
         (out_prediction_list st).

(** A scan with its id, well formed for some slice shape. *)
Definition well_formed_entry {logits : Type} (model : images -> logits)
    (argmax : logits -> labels) (s : string * list slice_batch) : Prop :=
  exists nx ny, well_formed_scan model argmax nx ny s.1 s.2.

(** *** Guidance mask and mixing *)

(** A batch of maps [[n, h, w]]. *)
Definition shaped (n h w : nat) (t : maps) : Prop :=
  length t = n
  /\ Forall (fun m => length m = h /\ Forall (fun r => length r = w) m) t.

(** Entries in [[0, 1]], as a min-max rescale leaves them. *)
Definition in_unit (t : maps) : Prop :=
  Forall (Forall (Forall (fun u => 0 <= u /\ u <= 1))) t.

(** The label tensor [[N, H, W]] and the mask [[N, 1, H, W]] agree on
    [N], [H] and [W] (numpy multiplies them entry by entry). *)
Definition same_shape (lbl : labels) (UG : maps) : Prop :=
  Forall2 (Forall2 (fun (r : list nat) (u : list Qc) => length r = length u))
          lbl UG.

(** A 14x15 map: one row short of what the blur can pad. *)
Definition short_map : img := replicate 14 (replicate 15 0).

End Behaviour.

(** * Proofs *)

Import Engine Evaluation Claims.

(** ** Helper lemmas: results, dictionaries, sums *)

Section ResultFacts.
Context {A B : Type}.

Lemma for_each_ok (f : A -> result B) (g : A -> B) (xs : list A) :
  (forall x, x ∈ xs -> f x = Ok (g x)) -> for_each f xs = Ok (map g xs).
Proof.
  induction xs as [|x xs IH]; intros Hf; [done|].
  cbn. rewrite (Hf x) by left. cbn.
  rewrite IH; [done|]. intros y Hy. apply Hf. by right.
Qed.

Lemma for_each_raise (f : A -> result B) (xs : list A) (x : A) :
  x ∈ xs -> (forall b, f x <> Ok b) ->
  exists y e, y ∈ xs /\ f y = Raise e /\ for_each f xs = Raise e.
Proof.
  induction xs as [|a xs IH]; intros Hx Hbad; [by apply elem_of_nil in Hx|].
  cbn. destruct (f a) as [b|e] eqn:Hfa.
  - apply elem_of_cons in Hx as [->|Hx]; [by destruct (Hbad b)|].
    destruct (IH Hx Hbad) as (y & e & Hy & Hfy & Hall).
    exists y, e. split; [by right|]. split; [done|]. cbn. by rewrite Hall.
  - exists a, e. split; [by left|]. done.
Qed.

End ResultFacts.

Section DictFacts.
Context {V : Type}.
Implicit Types (d : dict V) (k : string) (v : V).

Lemma get_Some_elem d k v : get d k = Some v -> (k, v) ∈ d.
Proof.
  induction d as [|[k' v'] d IH]; cbn; [done|].
  destruct (decide (k' = k)) as [->|].
  - intros [= ->]. by left.
  - intros H. right. by apply IH.
Qed.

Lemma get_None_keys d k : get d k = None <-> k ∉ keys d.
Proof.
  unfold keys. induction d as [|[k' v'] d IH]; cbn.
  - split; [intros _; apply not_elem_of_nil | done].
  - rewrite not_elem_of_cons. destruct (decide (k' = k)) as [->|Hne].
    + split; [done | by intros [? _]].
    + rewrite IH. split; [by intros ? | by intros [_ ?]].
Qed.

Lemma get_is_Some_keys d k : is_Some (get d k) <-> k ∈ keys d.
Proof.
  destruct (get d k) eqn:Hg.
  - split; [intros _|by eauto].
    apply get_Some_elem in Hg. unfold keys.
    apply list_elem_of_fmap. by exists (k, v).
  - apply get_None_keys in Hg. split; [by intros [? ?] | done].
Qed.

Lemma get_NoDup d k v : NoDup (keys d) -> (k, v) ∈ d -> get d k = Some v.
Proof.
  unfold keys. induction d as [|[k' v'] d IH]; cbn; intros Hnd Hin.
  - by apply elem_of_nil in Hin.
  - pose proof (NoDup_cons_1_1 _ _ Hnd) as Hk'.
    apply NoDup_cons_1_2 in Hnd.
    apply elem_of_cons in Hin as [[= -> ->]|Hin].
    + by rewrite decide_True.
    + destruct (decide (k' = k)) as [->|]; [|by apply IH].
      destruct Hk'. apply list_elem_of_fmap. by exists (k, v).
Qed.

Lemma keys_setitem d k v :
  forall j, j ∈ keys (setitem d k v) <-> j = k \/ j ∈ keys d.
Proof.
  unfold keys. induction d as [|[k' v'] d IH]; intros j; cbn.
  - rewrite list_elem_of_singleton. split; [by left | intros [?|H]; [done|]].
    by apply elem_of_nil in H.
  - destruct (decide (k' = k)) as [->|Hne]; cbn.
    + rewrite !elem_of_cons. tauto.
    + rewrite !elem_of_cons, IH. tauto.
Qed.

Lemma get_setitem_eq d k v : get (setitem d k v) k = Some v.
Proof.
  induction d as [|[k' v'] d IH]; cbn.
  - by rewrite decide_True.
  - destruct (decide (k' = k)) as [->|Hne]; cbn.
    + by rewrite decide_True.
    + by rewrite decide_False.
Qed.

Lemma get_setitem_ne d k j v : k <> j -> get (setitem d k v) j = get d j.
Proof.
  intros Hkj. induction d as [|[k' v'] d IH]; cbn.
  - by rewrite decide_False.
  - destruct (decide (k' = k)) as [->|Hne]; cbn.
    + by rewrite !decide_False.
    + destruct (decide (k' = j)); [done|]. apply IH.
Qed.

End DictFacts.

Lemma py_sum_from (acc : total) (xs : list Qc) :
  total_value (foldl py_add acc xs) = total_value acc + Qc_sum xs.
Proof.
  revert acc. induction xs as [|x xs IH]; intros acc.
  - change (total_value acc = total_value acc + 0). ring.
  - change (total_value (foldl py_add (py_add acc x) xs)
            = total_value acc + (x + Qc_sum xs)).
    rewrite IH. change (total_value (py_add acc x)) with (total_value acc + x).
    ring.
Qed.

Lemma py_sum_value (xs : list Qc) : total_value (py_sum xs) = Qc_sum xs.
Proof.
  unfold py_sum. rewrite py_sum_from.
  change (total_value IntZero) with 0. ring.
Qed.

Lemma foldl_py_add_scalar (q : Qc) (ys : list Qc) :
  exists q', foldl py_add (Scalar q) ys = Scalar q'.
Proof.
  revert q. induction ys as [|y ys IH]; intros q; [by eexists|]. apply IH.
Qed.

Lemma py_sum_nonempty (xs : list Qc) :
  xs <> [] -> py_sum xs = Scalar (Qc_sum xs).
Proof.
  intros Hne. pose proof (py_sum_value xs) as Hv.
  destruct xs as [|x xs]; [done|].
  unfold py_sum in *.
  change (foldl py_add IntZero (x :: xs))
    with (foldl py_add (Scalar (total_value IntZero + x)) xs) in *.
  destruct (foldl_py_add_scalar (total_value IntZero + x) xs) as [q' Hq'].
  rewrite Hq' in *. by rewrite <- Hv.
Qed.

(** ** Weighted totals and the aggregated record (C3) *)

Section WeightedTotals.
Variable W : gmap string Qc.

Lemma getitem_keys {V : Type} (d : dict V) (k : string) :
  k ∈ keys d -> exists v, getitem d k = Ok v /\ get d k = Some v.
Proof.
  intros Hk. apply get_is_Some_keys in Hk as [v Hv].
  exists v. unfold getitem. by rewrite Hv.
Qed.

Lemma term_ok (L : dict Qc) (k : string) :
  k ∈ keys L -> is_Some (W !! k) ->
  (l ← getitem L k; w ← weight_of W k; Ok (l * w))
  = Ok (default 0 (get L k) * default 0 (W !! k)).
Proof.
  intros Hk [w Hw]. destruct (getitem_keys L k Hk) as (v & Hg & Hv).
  rewrite Hg. cbn. unfold weight_of. by rewrite Hw, Hv.
Qed.

Lemma term_raise (L : dict Qc) (k : string) (e : exn) :
  k ∈ keys L ->
  (l ← getitem L k; w ← weight_of W k; Ok (l * w)) = Raise e ->
  W !! k = None /\ e = KeyError k.
Proof.
  intros Hk. destruct (getitem_keys L k Hk) as (v & Hg & _).
  rewrite Hg. cbn. unfold weight_of. destruct (W !! k); cbn; [done|].
  by intros [= <-].
Qed.

Lemma terms_sum (L : dict Qc) (P : string -> Prop) `{!forall k, Decision (P k)} :
  NoDup (keys L) ->
  Qc_sum (map (fun k => default 0 (get L k) * default 0 (W !! k))
              (filter P (keys L)))
  = spec_weighted_sum W (filter (fun kv => P kv.1) L).
Proof.
  intros Hnd. unfold spec_weighted_sum.
  assert (Hget : forall kv, kv ∈ L -> get L kv.1 = Some kv.2).
  { intros [k v] Hin. by apply get_NoDup. }
  revert Hget. generalize (get L) as g. clear Hnd.
  induction L as [|[k v] L' IH]; intros g Hget; [done|].
  assert (IH' := IH g (fun kv H => Hget kv (list_elem_of_further _ _ _ H))).
  change (keys ((k, v) :: L')) with (k :: keys L').
  destruct (decide (P k)) as [HP|HP].
  2: { rewrite filter_cons_False by done.
       by rewrite (filter_cons_False (fun kv : string * Qc => P kv.1)) by done. }
  rewrite filter_cons_True by done.
  rewrite (filter_cons_True (fun kv : string * Qc => P kv.1)) by done.
  rewrite !map_cons. change (Qc_sum (?x :: ?l)) with (x + Qc_sum l).
  rewrite IH'. pose proof (Hget (k, v) ltac:(left)) as Hk.
  cbn [fst snd] in Hk |- *. by rewrite Hk.
Qed.

Lemma filter_true_id {A : Type} (P : A -> Prop) `{!forall x, Decision (P x)}
    (l : list A) :
  Forall P l -> filter P l = l.
Proof.
  induction 1 as [|x l Hx _ IH]; [done|].
  rewrite filter_cons, decide_True by done. by rewrite IH.
Qed.

Lemma weighted_losses_ok (L : dict Qc) :
  NoDup (keys L) -> Forall (fun k => is_Some (W !! k)) (keys L) ->
  exists t, weighted_losses W L = Ok t /\ total_value t = spec_weighted_sum W L.
Proof.
  intros Hnd Hall. unfold weighted_losses.
  erewrite for_each_ok; last first.
  { intros k Hk. apply term_ok; [done|].
    exact (proj1 (list.Forall_forall _ _) Hall k Hk). }
  eexists. split; [reflexivity|]. rewrite py_sum_value.
  rewrite <- (filter_true_id _ (keys L) Hall) at 1.
  rewrite terms_sum by done. f_equal. apply filter_true_id.
  apply list.Forall_forall. intros [k v] Hin.
  apply (proj1 (list.Forall_forall _ _) Hall k).
  unfold keys. apply list_elem_of_fmap. by exists (k, v).
Qed.

Lemma weighted_losses_raise (L : dict Qc) (k : string) :
  k ∈ keys L -> W !! k = None ->
  exists k', k' ∈ keys L /\ W !! k' = None
             /\ weighted_losses W L = Raise (KeyError k').
Proof.
  intros Hk Hw. unfold weighted_losses.
  destruct (for_each_raise
              (fun k => l ← getitem L k; w ← weight_of W k; Ok (l * w))
              (keys L) k Hk) as (y & e & Hy & Hfy & Hall).
  { intros b Hb. destruct (getitem_keys L k Hk) as (v & Hg & _).
    rewrite Hg in Hb. cbn in Hb. unfold weight_of in Hb. by rewrite Hw in Hb. }
  destruct (term_raise L y e Hy Hfy) as [Hwy ->].
  exists y. by rewrite Hall.
Qed.

Lemma weighted_losses_filtered_ok (L : dict Qc) :
  NoDup (keys L) ->
  exists t, weighted_losses_filtered W L = Ok t
            /\ total_value t = spec_filtered_sum W L.
Proof.
  intros Hnd. unfold weighted_losses_filtered.
  erewrite for_each_ok; last first.
  { intros k Hk. apply list_elem_of_filter in Hk as [Hw Hk]. by apply term_ok. }
  eexists. split; [reflexivity|]. rewrite py_sum_value.
  by rewrite terms_sum.
Qed.

Lemma aggregate_loop_keys (L L_aug L_mix : dict Qc) (ks : list string)
    (acc : dict Qc) :
  Forall (fun k => k ∈ keys L
                   /\ (is_Some (W !! k) -> k ∈ keys L_aug /\ k ∈ keys L_mix)) ks ->
  exists rec, aggregate_loop W L L_aug L_mix ks acc = Ok rec
    /\ forall j, j ∈ keys rec <->
         j ∈ keys acc
         \/ exists k0, k0 ∈ ks /\ is_Some (W !! k0) /\ j ∈ record_names k0.
Proof.
  intros Hks. revert acc. induction Hks as [|k ks [HkL Hk] _ IH]; intros acc.
  - exists acc. split; [done|]. intros j. split; [by left|].
    intros [?|(k0 & Hk0 & _)]; [done|]. by apply elem_of_nil in Hk0.
  - cbn. destruct (decide (is_Some (W !! k))) as [Hw|Hw].
    + destruct (Hk Hw) as [Ha Hm].
      destruct (getitem_keys L k HkL) as (v & -> & _).
      destruct (getitem_keys L_aug k Ha) as (va & -> & _).
      destruct (getitem_keys L_mix k Hm) as (vm & -> & _). cbn.
      destruct (IH (setitem (setitem (setitem acc k v) (k ++ "_aug") va)
                            (k ++ "_mix") vm)) as (rec & Hrec & Hkeys).
      exists rec. split; [done|]. intros j. rewrite Hkeys.
      rewrite !keys_setitem. unfold record_names. split.
      * intros [[->|[->|[->|Hacc]]]|(k0 & Hk0 & Hw0 & Hj)].
        -- right. exists k. split; [by left|]. split; [done|]. do 2 right. by left.
        -- right. exists k. split; [by left|]. split; [done|]. right. by left.
        -- right. exists k. split; [by left|]. split; [done|]. by left.
        -- by left.
        -- right. exists k0. split; [by right|]. done.
      * intros [Hacc|(k0 & Hk0 & Hw0 & Hj)]; [by eauto 6|].
        apply elem_of_cons in Hk0 as [->|Hk0].
        -- left. rewrite !elem_of_cons in Hj.
           destruct Hj as [?|[?|[?|Hnil]]]; [tauto..|].
           by apply elem_of_nil in Hnil.
        -- right. by exists k0.
    + destruct (IH acc) as (rec & Hrec & Hkeys).
      exists rec. split; [done|]. intros j. rewrite Hkeys. split.
      * intros [?|(k0 & Hk0 & Hw0 & Hj)]; [by left|].
        right. exists k0. split; [by right|]. done.
      * intros [?|(k0 & Hk0 & Hw0 & Hj)]; [by left|].
        apply elem_of_cons in Hk0 as [->|Hk0]; [done|].
        right. by exists k0.
Qed.

(** C3 (as amended).  For a loss dictionary [L] and the weight table [W]:
    the total of the standard runner and of the warm-up is the sum of
    [L[k] * W[k]] over every key of [L] and is a [KeyError] when a key of
    [L] is missing from [W]; the total of each branch of the mix-up runner
    is the same sum restricted to the keys present in [W]; and the
    aggregated record has exactly the keys [k], [k_aug], [k_mix] for the
    keys [k] of [L] present in [W], no entry being written on behalf of a
    key outside [W]. *)
Theorem C3_weighted_totals (L L_aug L_mix : dict Qc) :
  NoDup (keys L) ->
  Forall (fun k => is_Some (W !! k) -> k ∈ keys L_aug /\ k ∈ keys L_mix) (keys L) ->
  (Forall (fun k => is_Some (W !! k)) (keys L) ->
   exists t, weighted_losses W L = Ok t
             /\ total_value t = spec_weighted_sum W L)
  /\ (forall k, k ∈ keys L -> W !! k = None ->
      exists k', k' ∈ keys L /\ W !! k' = None
                 /\ weighted_losses W L = Raise (KeyError k'))
  /\ (exists t, weighted_losses_filtered W L = Ok t
                /\ total_value t = spec_filtered_sum W L)
  /\ (exists rec, aggregate_losses W L L_aug L_mix = Ok rec
        /\ forall j, j ∈ keys rec <->
             exists k0, k0 ∈ keys L /\ is_Some (W !! k0) /\ j ∈ record_names k0).
Proof.
  intros Hnd Hbr. split; [|split; [|split]].
  - intros Hall. by apply weighted_losses_ok.
  - intros k Hk Hw. by apply weighted_losses_raise with k.
  - by apply weighted_losses_filtered_ok.
  - destruct (aggregate_loop_keys L L_aug L_mix (keys L) []) as (rec & Hrec & Hkeys).
    { apply list.Forall_forall. intros k Hk. split; [done|].
      exact (proj1 (list.Forall_forall _ _) Hbr k Hk). }
    exists rec. split; [done|]. intros j. rewrite Hkeys. split.
    + intros [Hnil|?]; [by apply elem_of_nil in Hnil | done].
    + by right.
Qed.

End WeightedTotals.

Ltac by_computation := apply (bool_decide_unpack _); vm_compute; exact I.

Lemma C3_weighted_totals_witness :
  exists t, weighted_losses_filtered W_demo L_demo = Ok t
            /\ total_value t = spec_filtered_sum W_demo L_demo.
Proof.
  apply (C3_weighted_totals W_demo L_demo L_demo L_demo); by_computation.
Defined.

(** C3, as stated, fails: with [L = {ce, ce_aug}] and [W = {ce}] the key
    [ce_aug] of [L] is outside [W], yet the record has an entry of that
    name (the augmented branch's [ce]). *)
Lemma C3_record_counterexample :
  ~ record_excludes_unweighted W_clash L_clash L_clash L_clash.
Proof.
  intros H.
  apply (H [("ce"%string, 1); ("ce_aug"%string, 1); ("ce_mix"%string, 1)]
           "ce_aug"%string).
  - vm_compute. reflexivity.
  - by_computation.
  - vm_compute. reflexivity.
  - by_computation.
Qed.

(** ** Tensor facts *)

Section TensorFacts.

Lemma Forall_concat_nested {A : Type} (P : A -> Prop) (ls : list (list A)) :
  Forall P (concat ls) <-> Forall (Forall P) ls.
Proof.
  induction ls as [|l ls IH]; cbn.
  - split; constructor.
  - rewrite Forall_app, IH. split.
    + intros [? ?]. by constructor.
    + intros H. split; [exact (Forall_inv H) | exact (Forall_inv_tail H)].
Qed.

Lemma Forall_zip_with_left {A B C : Type} (P : A -> Prop) (Q : C -> Prop)
    (f : A -> B -> C) (l : list A) (k : list B) :
  Forall P l -> (forall x y, P x -> Q (f x y)) -> Forall Q (zip_with f l k).
Proof.
  intros Hl Hf. revert k. induction Hl as [|x l Hx _ IH]; intros [|y k]; cbn;
    constructor; auto.
Qed.

Lemma Forall_map_impl {A B : Type} (P : A -> Prop) (Q : B -> Prop)
    (f : A -> B) (l : list A) :
  Forall P l -> (forall x, P x -> Q (f x)) -> Forall Q (map f l).
Proof. induction 1; cbn; constructor; auto. Qed.

Lemma filter_length_zero {A : Type} (P : A -> Prop) `{!forall x, Decision (P x)}
    (l : list A) :
  length (filter P l) = 0%nat -> Forall (fun x => ~ P x) l.
Proof.
  induction l as [|x l IH]; [constructor|].
  destruct (decide (P x)) as [HP|HP].
  - by rewrite filter_cons_True.
  - rewrite filter_cons_False by done. intros Hl. constructor; auto.
Qed.

Lemma Qc_sum_zero (xs : list Qc) : Forall (fun x => x = 0) xs -> Qc_sum xs = 0.
Proof.
  induction 1 as [|x xs -> _ IH]; [done|].
  change (Qc_sum (0 :: xs)) with (0 + Qc_sum xs). rewrite IH. ring.
Qed.

Lemma Qc_sum_app (xs ys : list Qc) : Qc_sum (xs ++ ys) = Qc_sum xs + Qc_sum ys.
Proof.
  induction xs as [|x xs IH].
  - change (Qc_sum ys = 0 + Qc_sum ys). ring.
  - change (x + Qc_sum (xs ++ ys) = x + Qc_sum xs + Qc_sum ys). rewrite IH. ring.
Qed.

Lemma Qc_sum_concat (xss : list (list Qc)) :
  Qc_sum (concat xss) = Qc_sum (map Qc_sum xss).
Proof.
  induction xss as [|xs xss IH]; [done|].
  cbn [concat map]. rewrite Qc_sum_app, IH. done.
Qed.

Lemma maps_sum_zero (a : maps) :
  Forall (Forall (Forall (fun x => x = 0))) a -> maps_sum a = 0.
Proof.
  intros H. unfold maps_sum. apply Qc_sum_zero.
  apply Forall_concat_nested. by apply Forall_concat_nested.
Qed.

Lemma binarize_le_1 (lbl : labels) :
  Forall (Forall (Forall (fun v => v <= 1)%nat)) (binarize lbl).
Proof.
  unfold binarize.
  apply Forall_map_impl with (P := fun _ => True); [by apply Forall_true|].
  intros m _. apply Forall_map_impl with (P := fun _ => True); [by apply Forall_true|].
  intros r _. apply Forall_map_impl with (P := fun _ => True); [by apply Forall_true|].
  intros v _. destruct (decide (1 < v)%nat); lia.
Qed.

Lemma Forall3_and {A : Type} (P Q : A -> Prop) (t : list (list (list A))) :
  Forall (Forall (Forall P)) t -> Forall (Forall (Forall Q)) t ->
  Forall (Forall (Forall (fun x => P x /\ Q x))) t.
Proof.
  intros HP HQ.
  induction HP as [|m t Hm _ IH]; [constructor|].
  constructor; [|apply IH; exact (Forall_inv_tail HQ)].
  pose proof (Forall_inv HQ) as HQm. clear IH HQ.
  induction Hm as [|r m Hr _ IH]; [constructor|].
  constructor; [|apply IH; exact (Forall_inv_tail HQm)].
  pose proof (Forall_inv HQm) as HQr. clear IH HQm.
  induction Hr as [|x r Hx _ IH]; [constructor|].
  constructor; [|apply IH; exact (Forall_inv_tail HQr)].
  split; [done | exact (Forall_inv HQr)].
Qed.

Lemma no_foreground_all_zero (lbl : labels) :
  count_ones (binarize lbl) = 0%nat ->
  Forall (Forall (Forall (fun v => v = 0%nat))) (binarize lbl).
Proof.
  intros Hc. unfold count_ones in Hc. apply filter_length_zero in Hc.
  apply (proj1 (Forall_concat_nested _ _)) in Hc.
  apply (proj1 (Forall_concat_nested _ _)) in Hc.
  pose proof (Forall3_and _ _ _ (binarize_le_1 lbl) Hc) as H.
  revert H. apply Forall_impl. intros m. apply Forall_impl. intros r.
  apply Forall_impl. intros v [? ?]. lia.
Qed.

Lemma labels_times_zero (gt : labels) (UG : maps) :
  Forall (Forall (Forall (fun v => v = 0%nat))) gt ->
  Forall (Forall (Forall (fun x => x = 0))) (labels_times gt UG).
Proof.
  intros H. unfold labels_times.
  apply Forall_zip_with_left with (P := Forall (Forall (fun v => v = 0%nat))); [done|].
  intros m u Hm.
  apply Forall_zip_with_left with (P := Forall (fun v => v = 0%nat)); [done|].
  intros r ur Hr.
  apply Forall_zip_with_left with (P := fun v => v = 0%nat); [done|].
  intros v x ->. change (Qc_of_nat 0) with 0. ring.
Qed.

End TensorFacts.

(** ** Zero foreground pixels (C6) *)

(** C6.  When the binarized label of a batch has no pixel equal to 1, the
    coverage ratio is the quotient 0/0, that is [NaN], no exception being
    raised; its comparison with 0.5 is false, and the mixed input is the
    unweighted sum [clean.detach() + aug]. *)
Theorem C6_zero_foreground (CFAT_img LFAT_img : images) (lbl : labels) (UG : maps) :
  count_ones (binarize lbl) = 0%nat ->
  coverage_ratio lbl UG = NaN
  /\ np_lt (coverage_ratio lbl UG) (1 / 2) = false
  /\ mixed_input CFAT_img LFAT_img lbl UG
     = images_zip Qcplus (detach CFAT_img) LFAT_img.
Proof.
  intros Hc.
  assert (Hr : coverage_ratio lbl UG = NaN).
  { unfold coverage_ratio. rewrite Hc.
    rewrite maps_sum_zero
      by (apply labels_times_zero; by apply no_foreground_all_zero).
    reflexivity. }
  unfold mixed_input. rewrite Hr. done.
Qed.

Lemma C6_zero_foreground_witness :
  count_ones (binarize lbl_background) = 0%nat
  /\ coverage_ratio lbl_background UG_demo = NaN
  /\ np_lt (coverage_ratio lbl_background UG_demo) (1 / 2) = false
  /\ mixed_input clean_demo aug_demo lbl_background UG_demo
     = images_zip Qcplus (detach clean_demo) aug_demo.
Proof.
  split; [reflexivity|].
  apply (C6_zero_foreground clean_demo aug_demo lbl_background UG_demo).
  reflexivity.
Defined.

(** ** Coverage ratio and mixed input (C2) *)

Section PointwiseFacts.
Context {A B C : Type}.

Lemma lookup_map (f : A -> B) (l : list A) (i : nat) :
  map f l !! i = f <$> l !! i.
Proof. revert i. induction l as [|x l IH]; intros [|i]; cbn; auto. Qed.

Lemma lookup_zip_with_Some (f : A -> B -> C) (l : list A) (k : list B)
    (i : nat) (x : A) (y : B) :
  l !! i = Some x -> k !! i = Some y -> zip_with f l k !! i = Some (f x y).
Proof. intros Hl Hk. rewrite lookup_zip_with, Hl. cbn. by rewrite Hk. Qed.

Lemma zip_with_ext_all (f g : A -> B -> C) (l : list A) (k : list B) :
  (forall x y, f x y = g x y) -> zip_with f l k = zip_with g l k.
Proof.
  intros Hfg. revert k. induction l as [|x l IH]; intros [|y k]; cbn; f_equal; auto.
Qed.

Lemma filter_map_length (P : B -> Prop) `{!forall y, Decision (P y)}
    (f : A -> B) (l : list A) :
  length (filter P (map f l)) = length (filter (fun x => P (f x)) l).
Proof.
  induction l as [|x l IH]; [done|]. cbn [map].
  destruct (decide (P (f x))) as [HP|HP].
  - rewrite filter_cons_True by done.
    rewrite (filter_cons_True (fun x => P (f x))) by done. cbn. by rewrite IH.
  - rewrite filter_cons_False by done.
    by rewrite (filter_cons_False (fun x => P (f x))) by done.
Qed.

End PointwiseFacts.

Lemma map_zip_with {A B C D : Type} (g : C -> D) (f : A -> B -> C)
    (l : list A) (k : list B) :
  map g (zip_with f l k) = zip_with (fun x y => g (f x y)) l k.
Proof. revert k. induction l as [|x l IH]; intros [|y k]; cbn; f_equal; auto. Qed.

Lemma zip_with_map_left {A B C D : Type} (f : B -> C -> D) (g : A -> B)
    (l : list A) (k : list C) :
  zip_with f (map g l) k = zip_with (fun x y => f (g x) y) l k.
Proof. revert k. induction l as [|x l IH]; intros [|y k]; cbn; f_equal; auto. Qed.

Lemma concat_map3 {A B : Type} (f : A -> B) (t : list (list (list A))) :
  concat (concat (map (map (map f)) t)) = map f (concat (concat t)).
Proof. by rewrite <- !concat_map. Qed.

Lemma at2_map {A B : Type} (f : A -> B) (t : list (list A)) (h w : nat) :
  at2 (map (map f) t) h w = f <$> at2 t h w.
Proof.
  unfold at2. rewrite lookup_map. destruct (t !! h); cbn; [|done].
  apply lookup_map.
Qed.

Lemma at3_map {A B : Type} (f : A -> B) (t : list (list (list A))) (n h w : nat) :
  at3 (map (map (map f)) t) n h w = f <$> at3 t n h w.
Proof.
  unfold at3. rewrite lookup_map. destruct (t !! n); cbn; [|done].
  apply at2_map.
Qed.

Lemma at2_zip {A B C : Type} (f : A -> B -> C) (a : list (list A))
    (b : list (list B)) (h w : nat) (x : A) (y : B) :
  at2 a h w = Some x -> at2 b h w = Some y ->
  at2 (zip_with (zip_with f) a b) h w = Some (f x y).
Proof.
  unfold at2. intros Ha Hb.
  destruct (a !! h) as [ra|] eqn:Hra; [|done].
  destruct (b !! h) as [rb|] eqn:Hrb; [|done].
  rewrite (lookup_zip_with_Some _ _ _ _ _ _ Hra Hrb).
  by apply lookup_zip_with_Some.
Qed.

Lemma at3_zip {A B C : Type} (f : A -> B -> C) (a : list (list (list A)))
    (b : list (list (list B))) (n h w : nat) (x : A) (y : B) :
  at3 a n h w = Some x -> at3 b n h w = Some y ->
  at3 (zip_with (zip_with (zip_with f)) a b) n h w = Some (f x y).
Proof.
  unfold at3. intros Ha Hb.
  destruct (a !! n) as [ma|] eqn:Hma; [|done].
  destruct (b !! n) as [mb|] eqn:Hmb; [|done].
  rewrite (lookup_zip_with_Some _ _ _ _ _ _ Hma Hmb).
  by apply at2_zip.
Qed.

Lemma at4_zip {A B C : Type} (f : A -> B -> C) (a : list (list (list (list A))))
    (b : list (list (list (list B)))) (n c h w : nat) (x : A) (y : B) :
  at4 a n c h w = Some x -> at4 b n c h w = Some y ->
  at4 (zip_with (zip_with (zip_with (zip_with f))) a b) n c h w = Some (f x y).
Proof.
  unfold at4. intros Ha Hb.
  destruct (a !! n) as [ma|] eqn:Hma; [|done].
  destruct (b !! n) as [mb|] eqn:Hmb; [|done].
  rewrite (lookup_zip_with_Some _ _ _ _ _ _ Hma Hmb).
  by apply at3_zip.
Qed.

Lemma at4_zip_broadcast {A B C : Type} (f : A -> B -> C)
    (a : list (list (list (list A)))) (b : list (list (list B)))
    (n c h w : nat) (x : A) (y : B) :
  at4 a n c h w = Some x -> at3 b n h w = Some y ->
  at4 (zip_with (fun chans m => map (fun ch => zip_with (zip_with f) ch m) chans)
                a b) n c h w = Some (f x y).
Proof.
  unfold at4, at3. intros Ha Hb.
  destruct (a !! n) as [chans|] eqn:Hch; [|done].
  destruct (b !! n) as [m|] eqn:Hm; [|done].
  rewrite (lookup_zip_with_Some _ _ _ _ _ _ Hch Hm).
  rewrite lookup_map.
  destruct (chans !! c) as [ch|] eqn:Hc; [|done]. cbn.
  by apply at2_zip.
Qed.

Lemma at4_images_zip (f : Qc -> Qc -> Qc) (X Y : images) (n c h w : nat) (x y : Qc) :
  at4 X n c h w = Some x -> at4 Y n c h w = Some y ->
  at4 (images_zip f X Y) n c h w = Some (f x y).
Proof. apply at4_zip. Qed.

Lemma at4_images_zip_bc (f : Qc -> Qc -> Qc) (X : images) (U : maps)
    (n c h w : nat) (x u : Qc) :
  at4 X n c h w = Some x -> at3 U n h w = Some u ->
  at4 (images_zip_bc f X U) n c h w = Some (f x u).
Proof. apply at4_zip_broadcast. Qed.

Lemma coverage_ratio_spec (lbl : labels) (UG : maps) :
  coverage_ratio lbl UG = spec_coverage_ratio lbl UG.
Proof.
  unfold coverage_ratio, spec_coverage_ratio. f_equal; [f_equal|f_equal].
  - unfold maps_sum, spec_uncer_sum, labels_times, binarize.
    rewrite Qc_sum_concat, concat_map, Qc_sum_concat, map_map.
    rewrite map_zip_with, zip_with_map_left. f_equal.
    apply zip_with_ext_all. intros lm um.
    rewrite map_zip_with, zip_with_map_left. f_equal.
    apply zip_with_ext_all. intros lr ur.
    rewrite zip_with_map_left. reflexivity.
  - unfold count_ones, spec_fg_count, binarize.
    rewrite concat_map3. apply filter_map_length.
Qed.

(** C2.  In an iteration of the mix-up loop the label is binarized by
    sending every value above 1 to 1; the coverage ratio is
    [sum(label_fg * UG) / count(label_fg == 1)]; and every entry of the
    mixed input is [clean * UG + aug * (1 - UG)], [UG] being broadcast over
    the channels, exactly when the ratio is below 0.5, and [clean + aug]
    otherwise. *)
Theorem C2_coverage_and_mix (CFAT_img LFAT_img : images) (lbl : labels) (UG : maps) :
  (forall n h w v, at3 lbl n h w = Some v ->
     at3 (binarize lbl) n h w = Some (if decide (1 < v)%nat then 1%nat else v))
  /\ coverage_ratio lbl UG = spec_coverage_ratio lbl UG
  /\ (forall n c h w x a u,
        at4 CFAT_img n c h w = Some x -> at4 LFAT_img n c h w = Some a ->
        at3 UG n h w = Some u ->
        at4 (mixed_input CFAT_img LFAT_img lbl UG) n c h w
        = Some (if np_lt (coverage_ratio lbl UG) (1 / 2)
                then x * u + a * (1 - u) else x + a)).
Proof.
  split; [|split].
  - intros n h w v Hv. unfold binarize. by rewrite at3_map, Hv.
  - apply coverage_ratio_spec.
  - intros n c h w x a u Hx Ha Hu. unfold mixed_input, detach.
    destruct (np_lt (coverage_ratio lbl UG) (1 / 2)).
    + apply (at4_images_zip Qcplus).
      * by apply (at4_images_zip_bc Qcmult).
      * apply (at4_images_zip_bc Qcmult); [done|].
        unfold maps_map. by rewrite at3_map, Hu.
    + by apply (at4_images_zip Qcplus).
Qed.

Lemma C2_coverage_and_mix_witness :
  at4 clean_demo 0 0 0 1 = Some 0 /\ at4 aug_demo 0 0 0 1 = Some 1
  /\ at3 UG_demo 0 0 1 = Some 1
  /\ at4 (mixed_input clean_demo aug_demo lbl_demo UG_demo) 0 0 0 1
     = Some (if np_lt (coverage_ratio lbl_demo UG_demo) (1 / 2)
             then 0 * 1 + 1 * (1 - 1) else 0 + 1).
Proof.
  split; [reflexivity|]. split; [reflexivity|]. split; [reflexivity|].
  apply (C2_coverage_and_mix clean_demo aug_demo lbl_demo UG_demo); reflexivity.
Defined.


(** ** Warm-up (C5) *)

Section WarmUp.
Variables net logits : Type.
Variable forward : net -> images -> logits.
Variable get_loss : logits -> labels -> dict Qc.
Variable weight_dict : gmap string Qc.
Variable update : net -> list Qc -> list (images * labels) -> net.
Variable learning_rate : Qc.
Variable W : Z.
Variable optimizer : list param_group.

Hypothesis W_pos : (1 <= W)%Z.
Hypothesis optimizer_nonempty : optimizer <> [].
Hypothesis losses_defined :
  forall lg lbl, exists q,
    weighted_losses weight_dict (get_loss lg lbl) = Ok (Scalar q).

Local Abbreviation body :=
  (warm_up_body forward get_loss weight_dict update learning_rate W).
Local Abbreviation row := (spec_warmup_row W learning_rate optimizer).

Local Abbreviation rows_from := (spec_warmup_rows W learning_rate optimizer).
Local Abbreviation scales_kept := (@lr_scales_kept net optimizer).

Lemma rows_from_S (c : Z) (n : nat) :
  rows_from c (S n) = row (c + 1)%Z :: rows_from (c + 1) n.
Proof.
  unfold spec_warmup_rows. cbn [seq map]. f_equal; [f_equal; lia|].
  rewrite <- seq_shift, map_map. apply map_ext. intros k. f_equal. lia.
Qed.

Lemma set_warmup_lr_ok (c : Z) (gs : list param_group) :
  set_warmup_lr c W learning_rate gs
  = Ok (map (fun g => ParamGroup (spec_warmup_lr c W learning_rate (lr_scale g))
                                 (lr_scale g)) gs).
Proof.
  unfold set_warmup_lr. apply for_each_ok. intros g _.
  unfold py_truediv. rewrite decide_False by lia. reflexivity.
Qed.

Lemma steps_of_app (t1 t2 : list event) :
  steps_of (t1 ++ t2) = steps_of t1 ++ steps_of t2.
Proof. unfold steps_of. apply omap_app. Qed.

Lemma new_lrs (c : Z) (gs : list param_group) :
  map lr_scale gs = map lr_scale optimizer ->
  map lr (map (fun g => ParamGroup (spec_warmup_lr c W learning_rate (lr_scale g))
                                   (lr_scale g)) gs)
  = row c.
Proof.
  intros Hs. unfold spec_warmup_row. rewrite map_map. cbn [lr].
  rewrite <- (map_map lr_scale (fun s => spec_warmup_lr c W learning_rate s)).
  rewrite Hs. by rewrite map_map.
Qed.

Lemma warm_up_body_step (st : train_state net) (samples : batch) :
  scales_kept st ->
  exists st',
    body st samples
    = Ok (if decide (W <= cur_iteration st + 1)%Z
          then Return (cur_iteration st + 1)%Z else Next, st')
    /\ cur_iteration st' = (cur_iteration st + 1)%Z
    /\ scales_kept st'
    /\ steps_of (trace st')
       = steps_of (trace st) ++ [row (cur_iteration st + 1)%Z].
Proof.
  intros Hs. unfold warm_up_body.
  rewrite set_warmup_lr_ok. cbn.
  destruct (losses_defined (forward (model st) (b_images samples))
                           (b_labels samples)) as [q ->]. cbn.
  pose proof (new_lrs (cur_iteration st + 1) (param_groups st) Hs) as Hrow.
  assert (Hsc : map lr_scale (map (fun g => ParamGroup
                  (spec_warmup_lr (cur_iteration st + 1) W learning_rate (lr_scale g))
                  (lr_scale g)) (param_groups st)) = map lr_scale optimizer).
  { rewrite map_map. cbn. exact Hs. }
  destruct (map _ (param_groups st)) as [|g gs] eqn:Hgs.
  { exfalso. destruct optimizer; [by apply optimizer_nonempty | done]. }
  cbn.
  destruct (decide (W <= cur_iteration st + 1)%Z);
    (eexists; split; [reflexivity|]; cbn;
     split; [done|]; split; [exact Hsc|];
     rewrite <- !app_assoc, steps_of_app; cbn; by rewrite <- Hrow).
Qed.

Lemma warm_up_for_loop (bs : list batch) (st : train_state net) :
  scales_kept st -> (cur_iteration st < W)%Z ->
  exists st',
    for_loop body st bs
    = Ok (if decide (W <= cur_iteration st + Z.of_nat (length bs))%Z
          then Return W else Next, st')
    /\ cur_iteration st' = Z.min W (cur_iteration st + Z.of_nat (length bs))
    /\ scales_kept st'
    /\ steps_of (trace st')
       = steps_of (trace st)
         ++ rows_from (cur_iteration st)
                      (Z.to_nat (Z.min W (cur_iteration st + Z.of_nat (length bs))
                                 - cur_iteration st)).
Proof.
  revert st. induction bs as [|b bs IH]; intros st Hs Hlt.
  - exists st. cbn [for_loop length]. rewrite decide_False by lia.
    split; [done|]. split; [lia|]. split; [done|].
    replace (Z.to_nat _) with 0%nat by lia. cbn. by rewrite app_nil_r.
  - destruct (warm_up_body_step st b Hs) as (st1 & Hb & Hc & Hs1 & Ht).
    cbn [for_loop]. rewrite Hb. cbn [mbind result_bind fst snd].
    destruct (decide (W <= cur_iteration st + 1)%Z) as [Hret|Hgo].
    + exists st1. rewrite decide_True by (cbn [length]; lia).
      assert (cur_iteration st + 1 = W)%Z as HW by lia. rewrite HW.
      split; [done|]. split; [cbn [length]; lia|]. split; [done|].
      rewrite Ht. f_equal.
      replace (Z.to_nat _) with 1%nat by (cbn [length]; lia).
      by rewrite rows_from_S.
    + destruct (IH st1 Hs1) as (st' & Hloop & Hc' & Hs' & Ht'); [lia|].
      exists st'. rewrite Hloop, Hc. split.
      { do 2 f_equal. apply decide_ext. cbn [length]. lia. }
      split; [rewrite Hc', Hc; cbn [length]; lia|]. split; [done|].
      rewrite Ht', Ht, Hc, <- app_assoc. f_equal.
      replace (Z.to_nat (Z.min W (cur_iteration st + Z.of_nat (length (b :: bs)))
                         - cur_iteration st))
        with (S (Z.to_nat (Z.min W (cur_iteration st + 1 + Z.of_nat (length bs))
                           - (cur_iteration st + 1))))
        by (cbn [length]; lia).
      by rewrite rows_from_S.
Qed.

Lemma rows_from_app (c : Z) (a b : nat) :
  rows_from c (a + b) = rows_from c a ++ rows_from (c + Z.of_nat a) b.
Proof.
  revert c. induction a as [|a IH]; intros c.
  - cbn [Nat.add]. unfold spec_warmup_rows at 2. cbn [seq map app].
    f_equal. lia.
  - cbn [Nat.add]. rewrite !rows_from_S, IH. cbn [app]. do 3 f_equal. lia.
Qed.

Lemma warm_up_passes_mono (data_loader : list batch) (fuel fuel' : nat)
    (st : train_state net) (r : result (Z * train_state net)) :
  warm_up_passes forward get_loss weight_dict update fuel learning_rate W
                 data_loader st = Some r ->
  (fuel <= fuel')%nat ->
  warm_up_passes forward get_loss weight_dict update fuel' learning_rate W
                 data_loader st = Some r.
Proof.
  revert fuel' st. induction fuel as [|fuel IH]; intros fuel' st; [done|].
  intros Hrun Hle. destruct fuel' as [|fuel']; [lia|].
  cbn [warm_up_passes] in *.
  destruct (for_loop body st data_loader) as [[[| |v] st1]|e]; try done.
  - apply IH; [done | lia].
  - apply IH; [done | lia].
Qed.

Lemma warm_up_passes_return (data_loader : list batch) :
  data_loader <> [] ->
  forall (n : nat) (st : train_state net),
    (Z.to_nat (W - cur_iteration st) <= n)%nat ->
    scales_kept st -> (cur_iteration st < W)%Z ->
    exists fuel st',
      warm_up_passes forward get_loss weight_dict update fuel learning_rate W
                     data_loader st = Some (Ok (W, st'))
      /\ cur_iteration st' = W
      /\ steps_of (trace st')
         = steps_of (trace st)
           ++ rows_from (cur_iteration st) (Z.to_nat (W - cur_iteration st)).
Proof.
  intros Hne. induction n as [|n IH]; intros st Hn Hs Hlt; [lia|].
  destruct (warm_up_for_loop data_loader st Hs Hlt) as (st1 & Hloop & Hc & Hs1 & Ht).
  assert (0 < length data_loader)%nat as Hlen
    by (destruct data_loader; [done | cbn; lia]).
  destruct (decide (W <= cur_iteration st + Z.of_nat (length data_loader))%Z)
    as [Hret|Hgo].
  - exists 1%nat, st1. cbn [warm_up_passes]. rewrite Hloop.
    split; [done|]. split; [lia|]. rewrite Ht. do 3 f_equal. lia.
  - destruct (IH (emit EvSynchronize st1)) as (fuel & st' & Hrun & Hc' & Ht').
    + cbn [emit cur_iteration]. lia.
    + exact Hs1.
    + cbn [emit cur_iteration]. lia.
    + exists (S fuel), st'. cbn [warm_up_passes]. rewrite Hloop.
      split; [done|]. split; [done|]. rewrite Ht'.
      cbn [emit cur_iteration trace]. rewrite steps_of_app, Ht.
      cbn [steps_of omap]. rewrite app_nil_r, <- app_assoc. f_equal.
      rewrite Hc.
      replace (Z.to_nat (W - cur_iteration st))
        with (length data_loader
              + Z.to_nat (W - (cur_iteration st + Z.of_nat (length data_loader))))%nat
        by lia.
      rewrite rows_from_app. f_equal.
      * f_equal. lia.
      * f_equal; [lia|]. f_equal. lia.
Qed.

(** C5.  With a warm-up budget [W >= 1], a non-empty data source and an
    optimizer with at least one group, [train_warm_up] returns, after as
    many passes over the data source as it takes; the value returned is
    exactly [W]; and the [i]-th optimizer step, for [i = 1 .. W], is taken
    with every group's learning rate set to
    [(i / W) * learning_rate * lr_scale]. *)
Theorem C5_warm_up_schedule (model0 : net) (data_loader : list batch) :
  data_loader <> [] ->
  exists fuel st,
    (forall fuel', (fuel <= fuel')%nat ->
       train_warm_up forward get_loss weight_dict update fuel' model0
                     data_loader optimizer learning_rate W
       = Some (Ok (W, st)))
    /\ cur_iteration st = W
    /\ steps_of (trace st)
       = map (fun i => row (Z.of_nat i)) (seq 1 (Z.to_nat W)).
Proof.
  intros Hne.
  destruct (warm_up_passes_return data_loader Hne (Z.to_nat W)
              (TrainState 0 model0 optimizer [] []))
    as (fuel & st & Hrun & Hc & Ht).
  - cbn [cur_iteration]. lia.
  - reflexivity.
  - cbn [cur_iteration]. lia.
  - exists fuel, st. split; [|split; [done|]].
    + intros fuel' Hle. unfold train_warm_up.
      by apply warm_up_passes_mono with fuel.
    + rewrite Ht. cbn [trace cur_iteration steps_of omap app].
      unfold spec_warmup_rows. rewrite Z.sub_0_r, <- seq_shift, map_map.
      apply map_ext. intros k. f_equal. lia.
Qed.

End WarmUp.

Lemma C5_warm_up_schedule_witness :
  (1 <= 3)%Z /\ optimizer_demo <> [] /\ [batch15; batch15] <> []
  /\ exists fuel st,
       (forall fuel', (fuel <= fuel')%nat ->
          train_warm_up forward_demo get_loss_demo W_demo update_demo fuel' tt
                        [batch15; batch15] optimizer_demo half 3
          = Some (Ok (3%Z, st)))
       /\ cur_iteration st = 3%Z
       /\ steps_of (trace st)
          = map (fun i => spec_warmup_row 3 half optimizer_demo (Z.of_nat i))
                (seq 1 (Z.to_nat 3)).
Proof.
  split; [lia|]. split; [discriminate|]. split; [discriminate|].
  apply (C5_warm_up_schedule unit images forward_demo get_loss_demo W_demo
           update_demo half 3 optimizer_demo).
  - lia.
  - discriminate.
  - intros lg lbl. eexists. vm_compute. reflexivity.
  - discriminate.
Defined.

(** ** The mix-up loop: budget check, snapshot, return value (C4, C10) *)

Section MixUpLoop.
Variables net logits : Type.
Variable forward : net -> images -> logits.
Variable get_loss : logits -> labels -> dict Qc.
Variable weight_dict : gmap string Qc.
Variable entropy : logits -> maps.
Variable update : net -> list Qc -> list (images * labels) -> net.
Variable max_iteration : Z.
Variable visdir : option string.

Local Abbreviation body :=
  (ugm_body forward get_loss weight_dict entropy update max_iteration visdir).

Lemma ugm_body_inv (s : train_state net * option (dict Qc)) (samples : batch)
    (r : flow * (train_state net * option (dict Qc))) :
  body s samples = Ok r ->
  exists LFAT_img q1 q2 q3 rec g gs m' pend',
    b_aug_images samples = Some LFAT_img
    /\ param_groups s.1 = g :: gs
    /\ r = ugm_outcome max_iteration visdir (cur_iteration s.1) m' (g :: gs) pend'
             (trace s.1) q1 q2 q3 rec
             (get_loss (forward (model s.1) LFAT_img) (b_labels samples)).
Proof.
  unfold ugm_body. intros H.
  destruct (b_aug_images samples) as [LFAT_img|]; [|done]. cbn in H.
  destruct (weighted_losses_filtered _ _) as [[|q1]|] in H; try done. cbn in H.
  destruct (weighted_losses_filtered _ _) as [[|q2]|] in H; try done. cbn in H.
  destruct (fuse_UG _ _) as [UG|] in H; [|done]. cbn in H.
  destruct (weighted_losses_filtered _ _) as [[|q3]|] in H; try done. cbn in H.
  destruct (aggregate_losses _ _ _ _) as [rec|] in H; [|done]. cbn in H.
  unfold log_lr in H. cbn in H.
  destruct (param_groups s.1) as [|g gs] eqn:Hg; [done|]. cbn in H.
  unfold emit, optimizer_step in H. cbn in H.
  rewrite <- !app_assoc in H. cbn in H.
  exists LFAT_img, q1, q2, q3, rec, g, gs.
  unfold ugm_outcome, budget_reached, snapshot_events, ugm_events. cbn.
  destruct (decide _) in H |- *.
  - injection H as <-. eexists _, _. split; [done|]. split; [done|].
    reflexivity.
  - injection H as <-. eexists _, _. split; [done|]. split; [done|].
    destruct (decide _); cbn; rewrite <- ?app_assoc; reflexivity.
Qed.

(** C4.  In an iteration of the mix-up loop that raises no exception,
    entered with counter [it]: when [it] has reached a positive
    [max_iteration], the loop exits right after the optimizer step and the
    metric updates of that batch, with no snapshot and with the counter
    still [it], and no further batch is processed; otherwise the snapshot,
    when it is due, is the last effect of the iteration, it is labelled
    with [it], and the counter is then [it + 1]. *)
Theorem C4_budget_before_snapshot (s : train_state net * option (dict Qc))
    (samples : batch) (r : flow * (train_state net * option (dict Qc))) :
  body s samples = Ok r ->
  exists q1 q2 q3 lrs rec lr0,
    (budget_reached max_iteration (cur_iteration s.1) ->
       r.1 = Break
       /\ cur_iteration r.2.1 = cur_iteration s.1
       /\ trace r.2.1
          = trace s.1 ++ [EvZeroGrad; EvBackward true q1; EvBackward true q2;
                          EvBackward false q3; EvStep lrs; EvMetrics rec;
                          EvMetricLr lr0]
       /\ forall rest, for_loop body s (samples :: rest) = Ok r)
    /\ (~ budget_reached max_iteration (cur_iteration s.1) ->
       r.1 = Next
       /\ cur_iteration r.2.1 = (cur_iteration s.1 + 1)%Z
       /\ trace r.2.1
          = (trace s.1 ++ [EvZeroGrad; EvBackward true q1; EvBackward true q2;
                           EvBackward false q3; EvStep lrs; EvMetrics rec;
                           EvMetricLr lr0])
            ++ (if decide (is_Some visdir
                           /\ (cur_iteration s.1 mod visual_freq = 0)%Z)
                then [EvVisDump (cur_iteration s.1) visual_keys] else [])).
Proof.
  intros Hb.
  destruct (ugm_body_inv s samples r Hb)
    as (LFAT_img & q1 & q2 & q3 & rec & g & gs & m' & pend' & _ & _ & Hr).
  exists q1, q2, q3, (map lr (g :: gs)), rec, (lr g).
  unfold ugm_outcome in Hr.
  destruct (decide (budget_reached max_iteration (cur_iteration s.1)))
    as [Hreached|Hnot]; subst r; split; intros Hcase; try contradiction.
  - split; [done|]. split; [done|]. split; [done|].
    intros rest. cbn [for_loop]. rewrite Hb. reflexivity.
  - done.
Qed.

Lemma for_loop_last {S : Type} (f : S -> batch -> result (flow * S))
    (bs : list batch) (s : S) (r : flow * S) :
  bs <> [] -> for_loop f s bs = Ok r ->
  exists done last rest s_last,
    bs = done ++ last :: rest
    /\ for_loop f s done = Ok (Next, s_last)
    /\ f s_last last = Ok r
    /\ (rest = [] \/ r.1 <> Next).
Proof.
  revert s. induction bs as [|b bs IH]; intros s Hne Hrun; [done|].
  cbn [for_loop] in Hrun.
  destruct (f s b) as [[fl s1]|e] eqn:Hb; [|done]. cbn in Hrun.
  destruct fl.
  - destruct bs as [|b' bs'].
    + cbn in Hrun. injection Hrun as <-.
      exists [], b, [], s. split; [done|]. split; [done|]. split; [done|]. by left.
    + destruct (IH s1 ltac:(done) Hrun)
        as (done & last & rest & s_last & Hbs & Hdone & Hlast & Hrest).
      exists (b :: done), last, rest, s_last. rewrite Hbs.
      split; [done|]. split; [|done]. cbn [for_loop]. rewrite Hb. exact Hdone.
  - injection Hrun as <-.
    exists [], b, bs, s. split; [done|]. split; [done|]. split; [done|]. by right.
  - injection Hrun as <-.
    exists [], b, bs, s. split; [done|]. split; [done|]. split; [done|]. by right.
Qed.

(** C10.  The mix-up runner returns the pair of the iteration counter and
    the loss dictionary of the augmented branch of the last batch it
    processed (the last of the data source, or the one at which the loop
    broke); for an empty data source the name [aug_loss_dict] is never
    bound and the call ends in an [UnboundLocalError]. *)
Theorem C10_returns_counter_and_aug_losses (model0 : net)
    (optimizer : list param_group) (cur_iteration0 : Z) :
  train_one_epoch_FIESTA forward get_loss weight_dict entropy update model0 []
                         optimizer cur_iteration0 max_iteration visdir
  = Raise (UnboundLocalError "aug_loss_dict")
  /\ forall data_loader r,
       data_loader <> [] ->
       for_loop body (TrainState cur_iteration0 model0 optimizer [] [], None)
                data_loader = Ok r ->
       exists done last rest s_last LFAT_img,
         data_loader = done ++ last :: rest
         /\ for_loop body (TrainState cur_iteration0 model0 optimizer [] [], None)
                     done = Ok (Next, s_last)
         /\ (rest = [] \/ r.1 = Break)
         /\ b_aug_images last = Some LFAT_img
         /\ train_one_epoch_FIESTA forward get_loss weight_dict entropy update
               model0 data_loader optimizer cur_iteration0 max_iteration visdir
            = Ok (cur_iteration r.2.1,
                  get_loss (forward (model s_last.1) LFAT_img) (b_labels last),
                  emit EvSynchronize r.2.1).
Proof.
  split; [reflexivity|].
  intros data_loader r Hne Hrun.
  destruct (for_loop_last _ _ _ _ Hne Hrun)
    as (done & last & rest & s_last & Hbs & Hdone & Hlast & Hrest).
  destruct (ugm_body_inv s_last last r Hlast)
    as (LFAT_img & q1 & q2 & q3 & rec & g & gs & m' & pend' & Haug & _ & Hr).
  exists done, last, rest, s_last, LFAT_img.
  split; [done|]. split; [done|]. split.
  { destruct Hrest as [?|Hfl]; [by left|]. right.
    rewrite Hr in Hfl |- *. unfold ugm_outcome in *.
    by destruct (decide _). }
  split; [done|].
  unfold train_one_epoch_FIESTA. rewrite Hrun. cbn [mbind result_bind].
  rewrite Hr. unfold ugm_outcome. by destruct (decide _).
Qed.

End MixUpLoop.

Lemma C4_budget_before_snapshot_witness :
  exists r,
    ugm_body forward_demo get_loss_demo W_demo entropy_demo update_demo 200
             (Some "vis"%string) ugm_start batch15 = Ok r
    /\ r.1 = Break /\ cur_iteration r.2.1 = 200%Z
    /\ Forall (fun e => forall it ks, e <> EvVisDump it ks) (trace r.2.1).
Proof.
  assert (exists r,
    ugm_body forward_demo get_loss_demo W_demo entropy_demo update_demo 200
             (Some "vis"%string) ugm_start batch15 = Ok r) as [r Hr]
    by (vm_compute; eexists; reflexivity).
  exists r. split; [exact Hr|].
  destruct (C4_budget_before_snapshot unit images forward_demo get_loss_demo
              W_demo entropy_demo update_demo 200 (Some "vis"%string)
              ugm_start batch15 r Hr)
    as (q1 & q2 & q3 & lrs & rec & lr0 & Hexit & _).
  destruct Hexit as (Hfl & Hit & Htr & _); [unfold budget_reached; cbn; lia|].
  split; [exact Hfl|]. split; [exact Hit|].
  rewrite Htr. cbn. repeat constructor; discriminate.
Defined.

Lemma C10_returns_counter_and_aug_losses_witness :
  exists r,
    for_loop (ugm_body forward_demo get_loss_demo W_demo entropy_demo
                       update_demo 201 None)
             (TrainState 200 tt optimizer_demo [] [], None) [batch15; batch15]
    = Ok r
    /\ train_one_epoch_FIESTA forward_demo get_loss_demo W_demo entropy_demo
         update_demo tt [batch15; batch15] optimizer_demo 200 201 None
       = Ok (201%Z, get_loss_demo aug15 lbl15, emit EvSynchronize r.2.1).
Proof.
  assert (exists r,
    for_loop (ugm_body forward_demo get_loss_demo W_demo entropy_demo
                       update_demo 201 None)
             (TrainState 200 tt optimizer_demo [] [], None) [batch15; batch15]
    = Ok r /\ cur_iteration r.2.1 = 201%Z) as (r & Hr & Hc)
    by (vm_compute; eexists; split; reflexivity).
  exists r. split; [exact Hr|].
  destruct (C10_returns_counter_and_aug_losses unit images forward_demo
              get_loss_demo W_demo entropy_demo update_demo 201 None tt
              optimizer_demo 200) as [_ Hpair].
  destruct (Hpair [batch15; batch15] r ltac:(discriminate) Hr)
    as (done & last & rest & s_last & LFAT_img & _ & _ & _ & _ & Hret).
  rewrite Hret, Hc. reflexivity.
Defined.

(** ** The evaluator (C9) *)

Section NanMean.

Lemma np_sum_from (acc : Qc) (xs : list npfloat) :
  Forall finite_or_nan xs ->
  foldl np_add (Fin acc) (map (fun x => if isnan x then Fin 0 else x) xs)
  = Fin (acc + Qc_sum (defined_entries xs)).
Proof.
  intros Hxs. revert acc. induction Hxs as [|x xs Hx _ IH]; intros acc.
  - cbn. f_equal. change (Qc_sum []) with 0. ring.
  - destruct x as [q| | |]; try done; cbn [map isnan foldl np_add].
    + rewrite IH. f_equal.
      change (defined_entries (Fin q :: xs)) with (q :: defined_entries xs).
      change (Qc_sum (q :: ?l)) with (q + Qc_sum l). ring.
    + rewrite IH. f_equal.
      change (defined_entries (NaN :: xs)) with (defined_entries xs). ring.
Qed.

Lemma defined_entries_length (xs : list npfloat) :
  Forall finite_or_nan xs ->
  length (filter (fun x => isnan x = false) xs) = length (defined_entries xs).
Proof.
  induction 1 as [|x xs Hx _ IH]; [done|].
  destruct x as [q| | |]; try done.
  rewrite filter_cons_True by done. cbn. by rewrite IH.
Qed.

(** [np.nanmean] is the mean of the defined entries. *)
Lemma np_nanmean_defined (col : list npfloat) :
  Forall finite_or_nan col -> np_nanmean col = spec_mean_defined col.
Proof.
  intros Hcol. unfold np_nanmean, np_sum, spec_mean_defined.
  rewrite np_sum_from, defined_entries_length by done.
  destruct (defined_entries col) as [|d ds] eqn:Hd.
  - cbn. reflexivity.
  - unfold np_div_int. rewrite decide_False by (cbn [length]; lia).
    f_equal. unfold Qc_of_nat. f_equal. ring.
Qed.

End NanMean.

Section DiceFacts.

(** The mask of class [c] in [F.one_hot]'s output. *)
Local Abbreviation mask c xs :=
  (map (fun v : nat => if decide (v = c) then 1%nat else 0%nat) xs).

Lemma one_hot_ok (num_c : nat) (xs : list nat) :
  Forall (fun v => v < num_c)%nat xs ->
  one_hot num_c xs = Ok (map (fun c => mask c xs) (seq 0 num_c)).
Proof. intros H. unfold one_hot. by rewrite bool_decide_eq_true_2. Qed.

Lemma sum_mask (c : nat) (xs : list nat) : sum_list (mask c xs) = count_eq c xs.
Proof.
  unfold count_eq. induction xs as [|x xs IH]; [done|].
  cbn [map sum_list sum_list_with]. destruct (decide (x = c)) as [Hx|Hx].
  - rewrite filter_cons_True by done. cbn. by rewrite <- IH.
  - rewrite filter_cons_False by done. by rewrite <- IH.
Qed.

Lemma sum_intersection (c : nat) (p g : list nat) :
  sum_list (zip_with Nat.mul (mask c g) (mask c p)) = count_both c p g.
Proof.
  unfold count_both. revert g. induction p as [|x p IH]; intros [|y g]; try done.
  cbn [map zip_with zip sum_list sum_list_with].
  change (sum_list_with id ?l) with (sum_list l).
  rewrite IH. change (zip_with pair p g) with (zip p g).
  destruct (decide (x = c)) as [Hx|Hx], (decide (y = c)) as [Hy|Hy].
  - rewrite filter_cons_True by done. cbn. lia.
  - rewrite filter_cons_False by (cbn; tauto). cbn. lia.
  - rewrite filter_cons_False by (cbn; tauto). cbn. lia.
  - rewrite filter_cons_False by (cbn; tauto). cbn. lia.
Qed.

Lemma dice_channel_spec (c : nat) (p g : list nat) :
  dice_channel (mask c p) (mask c g) = spec_dice c p g.
Proof.
  unfold dice_channel, spec_dice.
  rewrite sum_intersection, !sum_mask.
  destruct (decide (count_eq c g = 0%nat)) as [Hz|Hz].
  - by rewrite bool_decide_eq_false_2 by lia.
  - rewrite bool_decide_eq_true_2 by lia.
    by rewrite (Nat.add_comm (count_eq c g)).
Qed.

Lemma zip_with_map_same {A B C D : Type} (f : B -> C -> D) (g : A -> B)
    (h : A -> C) (l : list A) :
  zip_with f (map g l) (map h l) = map (fun x => f (g x) (h x)) l.
Proof. induction l; cbn; f_equal; auto. Qed.

Lemma drop_1_map_seq {A : Type} (f : nat -> A) (n : nat) :
  drop 1 (map f (seq 0 n)) = map f (seq 1 (n - 1)).
Proof. destruct n; [done|]. cbn. by rewrite Nat.sub_0_r. Qed.

Lemma compute_meandice_spec (num_c : nat) (p g : list nat) :
  compute_meandice (map (fun c => mask c p) (seq 0 num_c))
                   (map (fun c => mask c g) (seq 0 num_c)) false
  = map (fun c => spec_dice c p g) (seq 1 (num_c - 1)).
Proof.
  unfold compute_meandice. rewrite !drop_1_map_seq, zip_with_map_same.
  apply map_ext. intros c. apply dice_channel_spec.
Qed.

Lemma batch_dice_spec (num_c : nat) (pred lbl : labels) :
  classes_below num_c pred -> classes_below num_c lbl ->
  batch_dice num_c pred lbl = Ok (zip_with (spec_dice_row num_c) pred lbl).
Proof.
  intros Hp Hl. unfold batch_dice.
  rewrite (for_each_ok _ (fun p => map (fun c => mask c (concat p)) (seq 0 num_c))
                      pred); last first.
  { intros p Hin. apply one_hot_ok. apply Forall_concat_nested.
    exact (proj1 (list.Forall_forall _ _) Hp p Hin). }
  cbn [mbind result_bind].
  rewrite (for_each_ok _ (fun g => map (fun c => mask c (concat g)) (seq 0 num_c))
                      lbl); last first.
  { intros g Hin. apply one_hot_ok. apply Forall_concat_nested.
    exact (proj1 (list.Forall_forall _ _) Hl g Hin). }
  cbn [mbind result_bind]. f_equal.
  rewrite zip_with_map_left.
  clear Hp Hl. revert lbl. induction pred as [|p pred IH]; intros [|g lbl]; try done.
  cbn [map zip_with]. f_equal; [apply compute_meandice_spec | apply IH].
Qed.

Lemma spec_dice_finite_or_nan (c : nat) (p g : list nat) :
  finite_or_nan (spec_dice c p g).
Proof. unfold spec_dice. by destruct (decide _). Qed.

Lemma spec_dice_row_shape (num_c : nat) (pred gt : list (list nat)) :
  length (spec_dice_row num_c pred gt) = (num_c - 1)%nat
  /\ Forall finite_or_nan (spec_dice_row num_c pred gt).
Proof.
  unfold spec_dice_row. split; [by rewrite length_map, length_seq|].
  apply Forall_map_impl with (P := fun _ => True); [by apply Forall_true|].
  intros c _. apply spec_dice_finite_or_nan.
Qed.

End DiceFacts.

Section Evaluator.
Variable logits : Type.
Variable model : images -> logits.
Variable argmax : logits -> labels.
Variable size1 : logits -> nat.
Variable num_classes : nat.

Hypothesis size1_model : forall x, size1 (model x) = num_classes.
Hypothesis argmax_range : forall x, classes_below num_classes (argmax (model x)).

Local Abbreviation rows_of b :=
  (zip_with (spec_dice_row num_classes) (argmax (model (b_images b))) (b_labels b)).

Lemma score_rows_shape (data_loader : list batch) :
  Forall (fun r => length r = (num_classes - 1)%nat /\ Forall finite_or_nan r)
         (spec_score_rows model argmax num_classes data_loader).
Proof.
  unfold spec_score_rows. apply Forall_concat_nested.
  apply Forall_map_impl with (P := fun _ => True); [by apply Forall_true|].
  intros b _. apply Forall_zip_with_left with (P := fun _ => True);
    [by apply Forall_true|].
  intros p g _. apply spec_dice_row_shape.
Qed.

Lemma column_finite_or_nan (j : nat) (rows : list (list npfloat)) :
  Forall (Forall finite_or_nan) rows -> Forall finite_or_nan (column j rows).
Proof.
  intros H. unfold column. apply (Forall_map_impl _ _ _ _ H).
  intros r Hr. destruct (r !! j) as [x|] eqn:Hx; cbn; [|done].
  exact (proj1 (list.Forall_forall _ _) Hr x (list_elem_of_lookup_2 _ _ _ Hx)).
Qed.

(** C9.  Over a non-empty loader of well-formed batches, [evaluate] raises
    no exception and its score for each class is the mean of the defined
    entries of that class's column in the concatenated per-sample Dice
    rows: the rows are those of [compute_meandice], in which a class absent
    from a sample's ground truth is [NaN], and a [NaN] entry is left out of
    the mean of its own column and plays no part in any other column. *)
Theorem C9_nan_aware_mean (data_loader : list batch) :
  data_loader <> [] ->
  Forall (eval_batch_ok model argmax num_classes) data_loader ->
  evaluate model argmax size1 data_loader
  = Ok (map (fun j => spec_mean_defined
                        (column j (spec_score_rows model argmax num_classes
                                                   data_loader)))
            (seq 0 (num_classes - 1)))
  /\ Forall (fun b => batch_dice (size1 (model (b_images b)))
                                 (argmax (model (b_images b))) (b_labels b)
                      = Ok (rows_of b)) data_loader
  /\ (forall c pred gt, (1 <= c < num_classes)%nat ->
        count_eq c (concat gt) = 0%nat ->
        spec_dice_row num_classes pred gt !! (c - 1)%nat = Some NaN).
Proof.
  intros Hne Hok.
  assert (Hbatch : forall b, b ∈ data_loader ->
            batch_dice (size1 (model (b_images b)))
                       (argmax (model (b_images b))) (b_labels b)
            = Ok (rows_of b)).
  { intros b Hb. rewrite size1_model. apply batch_dice_spec; [apply argmax_range|].
    exact (proj1 (proj1 (list.Forall_forall _ _) Hok b Hb)). }
  split; [|split].
  - unfold evaluate.
    rewrite (for_each_ok _ (fun b => rows_of b) data_loader Hbatch).
    cbn [mbind result_bind].
    pose proof (score_rows_shape data_loader) as Hshape.
    unfold spec_score_rows in *.
    set (rows := concat (map (fun b => rows_of b) data_loader)) in *.
    assert (Hrows : exists r rest, rows = r :: rest).
    { subst rows. destruct data_loader as [|b bs]; [done|].
      destruct (proj1 (list.Forall_forall _ _) Hok b ltac:(left)) as (_ & Hl & Hlen).
      cbn [map concat].
      destruct (b_labels b) as [|g gs]; [done|].
      destruct (argmax (model (b_images b))) as [|p ps]; [done|].
      cbn. eauto. }
    destruct Hrows as (r & rest & Hr).
    assert (Hw : length (default [] (head rows)) = (num_classes - 1)%nat).
    { rewrite Hr in Hshape |- *. cbn. exact (proj1 (Forall_inv Hshape)). }
    unfold np_concatenate.
    destruct (map (fun b => rows_of b) data_loader) as [|a arrays] eqn:Hmap.
    { destruct data_loader; [done | discriminate Hmap]. }
    fold rows. rewrite bool_decide_eq_true_2; last first.
    { revert Hshape. apply Forall_impl. intros x [Hx _]. by rewrite Hw. }
    cbn [mbind result_bind]. f_equal. unfold nanmean_axis0. rewrite Hw.
    apply map_ext. intros j. apply np_nanmean_defined.
    apply column_finite_or_nan. revert Hshape. apply Forall_impl. by intros x [_ ?].
  - apply list.Forall_forall. exact Hbatch.
  - intros c pred gt Hc Hz. unfold spec_dice_row.
    rewrite lookup_map, lookup_seq_lt by lia. cbn.
    replace (S (c - 1)) with c by lia.
    unfold spec_dice. by rewrite decide_True.
Qed.

End Evaluator.

Lemma C9_nan_aware_mean_witness :
  eval_loader_demo <> []
  /\ Forall (eval_batch_ok eval_model_demo id 3) eval_loader_demo
  /\ evaluate eval_model_demo id (fun _ => 3%nat) eval_loader_demo
     = Ok (map (fun j => spec_mean_defined
                           (column j (spec_score_rows eval_model_demo id 3
                                                      eval_loader_demo)))
               (seq 0 (3 - 1))).
Proof.
  split; [discriminate|].
  assert (Hok : Forall (eval_batch_ok eval_model_demo id 3) eval_loader_demo).
  { unfold eval_loader_demo, eval_batch_ok.
    constructor; [split; [by_computation | split; [discriminate | reflexivity]]|].
    constructor; [split; [by_computation | split; [discriminate | reflexivity]]|].
    constructor. }
  split; [exact Hok|].
  apply (C9_nan_aware_mean labels eval_model_demo id (fun _ => 3%nat) 3).
  - reflexivity.
  - intros x. by_computation.
  - discriminate.
  - exact Hok.
Defined.

Example evaluate_demo_scores :
  evaluate eval_model_demo id (fun _ => 3%nat) eval_loader_demo
  = Ok [Fin (Q2Qc (11 # 15)); Fin (Q2Qc (2 # 3))].
Proof.
  vm_compute. apply (f_equal Ok).
  apply f_equal2; [|apply f_equal2; [|reflexivity]];
    apply (f_equal Fin); by apply Qc_is_canon.
Qed.

(** ** Slice-to-volume reassembly (C8) *)

Section BufferFacts.

Lemma mapM_expand_rows (ny : nat) (slice : list (list nat)) :
  Forall (fun r => length r = ny) slice -> mapM (expand ny) slice = Some slice.
Proof.
  intros H. apply mapM_Some_2. induction H as [|r slice Hr _ IH]; constructor; [|done].
  unfold expand. by rewrite decide_True.
Qed.

Lemma assign_zero_slice (vol : list (list (list nat))) (idx nx ny : nat) (slice : list (list nat)) :
  vol !! idx = Some (zero_slice nx ny) -> has_shape nx ny slice ->
  assign_slice vol idx slice = Ok (<[idx := slice]> vol).
Proof.
  intros Hv [Hnx Hny]. unfold assign_slice, volume. rewrite Hv.
  unfold zero_slice. rewrite length_replicate.
  destruct nx as [|nx].
  - destruct slice; [|done]. reflexivity.
  - change (default [] (list.head (replicate (S nx) (replicate ny 0%nat))))
      with (replicate ny 0%nat).
    rewrite length_replicate.
    rewrite mapM_expand_rows by done. cbn.
    unfold expand. by rewrite decide_True.
Qed.

Lemma scan_buffer_lookup (f : slice_batch -> list (list nat)) (nx ny n : nat)
    (bs : list slice_batch) (k : nat) :
  (k < n)%nat -> (k <= length bs)%nat ->
  scan_buffer f nx ny n bs k !! k = Some (zero_slice nx ny).
Proof.
  intros Hk Hle. unfold scan_buffer.
  rewrite lookup_app_r; rewrite length_map, length_take; [|lia].
  apply lookup_replicate_2. lia.
Qed.

Lemma scan_buffer_write (f : slice_batch -> list (list nat)) (nx ny n : nat)
    (bs : list slice_batch) (k : nat) (b : slice_batch) :
  (k < n)%nat -> bs !! k = Some b ->
  <[k := f b]> (scan_buffer f nx ny n bs k) = scan_buffer f nx ny n bs (S k).
Proof.
  intros Hk Hb. unfold scan_buffer.
  pose proof (lookup_lt_Some _ _ _ Hb) as Hlt.
  rewrite (take_S_r _ _ _ Hb), map_app. cbn [map].
  replace (n - k)%nat with (S (n - S k)) by lia. cbn [replicate].
  rewrite <- app_assoc. cbn [app].
  replace k with (length (map f (take k bs)) + 0)%nat at 1
    by (rewrite length_map, length_take; lia).
  by rewrite insert_app_r.
Qed.

Lemma store_slice_fst (base : list (list (list (list nat))))
    (v1 v2 : list (list (list nat))) (idx nx ny : nat) (slice : list (list nat)) :
  v1 !! idx = Some (zero_slice nx ny) -> has_shape nx ny slice ->
  store_slice (base ++ [v1; v2]) (length base) idx slice
  = Ok (base ++ [<[idx := slice]> v1; v2]).
Proof.
  intros Hz Hs. unfold store_slice, volume.
  rewrite lookup_app_r, Nat.sub_diag by lia. cbn [lookup list_lookup].
  rewrite (assign_zero_slice _ _ _ _ _ Hz Hs). cbn [mbind result_bind].
  replace (length base) with (length base + 0)%nat at 1 by lia.
  by rewrite insert_app_r.
Qed.

Lemma store_slice_snd (base : list (list (list (list nat))))
    (v1 v2 : list (list (list nat))) (idx nx ny : nat) (slice : list (list nat)) :
  v2 !! idx = Some (zero_slice nx ny) -> has_shape nx ny slice ->
  store_slice (base ++ [v1; v2]) (S (length base)) idx slice
  = Ok (base ++ [v1; <[idx := slice]> v2]).
Proof.
  intros Hz Hs. unfold store_slice, volume.
  rewrite lookup_app_r by lia.
  replace (S (length base) - length base)%nat with 1%nat by lia.
  cbn [lookup list_lookup].
  rewrite (assign_zero_slice _ _ _ _ _ Hz Hs). cbn [mbind result_bind].
  replace (S (length base)) with (length base + 1)%nat at 1 by lia.
  by rewrite insert_app_r.
Qed.

End BufferFacts.

Section ScanFacts.
Variable logits : Type.
Variable model : images -> logits.
Variable argmax : logits -> labels.
Variables nx ny : nat.
Variable sid : string.
Variable bs : list slice_batch.

Hypothesis Hwf : well_formed_scan model argmax nx ny sid bs.

Local Abbreviation pbuf := (scan_buffer (pred_of model argmax) nx ny (length bs) bs).
Local Abbreviation gbuf := (scan_buffer gth_of nx ny (length bs) bs).

Lemma first_head {A : Type} (l : list (list A)) :
  l <> [] -> first l = Ok (default [] (head l)).
Proof. by destruct l. Qed.

(** The two writes of [record_slice], for the [k]-th batch of the scan. *)
Lemma record_slice_writes (st : pw_state) (b : slice_batch) (k : nat)
    (base : list (list (list (list nat)))) :
  bs !! k = Some b ->
  slice_idx st = Some k ->
  curr_pred st = Some (length base) ->
  curr_gth st = Some (S (length base)) ->
  store st = base ++ [pbuf k; gbuf k] ->
  record_slice model argmax st b
  = let st' := PwState (Some (S k)) (scan_id_full st) (curr_pred st) (curr_gth st)
                       (base ++ [pbuf (S k); gbuf (S k)])
                       (out_prediction_list st) in
    if is_end b then end_scan st' else Ok st'.
Proof.
  intros Hb Hidx Hp Hg Hst.
  pose proof (lookup_lt_Some _ _ _ Hb) as Hk.
  pose proof (list_elem_of_lookup_2 _ _ _ Hb) as Hin.
  destruct Hwf as [_ _ _ _ _ Hsize Hgth Hpred].
  pose proof (proj1 (list.Forall_forall _ _) Hsize b Hin) as Hb1.
  pose proof (proj1 (list.Forall_forall _ _) Hgth b Hin) as Hbg.
  destruct (proj1 (list.Forall_forall _ _) Hpred b Hin) as [Hne Hbp].
  cbn beta in Hb1, Hbg.
  assert (Hlne : s_labels b <> []) by (intros Hnil; by rewrite Hnil in Hb1).
  unfold record_slice. rewrite bool_decide_eq_true_2 by done.
  rewrite (first_head _ Hne). fold (pred_of model argmax b).
  rewrite Hp, Hidx, Hst. cbn [mbind result_bind bound].
  rewrite (store_slice_fst base (pbuf k) (gbuf k) k nx ny)
    by (done || (apply scan_buffer_lookup; lia)).
  cbn [mbind result_bind].
  rewrite (first_head (s_labels b) Hlne).
  fold (gth_of b). rewrite Hg. cbn [mbind result_bind bound].
  rewrite scan_buffer_write by done.
  rewrite (store_slice_snd base (pbuf (S k)) (gbuf k) k nx ny)
    by (done || (apply scan_buffer_lookup; lia)).
  cbn [mbind result_bind]. by rewrite scan_buffer_write by done.
Qed.

Lemma end_scan_entry (st : pw_state) (a1 a2 : nat) (e : comp) :
  scan_id_full st = Some sid -> curr_pred st = Some a1 -> curr_gth st = Some a2 ->
  get (out_prediction_list st) sid = Some e ->
  exists out,
    end_scan st = Ok (PwState (slice_idx st) (scan_id_full st) (curr_pred st)
                              (curr_gth st) (store st) out)
    /\ get out sid = Some (Comp (Some a1) (Some a2))
    /\ forall j, j <> sid -> get out j = get (out_prediction_list st) j.
Proof.
  intros Hsid Hp Hg He. unfold end_scan, getitem.
  rewrite Hsid, Hp, Hg. cbn [bound mbind result_bind]. rewrite He.
  cbn [mbind result_bind]. rewrite get_setitem_eq. cbn [mbind result_bind c_pred].
  eexists. split; [reflexivity|]. split.
  - by rewrite get_setitem_eq.
  - intros j Hj. by rewrite !get_setitem_ne.
Qed.

(** After the two writes of the [k]-th batch: the entry is completed if
    this was the last slice, and left alone otherwise. *)
Lemma after_write (st0 st' : pw_state) (k : nat) :
  slice_idx st' = Some (S k) ->
  scan_id_full st' = Some sid ->
  curr_pred st' = Some (length (store st0)) ->
  curr_gth st' = Some (S (length (store st0))) ->
  store st' = store st0 ++ [pbuf (S k); gbuf (S k)] ->
  get (out_prediction_list st') sid = Some (Comp None None) ->
  (forall j, j <> sid ->
     get (out_prediction_list st') j = get (out_prediction_list st0) j) ->
  exists st'',
    (if bool_decide (S k = length bs) then end_scan st' else Ok st') = Ok st''
    /\ scan_progress model argmax nx ny sid bs st0 (S k) st''.
Proof.
  intros Hidx Hsid Hp Hg Hst He Ho.
  destruct (decide (S k = length bs)) as [Hlast|Hmore].
  - rewrite bool_decide_eq_true_2 by done.
    destruct (end_scan_entry st' _ _ _ Hsid Hp Hg He) as (out & -> & Hout & Hoth).
    eexists. split; [reflexivity|].
    split; cbn [slice_idx scan_id_full curr_pred curr_gth store out_prediction_list];
      try done.
    + by rewrite decide_True.
    + intros j Hj. rewrite Hoth by done. by apply Ho.
  - rewrite bool_decide_eq_false_2 by done.
    exists st'. split; [done|]. split; try done. by rewrite decide_False.
Qed.

Lemma pw_step_first (st0 : pw_state) (b0 : slice_batch) :
  head bs = Some b0 ->
  exists st1,
    pw_step model argmax st0 b0 = Ok st1
    /\ scan_progress model argmax nx ny sid bs st0 1 st1.
Proof.
  intros Hhead.
  assert (Hb : bs !! 0%nat = Some b0) by (by destruct bs).
  destruct (wf_flags _ _ _ _ _ _ Hwf 0%nat b0 Hb) as [Hs He].
  pose proof (wf_scan_id _ _ _ _ _ _ Hwf b0 Hhead) as Hid.
  destruct (wf_image _ _ _ _ _ _ Hwf b0 Hhead)
    as (chan & chans & rest & Himg & Hnx & Hny).
  pose proof (proj1 (list.Forall_forall _ _) (wf_nframe _ _ _ _ _ _ Hwf) b0
                (list_elem_of_lookup_2 _ _ _ Hb)) as Hn.
  cbn beta in Hn.
  unfold pw_step. rewrite Hs, bool_decide_eq_true_2 by done.
  unfold start_scan.
  destruct (scan_id b0) as [|sid' ids]; [done|]. injection Hid as ->.
  rewrite Himg. cbn [first mbind result_bind].
  change (default [] (list.head (default [] (list.head ((chan :: chans) :: rest)))))
    with chan.
  rewrite Hnx, Hny, Hn.
  erewrite record_slice_writes with (k := 0%nat) (base := store st0);
    [|done|done|done|done|].
  2: { cbn [store]. unfold scan_buffer, zeros, zero_slice.
       by rewrite Nat.sub_0_r. }
  cbn zeta. rewrite He.
  apply after_write; cbn [slice_idx scan_id_full curr_pred curr_gth store
                          out_prediction_list]; try done.
  - apply get_setitem_eq.
  - intros j Hj. by apply get_setitem_ne.
Qed.

Lemma pw_step_next (st0 st : pw_state) (k : nat) (b : slice_batch) :
  (1 <= k)%nat -> bs !! k = Some b ->
  scan_progress model argmax nx ny sid bs st0 k st ->
  exists st',
    pw_step model argmax st b = Ok st'
    /\ scan_progress model argmax nx ny sid bs st0 (S k) st'.
Proof.
  intros Hk Hb [Hidx Hsid Hp Hg Hst He Ho].
  pose proof (lookup_lt_Some _ _ _ Hb) as Hlt.
  destruct (wf_flags _ _ _ _ _ _ Hwf k b Hb) as [Hs Hend].
  unfold pw_step. rewrite Hs, bool_decide_eq_false_2 by lia.
  cbn [mbind result_bind].
  rewrite (record_slice_writes st b k (store st0)) by done.
  cbn zeta. rewrite Hend.
  apply after_write; cbn [slice_idx scan_id_full curr_pred curr_gth store
                          out_prediction_list]; try done.
  by rewrite He, decide_False by lia.
Qed.

Lemma pw_loop_app (st : pw_state) (l1 l2 : list slice_batch) :
  pw_loop model argmax st (l1 ++ l2)
  = pw_loop model argmax st l1 ≫= fun s => pw_loop model argmax s l2.
Proof.
  revert st. induction l1 as [|b l1 IH]; intros st; [done|].
  cbn [app pw_loop]. destruct (pw_step model argmax st b); cbn; [apply IH | done].
Qed.

Lemma scan_prefix (st0 : pw_state) (k : nat) :
  (1 <= k <= length bs)%nat ->
  exists st_k,
    pw_loop model argmax st0 (take k bs) = Ok st_k
    /\ scan_progress model argmax nx ny sid bs st0 k st_k.
Proof.
  induction k as [|k IH]; [lia|]. intros Hk.
  destruct (bs !! k) as [b|] eqn:Hb; [|apply lookup_ge_None in Hb; lia].
  rewrite (take_S_r _ _ _ Hb), pw_loop_app.
  destruct k as [|k].
  - destruct (pw_step_first st0 b) as (st1 & Hstep & Hprog); [by destruct bs|].
    exists st1. change (take 0 bs) with (@nil slice_batch).
    cbn [pw_loop mbind result_bind]. rewrite Hstep. done.
  - destruct IH as (st_k & Hloop & Hprog); [lia|].
    destruct (pw_step_next st0 st_k (S k) b ltac:(lia) Hb Hprog)
      as (st' & Hstep & Hprog').
    exists st'. rewrite Hloop. cbn [pw_loop mbind result_bind].
    rewrite Hstep. done.
Qed.

(** C8.  For the batches of one well-formed scan, fed from any earlier
    state: [slice_idx] is 0 at the start batch and grows by one with every
    batch, so it is [k] after the [k]-th; nothing is emitted before the
    end batch; at the end batch the entry of the scan id refers to the two
    buffers, which hold [nframe] slices of the scan's shape, slice [k] of
    [pred] being the predicted class map of the [k]-th batch and slice [k]
    of [gth] its label; the entries of other scans are untouched. *)
Theorem C8_volume_reassembly (st0 : pw_state) :
  exists st',
    pw_loop model argmax st0 bs = Ok st'
    /\ (forall k, (1 <= k <= length bs)%nat ->
         exists st_k,
           pw_loop model argmax st0 (take k bs) = Ok st_k
           /\ slice_idx st_k = Some k
           /\ ((k < length bs)%nat ->
               get (out_prediction_list st_k) sid = Some (Comp None None)))
    /\ (exists entry,
         get (out_prediction_list st') sid = Some entry
         /\ deref (store st') entry
            = VolEntry (Some (map (pred_of model argmax) bs))
                       (Some (map gth_of bs)))
    /\ Forall (fun b => nframe b = length (map (pred_of model argmax) bs)
                        /\ nframe b = length (map gth_of bs)) bs
    /\ Forall (has_shape nx ny) (map (pred_of model argmax) bs)
    /\ Forall (has_shape nx ny) (map gth_of bs)
    /\ (forall j, j <> sid ->
         get (out_prediction_list st') j = get (out_prediction_list st0) j).
Proof.
  pose proof (wf_nonempty _ _ _ _ _ _ Hwf) as Hne.
  assert (Hlen : (1 <= length bs)%nat) by (destruct bs; [done | cbn; lia]).
  destruct (scan_prefix st0 (length bs) ltac:(lia)) as (st' & Hloop & Hprog).
  rewrite firstn_all in Hloop.
  exists st'. split; [done|]. split; [|split; [|split; [|split; [|split]]]].
  - intros k Hk. destruct (scan_prefix st0 k Hk) as (st_k & Hk_loop & Hk_prog).
    exists st_k. split; [done|]. split; [apply Hk_prog|].
    intros Hlt. rewrite (sp_entry _ _ _ _ _ _ _ _ _ Hk_prog).
    by rewrite decide_False by lia.
  - eexists. split.
    + rewrite (sp_entry _ _ _ _ _ _ _ _ _ Hprog). by rewrite decide_True.
    + unfold deref. cbn [c_pred c_gth mbind option_bind].
      rewrite (sp_store _ _ _ _ _ _ _ _ _ Hprog).
      unfold scan_buffer. rewrite Nat.sub_diag, firstn_all. cbn [replicate].
      rewrite !app_nil_r.
      rewrite !lookup_app_r by lia. rewrite Nat.sub_diag.
      replace (S (length (store st0)) - length (store st0))%nat with 1%nat by lia.
      reflexivity.
  - rewrite !length_map.
    generalize (wf_nframe _ _ _ _ _ _ Hwf). apply Forall_impl. by intros b ->.
  - apply Forall_map_impl with (P := fun b => argmax (model (s_images b)) <> []
                                  /\ has_shape nx ny (pred_of model argmax b)).
    + apply (wf_pred _ _ _ _ _ _ Hwf).
    + by intros b [_ ?].
  - apply Forall_map_impl with (P := fun b => has_shape nx ny (gth_of b)).
    + apply (wf_gth _ _ _ _ _ _ Hwf).
    + done.
  - apply Hprog.
Qed.

End ScanFacts.

Lemma scan_demo_well_formed :
  well_formed_scan scan_model_demo id 2 2 "A_1" scan_demo.
Proof.
  split.
  - discriminate.
  - intros [|[|[|i]]] b Hb; cbn in Hb; try discriminate Hb;
      injection Hb as <-; split; reflexivity.
  - intros b Hb. injection Hb as <-. reflexivity.
  - intros b Hb. injection Hb as <-. eexists _, _, _.
    split; [reflexivity|]. split; reflexivity.
  - repeat constructor.
  - repeat constructor.
  - unfold has_shape. repeat constructor.
  - unfold has_shape. repeat constructor; discriminate.
Qed.

Lemma C8_volume_reassembly_witness :
  well_formed_scan scan_model_demo id 2 2 "A_1" scan_demo
  /\ exists st' entry,
       pw_loop scan_model_demo id pw_init scan_demo = Ok st'
       /\ get (out_prediction_list st') "A_1" = Some entry
       /\ deref (store st') entry
          = VolEntry (Some (map (pred_of scan_model_demo id) scan_demo))
                     (Some (map gth_of scan_demo)).
Proof.
  split; [exact scan_demo_well_formed|].
  destruct (C8_volume_reassembly labels scan_model_demo id 2 2 "A_1" scan_demo
              scan_demo_well_formed pw_init)
    as (st' & Hloop & _ & (entry & Hentry & Hderef) & _).
  exists st', entry. split; [exact Hloop|]. split; [exact Hentry | exact Hderef].
Defined.

Example reassembled_demo :
  (fun st => deref (store st) (Comp (Some 0%nat) (Some 1%nat)))
    <$> pw_loop scan_model_demo id pw_init scan_demo
  = Ok (VolEntry
          (Some [[[0; 1]; [1; 0]]; [[1; 1]; [0; 0]]; [[0; 0]; [0; 1]]]%nat)
          (Some [[[0; 1]; [1; 1]]; [[2; 1]; [0; 0]]; [[0; 0]; [0; 2]]]%nat)).
Proof. vm_compute. reflexivity. Qed.

(** ** Aggregation by domain (C7) *)

Section GroupingFacts.

Lemma first_occurrences_elem (ds : list string) (d : string) :
  d ∈ first_occurrences ds <-> d ∈ ds.
Proof.
  induction ds as [|x ds IH]; [done|]. cbn [first_occurrences].
  rewrite !elem_of_cons, list_elem_of_filter, IH.
  destruct (decide (d = x)); tauto.
Qed.

Lemma first_occurrences_snoc (ds : list string) (d : string) :
  first_occurrences (ds ++ [d])
  = if decide (d ∈ ds) then first_occurrences ds else first_occurrences ds ++ [d].
Proof.
  induction ds as [|x ds IH].
  - cbn. rewrite decide_False; [done | apply not_elem_of_nil].
  - cbn [app first_occurrences]. rewrite IH.
    destruct (decide (d = x)) as [->|Hne].
    + rewrite (decide_True (P := x ∈ x :: ds)) by left.
      destruct (decide (x ∈ ds)); [done|].
      rewrite list.filter_app, filter_cons_False by (intros H; by apply H).
      by rewrite filter_nil, app_nil_r.
    + destruct (decide (d ∈ ds)) as [Hin|Hin].
      * by rewrite decide_True by (by right).
      * rewrite decide_False by (rewrite elem_of_cons; tauto).
        rewrite list.filter_app, filter_cons_True by done. by rewrite filter_nil.
Qed.

Lemma rows_of_domain_snoc (d d' : string) (r : list npfloat)
    (scored : list (string * list npfloat)) :
  rows_of_domain d' (scored ++ [(d, r)])
  = rows_of_domain d' scored ++ (if decide (d = d') then [r] else []).
Proof.
  unfold rows_of_domain. rewrite list.filter_app, map_app. f_equal.
  destruct (decide (d = d')) as [->|Hne].
  - by rewrite filter_cons_True by done.
  - by rewrite filter_cons_False by done.
Qed.

Lemma rows_of_domain_absent (d : string) (scored : list (string * list npfloat)) :
  d ∉ map fst scored -> rows_of_domain d scored = [].
Proof.
  unfold rows_of_domain. induction scored as [|[d' r] scored IH]; [done|].
  cbn [map fst]. rewrite not_elem_of_cons. intros [Hne Hin].
  rewrite filter_cons_False by (cbn; congruence). by apply IH.
Qed.

Lemma keys_setitem_list {V : Type} (tb : dict V) (k : string) (v : V) :
  keys (setitem tb k v) = if decide (k ∈ keys tb) then keys tb else keys tb ++ [k].
Proof.
  unfold keys. induction tb as [|[k' v'] tb IH].
  - cbn. rewrite decide_False; [done | apply not_elem_of_nil].
  - cbn [setitem]. destruct (decide (k' = k)) as [->|Hne].
    + cbn. by rewrite decide_True by left.
    + cbn [fmap list_fmap fst]. rewrite IH.
      destruct (decide (k ∈ tb.*1)) as [Hin|Hin].
      * by rewrite decide_True by (by right).
      * by rewrite decide_False by (rewrite elem_of_cons; cbn; intuition congruence).
Qed.

Lemma first_occurrences_NoDup (ds : list string) : NoDup (first_occurrences ds).
Proof.
  induction ds as [|x ds IH]; [constructor|]. cbn [first_occurrences].
  apply NoDup_cons_2.
  - rewrite list_elem_of_filter. by intros [? _].
  - by apply list.NoDup_filter.
Qed.

Lemma elem_of_setitem {V : Type} (tb : dict V) (k : string) (v : V)
    (kt : string * V) :
  NoDup (keys tb) ->
  kt ∈ setitem tb k v -> kt = (k, v) \/ (kt ∈ tb /\ kt.1 <> k).
Proof.
  unfold keys. induction tb as [|[k' v'] tb IH]; cbn [setitem]; intros Hnd.
  - rewrite list_elem_of_singleton. by left.
  - pose proof (NoDup_cons_1_1 _ _ Hnd) as Hk'.
    apply NoDup_cons_1_2 in Hnd.
    destruct (decide (k' = k)) as [->|Hne].
    + rewrite elem_of_cons. intros [?|Hin]; [by left|].
      right. split; [by right|]. intros Hk. apply Hk'.
      apply list_elem_of_fmap. exists kt. by rewrite Hk.
    + rewrite elem_of_cons. intros [->|Hin].
      * right. split; [by left | done].
      * destruct (IH Hnd Hin) as [?|[? ?]]; [by left|].
        right. split; [by right | done].
Qed.

Lemma tables_group_NoDup (tables : dict domain_table)
    (scored : list (string * list npfloat)) :
  tables_group tables scored -> NoDup (keys tables).
Proof. intros [-> _]. apply first_occurrences_NoDup. Qed.

Lemma tables_group_add (tables : dict domain_table)
    (scored : list (string * list npfloat)) (d : string) (r : list npfloat)
    (t : domain_table) (ids : list string) :
  tables_group tables scored ->
  get tables d = Some t ->
  tables_group (setitem tables d (DomainTable (scores t ++ [r]) ids))
               (scored ++ [(d, r)]).
Proof.
  intros Hg Ht. pose proof (tables_group_NoDup _ _ Hg) as Hnd.
  destruct Hg as [Hkeys Hrows].
  assert (Hin : d ∈ keys tables) by (apply get_is_Some_keys; eauto).
  split.
  - rewrite keys_setitem_list, decide_True by done.
    rewrite map_app. cbn [map fst]. rewrite first_occurrences_snoc.
    rewrite decide_True; [done|]. apply first_occurrences_elem. by rewrite <- Hkeys.
  - apply list.Forall_forall. intros kt Hkt.
    destruct (elem_of_setitem _ _ _ _ Hnd Hkt) as [->|[Hkt' Hne]]; clear Hkt.
    + cbn [fst snd scores]. rewrite rows_of_domain_snoc, decide_True by done.
      f_equal. apply get_Some_elem in Ht.
      exact (proj1 (list.Forall_forall _ _) Hrows _ Ht).
    + rewrite rows_of_domain_snoc, decide_False by done. rewrite app_nil_r.
      exact (proj1 (list.Forall_forall _ _) Hrows _ Hkt').
Qed.

Lemma tables_group_new (tables : dict domain_table)
    (scored : list (string * list npfloat)) (d : string) (t : domain_table) :
  tables_group tables scored ->
  get tables d = None -> scores t = [] ->
  keys (setitem tables d t) = first_occurrences (map fst scored) ++ [d]
  /\ (d ∉ map fst scored)
  /\ Forall (fun kt => kt.1 <> d -> scores kt.2 = rows_of_domain kt.1 scored)
            (setitem tables d t).
Proof.
  intros Hg Ht Hs. pose proof (tables_group_NoDup _ _ Hg) as Hnd.
  destruct Hg as [Hkeys Hrows].
  assert (Hnin : d ∉ keys tables) by (by apply get_None_keys).
  split; [|split].
  - by rewrite keys_setitem_list, decide_False, Hkeys by done.
  - rewrite Hkeys in Hnin. by rewrite first_occurrences_elem in Hnin.
  - apply list.Forall_forall. intros kt Hkt Hne.
    destruct (elem_of_setitem _ _ _ _ Hnd Hkt) as [->|[Hkt' _]]; [done|].
    exact (proj1 (list.Forall_forall _ _) Hrows _ Hkt').
Qed.

Lemma scan_loop_step (tables : dict domain_table)
    (scored : list (string * list npfloat)) (d : string) (r : list npfloat)
    (id : string) :
  tables_group tables scored ->
  let tables1 := if contains tables d then tables
                 else setitem tables d (DomainTable [] []) in
  exists t,
    getitem tables1 d = Ok t
    /\ tables_group
         (setitem tables1 d (DomainTable (scores t ++ [r]) (scan_ids t ++ [id])))
         (scored ++ [(d, r)]).
Proof.
  intros Hg. unfold contains.
  destruct (get tables d) as [t|] eqn:Ht.
  - rewrite bool_decide_eq_true_2 by eauto. cbn zeta.
    exists t. unfold getitem. rewrite Ht. split; [done|].
    by apply tables_group_add.
  - rewrite bool_decide_eq_false_2 by (by intros [? ?]). cbn zeta.
    exists (DomainTable [] []). unfold getitem. rewrite get_setitem_eq.
    split; [done|].
    destruct (tables_group_new tables scored d (DomainTable [] []) Hg Ht eq_refl)
      as (Hkeys & Hnin & Hrows).
    set (tables1 := setitem tables d (DomainTable [] [])) in *.
    assert (Hnd : NoDup (keys tables1)).
    { rewrite Hkeys. replace (first_occurrences (map fst scored) ++ [d])
        with (first_occurrences (map fst (scored ++ [(d, r)]))).
      - apply first_occurrences_NoDup.
      - rewrite map_app. cbn [map fst]. rewrite first_occurrences_snoc.
        by rewrite decide_False. }
    split.
    + rewrite keys_setitem_list, decide_True, Hkeys.
      * rewrite map_app. cbn [map fst]. rewrite first_occurrences_snoc.
        by rewrite decide_False.
      * rewrite Hkeys, elem_of_app, list_elem_of_singleton. by right.
    + apply list.Forall_forall. intros kt Hkt.
      destruct (elem_of_setitem _ _ _ _ Hnd Hkt) as [->|[Hkt' Hne]]; clear Hkt.
      * cbn [fst snd scores]. rewrite rows_of_domain_snoc, decide_True by done.
        by rewrite rows_of_domain_absent.
      * rewrite rows_of_domain_snoc, decide_False by done. rewrite app_nil_r.
        exact (proj1 (list.Forall_forall _ _) Hrows _ Hkt' Hne).
Qed.

Lemma scan_loop_spec (nclass : nat) (vol_list : list (string * vol_entry))
    (tables : dict domain_table) (dsc_table : list (list npfloat))
    (scored0 scored : list (string * list npfloat)) :
  tables_group tables scored0 ->
  for_each (score_scan nclass) vol_list = Ok scored ->
  exists tables',
    scan_loop nclass vol_list tables dsc_table
    = Ok (tables', dsc_table ++ map snd scored)
    /\ tables_group tables' (scored0 ++ scored).
Proof.
  revert tables dsc_table scored0 scored.
  induction vol_list as [|[id comp] vol_list IH];
    intros tables dsc_table scored0 scored Hg Hs.
  - injection Hs as <-. exists tables. by rewrite !app_nil_r.
  - cbn [for_each] in Hs.
    destruct (score_scan nclass (id, comp)) as [[d r]|] eqn:Hsc; [|done].
    unfold score_scan in Hsc. cbn [fst snd] in Hsc. cbn [scan_loop].
    destruct (domain_of id) as [d'|]; [|done]. cbn [mbind result_bind] in Hsc |- *.
    destruct (scan_dice nclass comp) as [r'|]; [|done].
    cbn [mbind result_bind] in Hsc |- *. injection Hsc as -> ->.
    cbn [mbind result_bind] in Hs.
    destruct (for_each (score_scan nclass) vol_list) as [rest|] eqn:Hrest; [|done].
    cbn [mbind result_bind] in Hs. injection Hs as <-.
    destruct (scan_loop_step tables scored0 d r id Hg) as (t & -> & Hg').
    cbn [mbind result_bind].
    destruct (IH _ (dsc_table ++ [r]) _ rest Hg' eq_refl) as (tables' & -> & Hfin).
    exists tables'. cbn [map snd]. rewrite <- !app_assoc in *. done.
Qed.

End GroupingFacts.

Section AggregationFacts.

Lemma organ_loop_ok (label_name : list string) (dsc_table : list (list npfloat))
    (organs : list nat) (error_dict : dict evalue) :
  Forall (fun organ => organ < length label_name)%nat organs ->
  exists error_dict', organ_loop label_name dsc_table organs error_dict = Ok error_dict'.
Proof.
  intros H. revert error_dict.
  induction H as [|organ organs Ho _ IH]; intros error_dict; [by eexists|].
  cbn [organ_loop]. destruct (lookup_lt_is_Some_2 _ _ Ho) as [name ->].
  cbn [mbind result_bind]. apply IH.
Qed.

Lemma domain_loop_lists (tables : list (string * domain_table))
    (error_dict : dict evalue) (acc : list npfloat) (names : list string) :
  (domain_loop tables error_dict acc names).1.2
  = acc ++ map (fun kt => mean_without_background (scores kt.2)) tables
  /\ (domain_loop tables error_dict acc names).2 = names ++ keys tables.
Proof.
  revert error_dict acc names.
  induction tables as [|[d t] tables IH]; intros error_dict acc names.
  - cbn. by rewrite !app_nil_r.
  - cbn [domain_loop]. destruct (IH (setitem (setitem error_dict
        ("domain_" ++ d ++ "_overall") (VFloat (mean_without_background (scores t))))
        ("domain_" ++ d ++ "_table") (VTable (scores t)))
        (acc ++ [mean_without_background (scores t)]) (names ++ [d])) as [-> ->].
    unfold keys. cbn [map fmap list_fmap fst snd]. by rewrite <- !app_assoc.
Qed.

Lemma domain_loop_get (key : string) (tables : list (string * domain_table))
    (error_dict : dict evalue) (acc : list npfloat) (names : list string) :
  (forall d, key <> ("domain_" ++ d ++ "_overall")%string) ->
  (forall d, key <> ("domain_" ++ d ++ "_table")%string) ->
  get (domain_loop tables error_dict acc names).1.1 key = get error_dict key.
Proof.
  intros Ho Ht. revert error_dict acc names.
  induction tables as [|[d t] tables IH]; intros error_dict acc names; [done|].
  cbn [domain_loop]. rewrite IH.
  rewrite !get_setitem_ne; [done| |]; intros Heq; symmetry in Heq; revert Heq;
    [apply Ho | apply Ht].
Qed.

Lemma grouped_means (tables : dict domain_table)
    (scored : list (string * list npfloat)) :
  tables_group tables scored ->
  map (fun kt => mean_without_background (scores kt.2)) tables
  = map (fun d => spec_domain_mean d scored) (first_occurrences (map fst scored)).
Proof.
  intros [Hkeys Hrows]. rewrite <- Hkeys. unfold keys. clear Hkeys.
  induction Hrows as [|[d t] tables Hr _ IH]; [done|].
  cbn [map fmap list_fmap fst snd] in *. rewrite Hr. f_equal. apply IH.
Qed.

End AggregationFacts.

(** C7.  When every scan id parses and every volume scores,
    [eval_list_wrapper] returns, and its [overall_by_domain] entry is the
    unweighted mean, over the domains in order of first appearance, of each
    domain's mean over its scans and over the classes other than the
    background (column 0), while its [overall] entry is the mean over all
    scans and those classes; with two scans in one domain and one in
    another the two values can differ. *)
Theorem C7_mean_of_domain_means (vol_list : dict vol_entry) (nclass : nat)
    (label_name : list string) (scored : list (string * list npfloat)) :
  for_each (score_scan nclass) vol_list = Ok scored ->
  (nclass <= length label_name)%nat ->
  (exists error_dict,
     eval_list_wrapper vol_list nclass label_name
     = Ok (error_dict, map snd scored, first_occurrences (map fst scored))
     /\ get error_dict "overall_by_domain"
        = Some (VFloat (spec_overall_by_domain scored))
     /\ get error_dict "overall" = Some (VFloat (spec_overall scored)))
  /\ (exists unequal,
        length (rows_of_domain "A" unequal) = 2%nat
        /\ length (rows_of_domain "B" unequal) = 1%nat
        /\ spec_overall_by_domain unequal <> spec_overall unequal).
Proof.
  intros Hs Hn. split.
  - destruct (scan_loop_spec nclass vol_list [] [] [] scored) as (tables & Hloop & Hg);
      [by split | done |].
    cbn [app] in Hloop, Hg.
    destruct (organ_loop_ok label_name (map snd scored) (seq 0 nclass) [])
      as [ed1 Hed1].
    { apply list.Forall_forall. intros organ Ho. apply elem_of_seq in Ho. lia. }
    unfold eval_list_wrapper. rewrite Hloop. cbn [mbind result_bind fst snd].
    rewrite Hed1. cbn [mbind result_bind].
    set (ed2 := setitem ed1 "overall" _).
    destruct (domain_loop_lists tables ed2 [] []) as [Hmeans Hnames].
    rewrite Hnames, Hmeans. cbn [app].
    eexists. split; [|split].
    + destruct Hg as [-> _]. reflexivity.
    + rewrite get_setitem_eq.
      unfold spec_overall_by_domain. by rewrite (grouped_means tables scored Hg).
    + rewrite get_setitem_ne by done.
      rewrite domain_loop_get by (intros d; cbn; discriminate).
      subst ed2. by rewrite get_setitem_eq.
  - exists scored_demo. split; [reflexivity|]. split; [reflexivity|].
    intros H. apply (f_equal (fun x => match x with Fin q => this q | _ => 0%Q end)) in H.
    vm_compute in H. discriminate H.
Qed.

Lemma C7_mean_of_domain_means_witness :
  exists scored,
    for_each (score_scan 2) vol_list_demo = Ok scored
    /\ (2 <= length label_name_demo)%nat
    /\ exists error_dict,
         eval_list_wrapper vol_list_demo 2 label_name_demo
         = Ok (error_dict, map snd scored, first_occurrences (map fst scored))
         /\ get error_dict "overall_by_domain"
            = Some (VFloat (spec_overall_by_domain scored))
         /\ get error_dict "overall" = Some (VFloat (spec_overall scored)).
Proof.
  assert (exists scored, for_each (score_scan 2) vol_list_demo = Ok scored)
    as [scored Hs] by (vm_compute; eexists; reflexivity).
  exists scored. split; [exact Hs|]. split; [cbn; lia|].
  apply (C7_mean_of_domain_means vol_list_demo 2 label_name_demo scored Hs).
  cbn; lia.
Defined.

Example eval_list_wrapper_demo :
  (fun r => (score_as_Q (get r.1.1 "overall_by_domain"),
             score_as_Q (get r.1.1 "overall"), r.2))
    <$> eval_list_wrapper vol_list_demo 2 label_name_demo
  = Ok (Some (1 # 2)%Q, Some (2 # 3)%Q, ["A"; "B"]%string).
Proof. vm_compute. reflexivity. Qed.

(** ** Guidance fusion (C1) *)

Lemma zip_with_diag {A B C D E : Type} (f : C -> D -> E) (g : A -> B -> C)
    (h : A -> B -> D) (a : list A) (b : list B) :
  zip_with f (zip_with g a b) (zip_with h a b)
  = zip_with (fun x y => f (g x y) (h x y)) a b.
Proof. revert b. induction a as [|x a IH]; intros [|y b]; cbn; f_equal; auto. Qed.

Lemma fused_combination (uc ua : maps) :
  maps_map (fun x => x / 2)
    (maps_zip Qcplus (maps_map (fun x => x / 2) (maps_zip Qcplus uc ua))
                     (maps_zip Qc_max uc ua))
  = spec_combination uc ua.
Proof.
  unfold spec_combination, maps_map, maps_zip, img_zip.
  rewrite !map_zip_with, zip_with_diag.
  apply zip_with_ext_all. intros mc ma.
  rewrite !map_zip_with, zip_with_diag.
  apply zip_with_ext_all. intros rc ra.
  by rewrite !map_zip_with, zip_with_diag.
Qed.

(** C1 (as amended).  The fused guidance mask is the per-sample min-max
    rescale applied to the 29x29, sigma-10 Gaussian blur of the combination
    [(mean(uc, ua) + max(uc, ua)) / 2]: the blur comes first and the rescale
    last. *)
Theorem C1_blur_then_rescale (uc ua : maps) :
  fuse_UG uc ua = spec_UG_blur_then_rescale uc ua.
Proof.
  unfold fuse_UG, spec_UG_blur_then_rescale. rewrite fused_combination.
  by destruct (GaussianBlur_29_10 (spec_combination uc ua)).
Qed.

Lemma fused_spike_pixel : first_pixel (fuse_UG [spike] [spike]) = 1%Q.
Proof. vm_cast_no_check (eq_refl 1%Q). Qed.

Lemma claimed_spike_pixel :
  first_pixel (spec_UG_rescale_then_blur [spike] [spike])
  = (15625 # 7144929)%Q.
Proof. vm_cast_no_check (eq_refl (15625 # 7144929)%Q). Qed.

(** C1, as stated, fails: for the already rescaled map [spike], given as
    both uncertainty maps, rescaling first and blurring last does not give
    the mask that the code computes. *)
Lemma C1_order_counterexample :
  rescale_intensity [spike] = [spike]
  /\ fuse_UG [spike] [spike] <> spec_UG_rescale_then_blur [spike] [spike].
Proof.
  split; [vm_compute; reflexivity|].
  intros H. apply (f_equal first_pixel) in H.
  rewrite fused_spike_pixel, claimed_spike_pixel in H. discriminate H.
Qed.

(** * Further properties of the code *)

Import Behaviour.

(** ** The standard epoch runner *)

Section EpochRunner.
Variables net logits : Type.
Variable forward : net -> images -> logits.
Variable get_loss : logits -> labels -> dict Qc.
Variable weight_dict : gmap string Qc.
Variable update : net -> list Qc -> list (images * labels) -> net.
Variable max_iteration : Z.
Variable grad_scaler : bool.
Variable optimizer : list param_group.

Hypothesis optimizer_nonempty : optimizer <> [].
Hypothesis losses_defined :
  forall lg lbl, exists q,
    weighted_losses weight_dict (get_loss lg lbl) = Ok (Scalar q).

Local Abbreviation body :=
  (epoch_body forward get_loss weight_dict update max_iteration grad_scaler).
Local Abbreviation lrs := (map lr optimizer).

Lemma updates_of_app (t1 t2 : list event) :
  updates_of (t1 ++ t2) = updates_of t1 ++ updates_of t2.
Proof. unfold updates_of. apply omap_app. Qed.

Lemma epoch_body_step (st : train_state net) (samples : batch) :
  param_groups st = optimizer ->
  exists st',
    body st samples
    = Ok (if decide (max_iteration <= cur_iteration st + 1 /\ 0 < max_iteration)%Z
          then Break else Next, st')
    /\ cur_iteration st' = (cur_iteration st + 1)%Z
    /\ model st' = update (model st) lrs [(b_images samples, b_labels samples)]
    /\ param_groups st' = optimizer
    /\ updates_of (trace st') = updates_of (trace st) ++ [lrs].
Proof.
  intros Hg. unfold epoch_body.
  destruct (losses_defined (forward (model st) (b_images samples))
                           (b_labels samples)) as [q ->].
  cbn [mbind result_bind backward as_tensor].
  unfold log_lr. destruct optimizer as [|g gs] eqn:Hopt; [done|].
  destruct grad_scaler;
    cbn [scaler_step optimizer_step zero_grad emit param_groups model pending
         trace cur_iteration set_iteration];
    rewrite Hg;
    cbn [mbind result_bind scaler_step optimizer_step emit param_groups model
         pending trace cur_iteration set_iteration];
    (destruct (decide _); eexists; (split; [reflexivity|]);
     cbn [scaler_step optimizer_step emit param_groups model pending trace
          cur_iteration set_iteration app];
     (split; [done|]); (split; [done|]); (split; [done|]);
     rewrite <- ?app_assoc, updates_of_app; reflexivity).

Qed.

Lemma epoch_batches_S (c : Z) (len : nat) :
  epoch_batches max_iteration c (S len)
  = if decide (max_iteration <= c + 1 /\ 0 < max_iteration)%Z then 1%nat
    else S (epoch_batches max_iteration (c + 1) len).
Proof.
  unfold epoch_batches.
  destruct (decide (0 < max_iteration)%Z);
    destruct (decide (max_iteration <= c + 1 /\ 0 < max_iteration)%Z); lia.
Qed.

Lemma epoch_for_loop (bs : list batch) (st : train_state net) :
  param_groups st = optimizer ->
  exists fl st',
    for_loop body st bs = Ok (fl, st')
    /\ cur_iteration st'
       = (cur_iteration st
          + Z.of_nat (epoch_batches max_iteration (cur_iteration st) (length bs)))%Z
    /\ model st'
       = epoch_model update lrs (model st)
           (take (epoch_batches max_iteration (cur_iteration st) (length bs)) bs)
    /\ param_groups st' = optimizer
    /\ updates_of (trace st')
       = updates_of (trace st)
         ++ replicate (epoch_batches max_iteration (cur_iteration st) (length bs))
                      lrs.
Proof.
  revert st. induction bs as [|b bs IH]; intros st Hg.
  - exists Next, st. cbn [for_loop length].
    replace (epoch_batches max_iteration (cur_iteration st) 0) with 0%nat
      by (unfold epoch_batches; destruct (decide _); lia).
    cbn. rewrite app_nil_r. split; [done|]. split; [lia|]. done.
  - destruct (epoch_body_step st b Hg) as (st1 & Hb & Hc & Hm & Hg1 & Hu).
    cbn [for_loop length]. rewrite Hb, epoch_batches_S.
    cbn [mbind result_bind fst snd].
    destruct (decide (max_iteration <= cur_iteration st + 1 /\ 0 < max_iteration)%Z).
    + exists Break, st1. split; [done|]. split; [lia|]. split; [|done].
      rewrite Hm. reflexivity.
    + destruct (IH st1 Hg1) as (fl & st' & Hloop & Hc' & Hm' & Hg' & Hu').
      exists fl, st'. rewrite Hc in *. split; [done|]. split; [lia|].
      split; [|split; [done|]].
      * rewrite Hm', Hm. reflexivity.
      * rewrite Hu', Hu, <- app_assoc. reflexivity.
Qed.

(** X1.  [train_one_epoch], for a criterion whose losses all have a weight:
    it trains on the first [n] batches, where [n] is the whole loader
    without a budget and [min(len, max(1, max_iteration - cur_iteration))]
    with one, so that a call made with the budget used up still trains on
    one batch; it returns [cur_iteration + n]; the parameters are updated
    once per batch from that batch alone, and the learning rates are never
    changed. *)
Theorem epoch_budget_and_updates (model0 : net) (data_loader : list batch)
    (cur_iteration0 : Z) :
  let n := epoch_batches max_iteration cur_iteration0 (length data_loader) in
  exists st,
    train_one_epoch forward get_loss weight_dict update model0 data_loader
                    optimizer cur_iteration0 max_iteration grad_scaler
    = Ok ((cur_iteration0 + Z.of_nat n)%Z, st)
    /\ model st = epoch_model update lrs model0 (take n data_loader)
    /\ param_groups st = optimizer
    /\ updates_of (trace st) = replicate n lrs.
Proof.
  intros n.
  destruct (epoch_for_loop data_loader (TrainState cur_iteration0 model0 optimizer [] []))
    as (fl & st' & Hloop & Hc & Hm & Hg & Hu); [done|].
  cbn [cur_iteration model trace] in *. fold n in Hc, Hm, Hu.
  exists (emit EvSynchronize st'). unfold train_one_epoch. rewrite Hloop.
  cbn [mbind result_bind fst snd emit model param_groups trace].
  rewrite Hc. split; [done|]. split; [done|]. split; [done|].
  rewrite updates_of_app, Hu. cbn. by rewrite app_nil_r.
Qed.

End EpochRunner.

Lemma epoch_budget_and_updates_witness :
  optimizer_demo <> []
  /\ epoch_batches 5 5 3 = 1%nat
  /\ exists st,
       train_one_epoch forward_demo get_loss_demo W_demo update_demo tt
                       [batch_demo; batch_demo; batch_demo] optimizer_demo 5 5 false
       = Ok (6%Z, st)
       /\ updates_of (trace st) = [map lr optimizer_demo].
Proof.
  split; [discriminate|]. split; [reflexivity|].
  destruct (epoch_budget_and_updates unit images forward_demo get_loss_demo W_demo
              update_demo 5 false optimizer_demo ltac:(discriminate)
              ltac:(intros lg lbl; eexists; vm_compute; reflexivity)
              tt [batch_demo; batch_demo; batch_demo] 5)
    as (st & Hrun & _ & _ & Hu).
  exists st. split; [exact Hrun | exact Hu].
Defined.

(** ** The mix-up runner as a whole *)

Section FiestaLoop.
Variables net logits : Type.
Variable forward : net -> images -> logits.
Variable get_loss : logits -> labels -> dict Qc.
Variable weight_dict : gmap string Qc.
Variable entropy : logits -> maps.
Variable update : net -> list Qc -> list (images * labels) -> net.
Variable max_iteration : Z.
Variable visdir : option string.

Local Abbreviation body :=
  (ugm_body forward get_loss weight_dict entropy update max_iteration visdir).

Lemma filter_none {A : Type} (P : A -> Prop) `{!forall x, Decision (P x)}
    (l : list A) :
  Forall (fun x => ~ P x) l -> filter P l = [].
Proof.
  induction 1 as [|x l Hx _ IH]; [done|]. by rewrite filter_cons_False.
Qed.

Lemma steps_of_snapshot (it : Z) : steps_of (snapshot_events visdir it) = [].
Proof. unfold snapshot_events. by destruct (decide _). Qed.

Lemma steps_of_append (t1 t2 : list event) :
  steps_of (t1 ++ t2) = steps_of t1 ++ steps_of t2.
Proof. unfold steps_of. apply omap_app. Qed.

Lemma ugm_body_counts (s : train_state net * option (dict Qc)) (samples : batch)
    (r : flow * (train_state net * option (dict Qc))) :
  body s samples = Ok r ->
  r.1 = (if decide (budget_reached max_iteration (cur_iteration s.1))
         then Break else Next)
  /\ cur_iteration r.2.1
     = (if decide (budget_reached max_iteration (cur_iteration s.1))
        then cur_iteration s.1 else cur_iteration s.1 + 1)%Z
  /\ param_groups r.2.1 = param_groups s.1
  /\ steps_of (trace r.2.1)
     = steps_of (trace s.1) ++ [map lr (param_groups s.1)].
Proof.
  intros Hb.
  destruct (ugm_body_inv _ _ _ _ _ _ _ _ _ s samples r Hb)
    as (LFAT_img & q1 & q2 & q3 & rec & g & gs & m' & pend' & _ & Hg & ->).
  unfold ugm_outcome. rewrite Hg.
  destruct (decide (budget_reached max_iteration (cur_iteration s.1)));
    cbn [fst snd cur_iteration param_groups trace];
    rewrite ?steps_of_append, ?steps_of_snapshot, ?app_nil_r; done.
Qed.

Lemma fiesta_counted_S (c : Z) (len : nat) :
  fiesta_counted max_iteration c (S len)
  = if decide (budget_reached max_iteration c) then 0%nat
    else S (fiesta_counted max_iteration (c + 1) len).
Proof.
  unfold fiesta_counted, budget_reached.
  destruct (decide (0 < max_iteration)%Z);
    destruct (decide (max_iteration <= c /\ 0 < max_iteration)%Z); lia.
Qed.

Lemma fiesta_batches_S (c : Z) (len : nat) :
  fiesta_batches max_iteration c (S len)
  = if decide (budget_reached max_iteration c) then 1%nat
    else S (fiesta_batches max_iteration (c + 1) len).
Proof.
  unfold fiesta_batches, budget_reached.
  destruct (decide (0 < max_iteration)%Z);
    destruct (decide (max_iteration <= c /\ 0 < max_iteration)%Z); lia.
Qed.

Lemma fiesta_for_loop (bs : list batch) (s : train_state net * option (dict Qc))
    (r : flow * (train_state net * option (dict Qc))) :
  for_loop body s bs = Ok r ->
  cur_iteration r.2.1
  = (cur_iteration s.1
     + Z.of_nat (fiesta_counted max_iteration (cur_iteration s.1) (length bs)))%Z
  /\ param_groups r.2.1 = param_groups s.1
  /\ steps_of (trace r.2.1)
     = steps_of (trace s.1)
       ++ replicate (fiesta_batches max_iteration (cur_iteration s.1) (length bs))
                    (map lr (param_groups s.1)).
Proof.
  revert s. induction bs as [|b bs IH]; intros s Hrun.
  - cbn [for_loop] in Hrun. injection Hrun as <-. cbn [fst snd length].
    replace (fiesta_counted max_iteration (cur_iteration s.1) 0) with 0%nat
      by (unfold fiesta_counted; destruct (decide _); lia).
    replace (fiesta_batches max_iteration (cur_iteration s.1) 0) with 0%nat
      by (unfold fiesta_batches; destruct (decide _); lia).
    cbn. rewrite app_nil_r. split; [lia|]. done.
  - cbn [for_loop] in Hrun.
    destruct (body s b) as [r1|e] eqn:Hb; [|done].
    cbn [mbind result_bind] in Hrun.
    destruct (ugm_body_counts s b r1 Hb) as (Hfl & Hc & Hg & Ht).
    cbn [length]. rewrite fiesta_counted_S, fiesta_batches_S.
    destruct (decide (budget_reached max_iteration (cur_iteration s.1))).
    + rewrite Hfl in Hrun. injection Hrun as <-.
      split; [lia|]. split; [done|]. exact Ht.
    + rewrite Hfl in Hrun. destruct (IH r1.2 Hrun) as (Hc' & Hg' & Ht').
      rewrite Hc', Hg', Ht', Hc, Hg, Ht, <- app_assoc.
      split; [lia|]. done.
Qed.

(** X2.  [train_one_epoch_FIESTA], when it raises no exception: the counter
    is compared with the budget before it is incremented, so the value
    returned is [cur_iteration + min(len, max(0, max_iteration -
    cur_iteration))] under a budget, while the optimizer has stepped once
    more than that when the loop broke: on [min(len, max(0, max_iteration -
    cur_iteration) + 1)] batches; without a budget both are the length of
    the loader. Every step is taken with the learning rates the optimizer
    came with. *)
Theorem fiesta_counter_and_steps (model0 : net) (data_loader : list batch)
    (optimizer : list param_group) (cur_iteration0 : Z)
    (c : Z) (d : dict Qc) (st : train_state net) :
  train_one_epoch_FIESTA forward get_loss weight_dict entropy update model0
    data_loader optimizer cur_iteration0 max_iteration visdir
  = Ok (c, d, st) ->
  c = (cur_iteration0
       + Z.of_nat (fiesta_counted max_iteration cur_iteration0
                                  (length data_loader)))%Z
  /\ param_groups st = optimizer
  /\ steps_of (trace st)
     = replicate (fiesta_batches max_iteration cur_iteration0 (length data_loader))
                 (map lr optimizer).
Proof.
  unfold train_one_epoch_FIESTA. intros Hrun.
  destruct (for_loop body _ data_loader) as [r|e] eqn:Hloop; [|done].
  cbn [mbind result_bind] in Hrun.
  destruct (r.2.2) as [aug|]; [|done]. injection Hrun as <- <- <-.
  destruct (fiesta_for_loop data_loader _ r Hloop) as (Hc & Hg & Ht).
  cbn [fst snd cur_iteration param_groups trace emit] in *.
  split; [done|]. split; [done|].
  rewrite steps_of_append, Ht. cbn. by rewrite app_nil_r.
Qed.

(** X3.  One iteration of the mix-up loop that raises no exception updates
    the parameters once, from three gradients and no other: those of the
    clean input, of the augmented input and of the mixed input, in this
    order, whatever was pending when the iteration began; the guidance mask
    and the mixed input are computed with the parameters from before the
    update. *)
Theorem fiesta_three_gradients (s : train_state net * option (dict Qc))
    (samples : batch) (r : flow * (train_state net * option (dict Qc))) :
  body s samples = Ok r ->
  exists LFAT_img UG,
    b_aug_images samples = Some LFAT_img
    /\ fuse_UG
         (rescale_intensity (entropy (forward (model s.1) (b_images samples))))
         (rescale_intensity (entropy (forward (model s.1) LFAT_img)))
       = Ok UG
    /\ model r.2.1
       = update (model s.1) (map lr (param_groups s.1))
           [(b_images samples, b_labels samples);
            (LFAT_img, b_labels samples);
            (mixed_input (b_images samples) LFAT_img (b_labels samples) UG,
             b_labels samples)].
Proof.
  unfold ugm_body. intros H.
  destruct (b_aug_images samples) as [LFAT_img|]; [|done].
  unfold log_lr, backward, optimizer_step, zero_grad, emit in H.
  cbn [mbind result_bind model param_groups pending cur_iteration trace fst] in H.
  destruct (weighted_losses_filtered _ _) as [[|q1]|] in H; try done.
  cbn [mbind result_bind as_tensor model param_groups pending cur_iteration
       trace] in H.
  destruct (weighted_losses_filtered _ _) as [[|q2]|] in H; try done.
  cbn [mbind result_bind as_tensor model param_groups pending cur_iteration
       trace] in H.
  destruct (fuse_UG _ _) as [UG|] eqn:HUG in H; [|done].
  cbn [mbind result_bind] in H.
  destruct (weighted_losses_filtered _ _) as [[|q3]|] in H; try done.
  cbn [mbind result_bind as_tensor model param_groups pending cur_iteration
       trace] in H.
  destruct (aggregate_losses _ _ _ _) as [rec|] in H; [|done].
  cbn [mbind result_bind model param_groups pending cur_iteration trace] in H.
  destruct (param_groups s.1) as [|g gs]; [done|].
  cbn [mbind result_bind model param_groups pending cur_iteration trace app] in H.
  exists LFAT_img, UG. split; [done|]. split; [exact HUG|].
  destruct (decide _) in H; injection H as <-.
  - reflexivity.
  - cbn [fst snd]. by destruct (decide _).
Qed.

(** X4.  When no loss of the clean branch has a weight, the filtered sum is
    the [int] 0 of an empty [sum], and [train_one_epoch_FIESTA] ends in an
    [AttributeError] at the first [backward]. *)
Theorem fiesta_no_weighted_loss (model0 : net) (samples : batch)
    (rest : list batch) (optimizer : list param_group) (cur_iteration0 : Z) :
  is_Some (b_aug_images samples) ->
  (forall k, k ∈ keys (get_loss (forward model0 (b_images samples))
                                (b_labels samples)) ->
             weight_dict !! k = None) ->
  train_one_epoch_FIESTA forward get_loss weight_dict entropy update model0
    (samples :: rest) optimizer cur_iteration0 max_iteration visdir
  = Raise AttributeError.
Proof.
  intros [LFAT_img Haug] Hnone.
  unfold train_one_epoch_FIESTA. cbn [for_loop]. unfold ugm_body.
  rewrite Haug. cbn [mbind result_bind zero_grad emit model fst].
  unfold weighted_losses_filtered.
  replace (filter _ (keys (get_loss (forward model0 (b_images samples))
                                    (b_labels samples))))
    with (@nil string).
  - reflexivity.
  - symmetry. apply filter_none. apply list.Forall_forall.
    intros k Hk [w Hw]. by rewrite (Hnone k Hk) in Hw.
Qed.

End FiestaLoop.

Lemma fiesta_counter_and_steps_witness :
  exists d st,
    train_one_epoch_FIESTA forward_demo get_loss_demo W_demo entropy_demo
      update_demo tt [batch15] optimizer_demo 200 200 None
    = Ok (200%Z, d, st)
    /\ steps_of (trace st) = [map lr optimizer_demo].
Proof.
  assert (exists d st,
    train_one_epoch_FIESTA forward_demo get_loss_demo W_demo entropy_demo
      update_demo tt [batch15] optimizer_demo 200 200 None
    = Ok (200%Z, d, st)) as (d & st & Hrun)
    by (vm_compute; eexists _, _; reflexivity).
  exists d, st. split; [exact Hrun|].
  exact (proj2 (proj2 (fiesta_counter_and_steps unit images forward_demo
                         get_loss_demo W_demo entropy_demo update_demo 200 None
                         tt [batch15] optimizer_demo 200 200 d st Hrun))).
Defined.

Lemma fiesta_three_gradients_witness :
  exists r UG,
    ugm_body forward_demo get_loss_demo W_demo entropy_demo update_demo 0 None
             (TrainState 1 tt optimizer_demo [(aug15, lbl15)] [], None) batch15
    = Ok r
    /\ fuse_UG (rescale_intensity (entropy_demo clean15))
               (rescale_intensity (entropy_demo aug15)) = Ok UG.
Proof.
  assert (exists r,
    ugm_body forward_demo get_loss_demo W_demo entropy_demo update_demo 0 None
             (TrainState 1 tt optimizer_demo [(aug15, lbl15)] [], None) batch15
    = Ok r) as [r Hr] by (vm_compute; eexists; reflexivity).
  destruct (fiesta_three_gradients unit images forward_demo get_loss_demo W_demo
              entropy_demo update_demo 0 None _ batch15 r Hr)
    as (LFAT_img & UG & Haug & HUG & _).
  injection Haug as <-.
  exists r, UG. split; [exact Hr | exact HUG].
Defined.

Lemma fiesta_no_weighted_loss_witness :
  train_one_epoch_FIESTA forward_demo get_loss_unweighted W_demo entropy_demo
    update_demo tt [batch_demo] optimizer_demo 0 (-1) None
  = Raise AttributeError.
Proof.
  apply (fiesta_no_weighted_loss unit images forward_demo get_loss_unweighted
           W_demo entropy_demo update_demo (-1) None tt batch_demo []
           optimizer_demo 0).
  - by eexists.
  - intros k Hk. apply list_elem_of_singleton in Hk as ->. reflexivity.
Defined.

(** ** Warm-up: degenerate budgets, empty loader, final learning rates *)

Section WarmUpEdges.
Variables net logits : Type.
Variable forward : net -> images -> logits.
Variable get_loss : logits -> labels -> dict Qc.
Variable weight_dict : gmap string Qc.
Variable update : net -> list Qc -> list (images * labels) -> net.
Variable learning_rate : Qc.

(** X5.  With [warmup_iteration = 0] the first learning rate is [1 / 0]:
    [train_warm_up] ends in a [ZeroDivisionError] at the first batch,
    whatever the model and the criterion. *)
Theorem warm_up_zero_budget (fuel : nat) (model0 : net) (samples : batch)
    (rest : list batch) (optimizer : list param_group) :
  optimizer <> [] ->
  train_warm_up forward get_loss weight_dict update (S fuel) model0
                (samples :: rest) optimizer learning_rate 0
  = Some (Raise ZeroDivisionError).
Proof.
  intros Hne. destruct optimizer as [|g gs]; [done|]. reflexivity.
Qed.

(** X6.  With an empty data source the [while True] loop never reaches the
    test of the counter: [train_warm_up] does not return, whatever the
    budget. *)
Theorem warm_up_empty_loader (fuel : nat) (model0 : net)
    (optimizer : list param_group) (warmup_iteration : Z) :
  train_warm_up forward get_loss weight_dict update fuel model0 [] optimizer
                learning_rate warmup_iteration
  = None.
Proof.
  unfold train_warm_up. generalize (TrainState 0 model0 optimizer [] []).
  induction fuel as [|fuel IH]; intros st; [done|].
  cbn [warm_up_passes for_loop]. apply IH.
Qed.

Variable W : Z.
Variable optimizer : list param_group.

Local Abbreviation body :=
  (warm_up_body forward get_loss weight_dict update learning_rate W).

Lemma warmed_groups (c : Z) (gs : list param_group) :
  map lr_scale gs = map lr_scale optimizer ->
  map (fun g => ParamGroup (spec_warmup_lr c W learning_rate (lr_scale g))
                           (lr_scale g)) gs
  = map (fun g => ParamGroup (spec_warmup_lr c W learning_rate (lr_scale g))
                             (lr_scale g)) optimizer.
Proof.
  intros Hs.
  rewrite <- (map_map lr_scale
                (fun s => ParamGroup (spec_warmup_lr c W learning_rate s) s) gs).
  rewrite Hs. by rewrite map_map.
Qed.

(** The groups at the moment [warm_up_body] returns, and the scales it
    keeps otherwise. *)
Lemma warm_up_body_groups (st : train_state net) (samples : batch)
    (fl : flow) (st' : train_state net) :
  W <> 0%Z ->
  lr_scales_kept optimizer st ->
  body st samples = Ok (fl, st') ->
  lr_scales_kept optimizer st'
  /\ cur_iteration st' = (cur_iteration st + 1)%Z
  /\ forall v, fl = Return v ->
       (W <= v)%Z /\ v = (cur_iteration st + 1)%Z
       /\ param_groups st'
          = map (fun g => ParamGroup (spec_warmup_lr v W learning_rate (lr_scale g))
                                     (lr_scale g)) optimizer.
Proof.
  intros HW Hs. unfold warm_up_body.
  assert (Hset : forall c gs,
            set_warmup_lr c W learning_rate gs
            = Ok (map (fun g => ParamGroup
                         (spec_warmup_lr c W learning_rate (lr_scale g))
                         (lr_scale g)) gs)).
  { intros c gs. unfold set_warmup_lr. apply for_each_ok. intros g _.
    unfold py_truediv. by rewrite decide_False. }
  cbn [set_iteration cur_iteration param_groups]. rewrite Hset.
  cbn [mbind result_bind].
  destruct (weighted_losses _ _) as [[|q]|]; try done.
  unfold backward, log_lr, optimizer_step, zero_grad, emit, set_groups.
  cbn [mbind result_bind as_tensor model param_groups pending cur_iteration trace].
  rewrite (warmed_groups _ _ Hs).
  destruct (map _ optimizer) as [|g gs] eqn:Hmap; [done|].
  cbn [mbind result_bind model param_groups pending cur_iteration trace].
  assert (Hk : map lr_scale (g :: gs) = map lr_scale optimizer).
  { rewrite <- Hmap, map_map. reflexivity. }
  destruct (decide _) as [Hret|Hgo]; intros [= <- <-].
  - split; [exact Hk|]. split; [done|].
    intros v [= <-]. split; [exact Hret|]. split; [done|].
    cbn [param_groups]. symmetry. exact Hmap.
  - split; [exact Hk|]. split; [done|]. intros v Hv. discriminate Hv.
Qed.

Lemma warm_up_loop_groups (bs : list batch) (st : train_state net)
    (fl : flow) (st' : train_state net) :
  W <> 0%Z ->
  lr_scales_kept optimizer st ->
  for_loop body st bs = Ok (fl, st') ->
  lr_scales_kept optimizer st'
  /\ forall v, fl = Return v ->
       (W <= v)%Z /\ (cur_iteration st < v)%Z
       /\ param_groups st'
          = map (fun g => ParamGroup (spec_warmup_lr v W learning_rate (lr_scale g))
                                     (lr_scale g)) optimizer.
Proof.
  intros HW. revert st. induction bs as [|b bs IH]; intros st Hs Hrun.
  - cbn [for_loop] in Hrun. injection Hrun as <- <-. split; [done|].
    intros v Hv. discriminate Hv.
  - cbn [for_loop] in Hrun.
    destruct (body st b) as [[fl1 st1]|e] eqn:Hb; [|done].
    cbn [mbind result_bind fst snd] in Hrun.
    destruct (warm_up_body_groups st b fl1 st1 HW Hs Hb) as (Hs1 & Hc1 & Hret).
    destruct fl1.
    + destruct (IH st1 Hs1 Hrun) as [Hs' Hret']. split; [done|].
      intros v Hv. destruct (Hret' v Hv) as (? & ? & ?).
      split; [done|]. split; [lia | done].
    + injection Hrun as <- <-. split; [done|]. intros v' Hv. discriminate Hv.
    + injection Hrun as <- <-. split; [done|]. intros v' Hv.
      destruct (Hret v' Hv) as (? & ? & ?). split; [done|]. split; [lia | done].
Qed.

Lemma warm_up_passes_groups (data_loader : list batch) (fuel : nat)
    (st : train_state net) (v : Z) (st' : train_state net) :
  W <> 0%Z ->
  lr_scales_kept optimizer st ->
  warm_up_passes forward get_loss weight_dict update fuel learning_rate W
                 data_loader st = Some (Ok (v, st')) ->
  (W <= v)%Z
  /\ param_groups st'
     = map (fun g => ParamGroup (spec_warmup_lr v W learning_rate (lr_scale g))
                                (lr_scale g)) optimizer.
Proof.
  intros HW. revert st. induction fuel as [|fuel IH]; intros st Hs Hrun; [done|].
  cbn [warm_up_passes] in Hrun.
  destruct (for_loop body st data_loader) as [[fl st1]|e] eqn:Hloop; [|done].
  destruct (warm_up_loop_groups data_loader st fl st1 HW Hs Hloop) as [Hs1 Hret].
  destruct fl.
  - apply (IH (emit EvSynchronize st1)); [exact Hs1 | exact Hrun].
  - apply (IH (emit EvSynchronize st1)); [exact Hs1 | exact Hrun].
  - injection Hrun as <- <-. destruct (Hret v0 eq_refl) as (? & _ & ?). done.
Qed.

Hypothesis W_pos : (1 <= W)%Z.
Hypothesis optimizer_nonempty : optimizer <> [].
Hypothesis losses_defined :
  forall lg lbl, exists q,
    weighted_losses weight_dict (get_loss lg lbl) = Ok (Scalar q).

(** X7.  When [train_warm_up] returns (budget [W >= 1], non-empty loader),
    every group of the optimizer is left with the learning rate
    [learning_rate * lr_scale]: the last factor [W / W] is 1; [lr_scale] is
    as it was. *)
Theorem warm_up_final_learning_rates (model0 : net) (data_loader : list batch) :
  data_loader <> [] ->
  exists fuel st,
    train_warm_up forward get_loss weight_dict update fuel model0 data_loader
                  optimizer learning_rate W
    = Some (Ok (W, st))
    /\ param_groups st = warmed_up learning_rate optimizer.
Proof.
  intros Hne.
  destruct (warm_up_passes_return net logits forward get_loss weight_dict update
              learning_rate W optimizer W_pos optimizer_nonempty losses_defined
              data_loader Hne (Z.to_nat W) (TrainState 0 model0 optimizer [] []))
    as (fuel & st & Hrun & _ & _).
  - cbn [cur_iteration]. lia.
  - reflexivity.
  - cbn [cur_iteration]. lia.
  - exists fuel, st. split; [exact Hrun|].
    destruct (warm_up_passes_groups data_loader fuel
                (TrainState 0 model0 optimizer [] []) W st ltac:(lia)
                ltac:(reflexivity) Hrun) as [_ ->].
    unfold warmed_up. apply map_ext. intros g. f_equal.
    unfold spec_warmup_lr.
    assert (Q2Qc (inject_Z W) <> 0) as HWq.
    { intros H. apply (Q2Qc_eq_iff (inject_Z W) 0) in H.
      unfold Qeq in H. cbn in H. lia. }
    field. exact HWq.
Qed.

End WarmUpEdges.

Lemma warm_up_zero_budget_witness :
  train_warm_up forward_demo get_loss_demo W_demo update_demo 1 tt
                [batch_demo] optimizer_demo half 0
  = Some (Raise ZeroDivisionError).
Proof.
  apply (warm_up_zero_budget unit images forward_demo get_loss_demo W_demo
           update_demo half 0 tt batch_demo [] optimizer_demo).
  discriminate.
Defined.

Lemma warm_up_final_learning_rates_witness :
  exists fuel st,
    train_warm_up forward_demo get_loss_demo W_demo update_demo fuel tt
                  [batch_demo; batch_demo] optimizer_demo half 3
    = Some (Ok (3%Z, st))
    /\ param_groups st = warmed_up half optimizer_demo.
Proof.
  apply (warm_up_final_learning_rates unit images forward_demo get_loss_demo
           W_demo update_demo half 3 optimizer_demo).
  - lia.
  - discriminate.
  - intros lg lbl. eexists. vm_compute. reflexivity.
  - discriminate.
Defined.

(** ** The aggregated record: lookups and missing keys *)

Section StringFacts.

Lemma string_app_cons (c : ascii) (s t : string) :
  (String c s ++ t = String c (s ++ t))%string.
Proof. reflexivity. Qed.

Lemma string_length_app (s t : string) :
  String.length (s ++ t) = (String.length s + String.length t)%nat.
Proof.
  induction s as [|c s IH]; [done|].
  rewrite string_app_cons. cbn [String.length]. by rewrite IH.
Qed.

Lemma string_app_inj_suffix (t s s' : string) :
  (s ++ t = s' ++ t)%string -> s = s'.
Proof.
  revert s'. induction s as [|c s IH]; intros [|c' s'] H.
  - done.
  - apply (f_equal String.length) in H.
    rewrite !string_length_app in H. cbn [String.length] in H. lia.
  - apply (f_equal String.length) in H.
    rewrite !string_length_app in H. cbn [String.length] in H. lia.
  - rewrite !string_app_cons in H. injection H as -> H. f_equal. by apply IH.
Qed.

Lemma string_app_ne_self (s t : string) :
  t <> ""%string -> s <> (s ++ t)%string.
Proof.
  intros Ht H. apply (f_equal String.length) in H.
  rewrite string_length_app in H. destruct t; [done | cbn [String.length] in H; lia].
Qed.

Lemma aug_ne_mix (s s' : string) : (s ++ "_aug" <> s' ++ "_mix")%string.
Proof.
  revert s'. induction s as [|c s IH]; intros [|c' s'] H.
  - discriminate H.
  - apply (f_equal String.length) in H.
    rewrite !string_length_app in H. cbn [String.length] in H. lia.
  - apply (f_equal String.length) in H.
    rewrite !string_length_app in H. cbn [String.length] in H. lia.
  - rewrite !string_app_cons in H. injection H as _ H. by apply IH in H.
Qed.

End StringFacts.

Section AggregatedRecord.
Variable W : gmap string Qc.
Variables L L_aug L_mix : dict Qc.

Local Abbreviation loop := (aggregate_loop W L L_aug L_mix).

(** What [aggregate_loop] leaves in the record: the three entries of every
    weighted key it went through, and the earlier entries under all other
    names. *)
Lemma aggregate_loop_lookup (ks : list string) (acc rec : dict Qc) :
  suffix_free (filter (fun k => is_Some (W !! k)) ks) ->
  loop ks acc = Ok rec ->
  (forall k, k ∈ ks -> is_Some (W !! k) ->
     get rec k = get L k
     /\ get rec (k ++ "_aug") = get L_aug k
     /\ get rec (k ++ "_mix") = get L_mix k)
  /\ (forall j, (forall k, k ∈ ks -> is_Some (W !! k) -> j ∉ record_names k) ->
        get rec j = get acc j).
Proof.
  revert acc. induction ks as [|k ks IH]; intros acc Hfree Hrun.
  - injection Hrun as <-. split; [|done]. intros k Hk. by apply elem_of_nil in Hk.
  - cbn [aggregate_loop] in Hrun.
    destruct (decide (is_Some (W !! k))) as [Hw|Hw].
    + rewrite filter_cons_True in Hfree by done.
      assert (Hfree' : suffix_free (filter (fun k => is_Some (W !! k)) ks)).
      { intros a b Ha Hb. apply Hfree; by right. }
      unfold getitem in Hrun.
      destruct (get L k) as [v|] eqn:Hv; [|done].
      destruct (get L_aug k) as [va|] eqn:Hva; [|done].
      destruct (get L_mix k) as [vm|] eqn:Hvm; [|done].
      cbn [mbind result_bind] in Hrun.
      destruct (IH _ Hfree' Hrun) as [Hin Hout].
      assert (Hweighted : forall k', k' ∈ ks -> is_Some (W !! k') ->
                k' ∈ filter (fun k => is_Some (W !! k)) ks).
      { intros k' ? ?. by apply list_elem_of_filter. }
      assert (Hmine : forall j, j ∈ record_names k ->
                (forall k', k' ∈ ks -> is_Some (W !! k') -> j ∉ record_names k')
                \/ (j <> k /\ k ∈ ks) \/ (j = k /\ k ∈ ks)).
      { intros j Hj. destruct (decide (k ∈ ks)) as [Hdup|Hnew].
        { destruct (decide (j = k)); [by right; right | by right; left]. }
        left. intros k' Hk' Hw' Hj'.
        destruct (Hfree k k') as [Hkk1 Hkk2]; [by left | right; by apply Hweighted|].
        destruct (Hfree k' k) as [Hkk3 Hkk4]; [right; by apply Hweighted | by left|].
        unfold record_names in Hj, Hj'.
        rewrite !elem_of_cons in Hj, Hj'.
        destruct Hj as [->|[->|[->|Hj]]]; [| | |by apply elem_of_nil in Hj];
          destruct Hj' as [Hj'|[Hj'|[Hj'|Hj']]];
          try (by apply elem_of_nil in Hj'); try congruence.
        - apply string_app_inj_suffix in Hj'. congruence.
        - by apply aug_ne_mix in Hj'.
        - symmetry in Hj'. by apply aug_ne_mix in Hj'.
        - apply string_app_inj_suffix in Hj'. congruence. }
      split.
      * intros k0 Hk0 Hw0. apply elem_of_cons in Hk0 as [->|Hk0]; [|by apply Hin].
        destruct (decide (k ∈ ks)) as [Hdup|Hnew]; [by apply Hin|].
        assert (Hfresh : forall j, j ∈ record_names k ->
                  forall k', k' ∈ ks -> is_Some (W !! k') -> j ∉ record_names k').
        { intros j Hj. destruct (Hmine j Hj) as [?|[[_ ?]|[_ ?]]]; done. }
        assert (Hk_aug : k <> (k ++ "_aug")%string)
          by (by apply string_app_ne_self).
        assert (Hk_mix : k <> (k ++ "_mix")%string)
          by (by apply string_app_ne_self).
        assert (Ham : (k ++ "_aug" <> k ++ "_mix")%string) by apply aug_ne_mix.
        split; [|split].
        -- rewrite Hout by (apply Hfresh; unfold record_names; by left).
           rewrite !get_setitem_ne by congruence.
           by rewrite get_setitem_eq.
        -- rewrite Hout by (apply Hfresh; unfold record_names; right; by left).
           rewrite get_setitem_ne by congruence.
           by rewrite get_setitem_eq.
        -- rewrite Hout by (apply Hfresh; unfold record_names; do 2 right; by left).
           by rewrite get_setitem_eq.
      * intros j Hj. rewrite Hout by (intros k' Hk' Hw'; apply Hj; [by right | done]).
        pose proof (Hj k ltac:(left) Hw) as Hjk. unfold record_names in Hjk.
        rewrite !not_elem_of_cons in Hjk. destruct Hjk as (? & ? & ? & _).
        by rewrite !get_setitem_ne by congruence.
    + rewrite filter_cons_False in Hfree by done.
      destruct (IH _ Hfree Hrun) as [Hin Hout]. split.
      * intros k0 Hk0 Hw0. apply elem_of_cons in Hk0 as [->|Hk0]; [done|].
        by apply Hin.
      * intros j Hj. apply Hout. intros k' Hk' Hw'. apply Hj; [by right | done].
Qed.

(** X8.  Lines 201-206, read back: when no weighted loss is named like the
    augmented or mixed copy of a weighted loss, the record holds, for every
    weighted key [k] of the clean branch, the clean loss under [k], the
    augmented branch's under [k_aug] and the mixed branch's under [k_mix]. *)
Theorem aggregate_losses_lookup (rec : dict Qc) (k : string) :
  suffix_free (weighted_keys W L) ->
  aggregate_losses W L L_aug L_mix = Ok rec ->
  k ∈ keys L -> is_Some (W !! k) ->
  get rec k = get L k
  /\ get rec (k ++ "_aug") = get L_aug k
  /\ get rec (k ++ "_mix") = get L_mix k.
Proof.
  intros Hfree Hrun Hk Hw.
  by apply (proj1 (aggregate_loop_lookup (keys L) [] rec Hfree Hrun)).
Qed.

Lemma aggregate_loop_missing (ks : list string) (acc : dict Qc) (k : string) :
  (forall x, x ∈ ks -> x ∈ keys L) ->
  k ∈ ks -> is_Some (W !! k) ->
  k ∉ keys L_aug \/ k ∉ keys L_mix ->
  exists k', k' ∈ ks /\ is_Some (W !! k')
     /\ (k' ∉ keys L_aug \/ k' ∉ keys L_mix)
     /\ loop ks acc = Raise (KeyError k').
Proof.
  revert acc. induction ks as [|k0 ks IH]; intros acc Hsub Hk Hw Hmiss.
  { by apply elem_of_nil in Hk. }
  cbn [aggregate_loop].
  assert (Hk0 : k0 ∈ keys L) by (apply Hsub; by left).
  assert (Hsub' : forall x, x ∈ ks -> x ∈ keys L) by (intros x ?; apply Hsub; by right).
  destruct (decide (is_Some (W !! k0))) as [Hw0|Hw0].
  - destruct (getitem_keys L k0 Hk0) as (v & -> & _). cbn [mbind result_bind].
    unfold getitem.
    destruct (get L_aug k0) as [va|] eqn:Hva; cbn [mbind result_bind].
    2: { exists k0. split; [by left|]. split; [done|]. split; [|done].
         left. by apply get_None_keys. }
    destruct (get L_mix k0) as [vm|] eqn:Hvm; cbn [mbind result_bind].
    2: { exists k0. split; [by left|]. split; [done|]. split; [|done].
         right. by apply get_None_keys. }
    apply elem_of_cons in Hk as [->|Hk].
    + exfalso. destruct Hmiss as [Hm|Hm]; apply get_None_keys in Hm; congruence.
    + destruct (IH (setitem (setitem (setitem acc k0 v) (k0 ++ "_aug") va)
                            (k0 ++ "_mix") vm) Hsub' Hk Hw Hmiss)
        as (k' & ? & ? & ? & ?).
      exists k'. split; [by right | done].
  - apply elem_of_cons in Hk as [->|Hk]; [done|].
    destruct (IH acc Hsub' Hk Hw Hmiss) as (k' & ? & ? & ? & ?).
    exists k'. split; [by right | done].
Qed.

(** X9.  A weighted loss of the clean branch that the augmented or the mixed
    branch does not report is a [KeyError], naming such a loss, when the
    record is built. *)
Theorem aggregate_losses_missing (k : string) :
  k ∈ keys L -> is_Some (W !! k) ->
  k ∉ keys L_aug \/ k ∉ keys L_mix ->
  exists k', k' ∈ keys L /\ is_Some (W !! k')
     /\ (k' ∉ keys L_aug \/ k' ∉ keys L_mix)
     /\ aggregate_losses W L L_aug L_mix = Raise (KeyError k').
Proof. intros Hk Hw Hmiss. by apply aggregate_loop_missing with k. Qed.

End AggregatedRecord.

Lemma aggregate_losses_lookup_witness :
  exists rec,
    aggregate_losses W_demo L_demo L_aug_demo L_mix_demo = Ok rec
    /\ get rec "dice" = get L_demo "dice"
    /\ get rec "dice_aug" = get L_aug_demo "dice"
    /\ get rec "dice_mix" = get L_mix_demo "dice".
Proof.
  assert (exists rec, aggregate_losses W_demo L_demo L_aug_demo L_mix_demo = Ok rec)
    as [rec Hrec] by (vm_compute; eexists; reflexivity).
  exists rec. split; [exact Hrec|].
  apply (aggregate_losses_lookup W_demo L_demo L_aug_demo L_mix_demo rec "dice").
  - intros k k' Hk Hk'. vm_compute in Hk, Hk'.
    apply elem_of_cons in Hk as [->|Hk]; [|apply list_elem_of_singleton in Hk as ->];
      (apply elem_of_cons in Hk' as [->|Hk'];
       [|apply list_elem_of_singleton in Hk' as ->]); split; discriminate.
  - exact Hrec.
  - by_computation.
  - by_computation.
Defined.

Lemma aggregate_losses_missing_witness :
  exists k',
    aggregate_losses W_demo L_demo [("ce"%string, 1)] L_mix_demo
    = Raise (KeyError k').
Proof.
  destruct (aggregate_losses_missing W_demo L_demo [("ce"%string, 1)] L_mix_demo
              "dice") as (k' & _ & _ & _ & Hrun).
  - by_computation.
  - by_computation.
  - left. by_computation.
  - exists k'. exact Hrun.
Defined.

(** ** Scan ids *)

Section ScanIds.
Variable sep : Ascii.ascii.

Lemma split_on_nonempty (s : string) : split_on sep s <> [].
Proof.
  destruct s as [|c s]; cbn [split_on]; [done|].
  destruct (decide (c = sep)); [done|]. by destruct (split_on sep s).
Qed.

Lemma split_on_one (s p : string) :
  split_on sep s = [p] <-> s = p /\ has_char sep p = false.
Proof.
  revert p. induction s as [|c s IH]; intros p; cbn [split_on].
  - split; [by intros [= <-] | by intros [<- _]].
  - destruct (decide (c = sep)) as [->|Hc].
    + split.
      * intros [= <- Hs]. by destruct (split_on_nonempty s).
      * intros [<- Hp]. cbn [has_char] in Hp. by rewrite decide_True in Hp.
    + destruct (split_on sep s) as [|w ws] eqn:Hs; [by destruct (split_on_nonempty s)|].
      split.
      * intros [= <- ->]. destruct (proj1 (IH w) eq_refl) as [-> Hw].
        cbn [has_char]. by rewrite decide_False.
      * intros [<- Hp]. cbn [has_char] in Hp. rewrite decide_False in Hp by done.
        pose proof (proj2 (IH s) (conj eq_refl Hp)) as Heq.
        injection Heq as -> ->. done.
Qed.

Lemma split_on_two (s d p : string) :
  split_on sep s = [d; p]
  <-> s = (d ++ String sep p)%string
      /\ has_char sep d = false /\ has_char sep p = false.
Proof.
  revert d. induction s as [|c s IH]; intros d; cbn [split_on].
  - split; [done|]. intros [H _]. by destruct d.
  - destruct (decide (c = sep)) as [->|Hc].
    + split.
      * intros [= <- Hs]. apply split_on_one in Hs as [-> Hp]. done.
      * intros (Hs & Hd & Hp). destruct d as [|c' d].
        -- injection Hs as ->. f_equal. by apply split_on_one.
        -- rewrite string_app_cons in Hs. injection Hs as <- _.
           cbn [has_char] in Hd. by rewrite decide_True in Hd.
    + destruct (split_on sep s) as [|w ws] eqn:Hs; [by destruct (split_on_nonempty s)|].
      split.
      * intros [= <- ->]. destruct (proj1 (IH w) eq_refl) as (-> & Hw & Hp).
        rewrite string_app_cons. cbn [has_char]. by rewrite decide_False.
      * intros (Heq & Hd & Hp). destruct d as [|c' d].
        -- injection Heq as -> _. done.
        -- rewrite string_app_cons in Heq. injection Heq as <- ->.
           cbn [has_char] in Hd. rewrite decide_False in Hd by done.
           pose proof (proj2 (IH d) (conj eq_refl (conj Hd Hp))) as Heq.
           injection Heq as -> ->. done.
Qed.

End ScanIds.

Lemma domain_of_one_underscore_aux (scan_id domain : string) :
  domain_of scan_id = Ok domain
  <-> exists pid, scan_id = scan_id_of domain pid
                  /\ has_char "_" domain = false /\ has_char "_" pid = false.
Proof.
  unfold domain_of, scan_id_of. split.
  - destruct (split_on "_" scan_id) as [|d [|p [|x l]]] eqn:Hs; try done.
    intros [= ->]. exists p. by apply split_on_two.
  - intros (pid & Hs). apply split_on_two in Hs. by rewrite Hs.
Qed.

(** X10.  [domain, pid = scan_id.split("_")] succeeds exactly on the ids
    with one underscore, [domain_pid], and binds [domain] to the part before
    it; an id with no underscore or with several is a [ValueError]. *)
Theorem domain_of_one_underscore (scan_id domain : string) :
  (domain_of scan_id = Ok domain
   <-> exists pid, scan_id = scan_id_of domain pid
                   /\ has_char "_" domain = false /\ has_char "_" pid = false)
  /\ ((forall d pid, scan_id = scan_id_of d pid ->
         has_char "_" d = true \/ has_char "_" pid = true) ->
      domain_of scan_id = Raise ValueError).
Proof.
  split; [apply domain_of_one_underscore_aux|].
  intros Hbad. destruct (domain_of scan_id) as [d|e] eqn:Hd.
  - apply domain_of_one_underscore_aux in Hd as (pid & Hs & Hd & Hp).
    destruct (Hbad d pid Hs); congruence.
  - unfold domain_of in Hd.
    destruct (split_on "_" scan_id) as [|? [|? [|? ?]]]; congruence.
Qed.

(** ** Dice scores: range, perfect predictions, labels out of range *)

Section QcOrder.

Lemma Qc_of_nat_le (a b : nat) : (a <= b)%nat -> Qc_of_nat a <= Qc_of_nat b.
Proof.
  intros H. unfold Qc_of_nat, Qcle. cbn [this Q2Qc]. rewrite !Qred_correct.
  rewrite <- Zle_Qle. lia.
Qed.

Lemma Qc_of_nat_pos (n : nat) : (0 < n)%nat -> 0 < Qc_of_nat n.
Proof.
  intros H. unfold Qc_of_nat, Qclt. cbn [this Q2Qc]. rewrite !Qred_correct.
  change 0%Q with (inject_Z 0). rewrite <- Zlt_Qlt. lia.
Qed.

Lemma Qc_of_nat_add (a b : nat) :
  Qc_of_nat (a + b) = Qc_of_nat a + Qc_of_nat b.
Proof.
  unfold Qc_of_nat, Qcplus. apply Q2Qc_eq_iff. cbn [this Q2Qc].
  rewrite !Qred_correct, Nat2Z.inj_add, inject_Z_plus. reflexivity.
Qed.

Lemma Qc_of_nat_S (n : nat) : Qc_of_nat (S n) = 1 + Qc_of_nat n.
Proof.
  change (Qc_of_nat (1 + n) = Qc_of_nat 1 + Qc_of_nat n). apply Qc_of_nat_add.
Qed.

Lemma Qc_unit_quotient (a b : Qc) :
  0 <= a -> a <= b -> 0 < b -> 0 <= a / b /\ a / b <= 1.
Proof.
  intros Ha Hab Hb. pose proof (Qcinv_pos b Hb) as Hinv.
  assert (b <> 0) as Hne
    by (intros ->; by apply (Qcle_not_lt 0 0) in Hb).
  unfold Qcdiv. split.
  - apply Qcmult_nonneg_nonneg; [done | by apply Qclt_le_weak].
  - replace 1 with (b * / b) by (by apply Qcmult_inv_r).
    apply Qcmult_le_compat_r; [done | by apply Qclt_le_weak].
Qed.

End QcOrder.

Section DiceRange.

Lemma count_both_le (c : nat) (p g : list nat) :
  (count_both c p g <= count_eq c p)%nat /\ (count_both c p g <= count_eq c g)%nat.
Proof.
  unfold count_both, count_eq. revert g.
  induction p as [|x p IH]; intros [|y g]; cbn [zip zip_with];
    rewrite ?filter_nil; cbn [length]; try lia.
  change (zip_with pair p g) with (zip p g).
  destruct (IH g) as [IH1 IH2].
  destruct (decide (x = c)) as [Hx|Hx], (decide (y = c)) as [Hy|Hy].
  - rewrite !filter_cons_True by (cbn; done). cbn [length]. lia.
  - rewrite (filter_cons_False _ (x, y)) by (cbn; tauto).
    rewrite (filter_cons_True _ x) by done.
    rewrite (filter_cons_False _ y) by done. cbn [length]. lia.
  - rewrite (filter_cons_False _ (x, y)) by (cbn; tauto).
    rewrite (filter_cons_False _ x) by done.
    rewrite (filter_cons_True _ y) by done. cbn [length]. lia.
  - rewrite (filter_cons_False _ (x, y)) by (cbn; tauto).
    rewrite (filter_cons_False _ x) by done.
    rewrite (filter_cons_False _ y) by done. lia.
Qed.

Lemma spec_dice_unit (c : nat) (p g : list nat) : unit_score (spec_dice c p g).
Proof.
  unfold spec_dice. destruct (decide (count_eq c g = 0%nat)) as [Hz|Hz]; [done|].
  cbn [unit_score]. destruct (count_both_le c p g) as [Hp Hg].
  replace (2 * Qc_of_nat (count_both c p g))
    with (Qc_of_nat (count_both c p g + count_both c p g))
    by (rewrite Qc_of_nat_add; ring).
  apply Qc_unit_quotient.
  - apply (Qc_of_nat_le 0). lia.
  - apply Qc_of_nat_le. lia.
  - apply Qc_of_nat_pos. lia.
Qed.

End DiceRange.

Section MeanFacts.

Lemma Qc_sum_bounds (ds : list Qc) :
  Forall (fun q => 0 <= q /\ q <= 1) ds ->
  0 <= Qc_sum ds /\ Qc_sum ds <= Qc_of_nat (length ds).
Proof.
  induction 1 as [|q ds [Hq0 Hq1] _ [IH0 IH1]].
  - split; apply Qcle_refl.
  - change (Qc_sum (q :: ds)) with (q + Qc_sum ds). cbn [length].
    rewrite Qc_of_nat_S. split.
    + by apply Qcplus_nonneg_nonneg.
    + by apply Qcplus_le_compat.
Qed.

Lemma defined_entries_Forall (P : Qc -> Prop) (col : list npfloat) :
  Forall (fun x => match x with Fin q => P q | _ => True end) col ->
  Forall P (defined_entries col).
Proof.
  induction 1 as [|x col Hx _ IH]; [constructor|].
  destruct x; cbn; try done. by constructor.
Qed.

Lemma spec_mean_defined_unit (col : list npfloat) :
  Forall unit_score col -> unit_score (spec_mean_defined col).
Proof.
  intros Hcol. unfold spec_mean_defined.
  assert (Hds : Forall (fun q => 0 <= q /\ q <= 1) (defined_entries col)).
  { apply defined_entries_Forall. revert Hcol. apply Forall_impl.
    by intros []. }
  destruct (defined_entries col) as [|d ds]; [done|].
  destruct (Qc_sum_bounds _ Hds) as [H0 H1]. cbn [unit_score].
  apply Qc_unit_quotient; [done | done |]. apply Qc_of_nat_pos. cbn [length]. lia.
Qed.



Lemma column_Forall (P : npfloat -> Prop) (j : nat) (rows : list (list npfloat)) :
  P NaN -> Forall (Forall P) rows -> Forall P (column j rows).
Proof.
  intros HN H. unfold column. apply (Forall_map_impl _ _ _ _ H).
  intros r Hr. destruct (r !! j) as [x|] eqn:Hx; cbn; [|done].
  exact (proj1 (list.Forall_forall _ _) Hr x (list_elem_of_lookup_2 _ _ _ Hx)).
Qed.



End MeanFacts.

Section EvaluatorScores.
Variable logits : Type.
Variable model : images -> logits.
Variable argmax : logits -> labels.
Variable size1 : logits -> nat.

Lemma for_each_Raise_elem {A B : Type} (f : A -> result B) (xs : list A) (e : exn) :
  for_each f xs = Raise e -> exists x, x ∈ xs /\ f x = Raise e.
Proof.
  induction xs as [|x xs IH]; [done|]. cbn [for_each].
  destruct (f x) as [y|e'] eqn:Hx; cbn [mbind result_bind].
  - destruct (for_each f xs) as [ys|e'']; [done|]. cbn [mbind result_bind].
    intros [= ->]. destruct (IH eq_refl) as (x' & ? & ?).
    exists x'. split; [by right | done].
  - intros [= ->]. exists x. split; [by left | done].
Qed.

Lemma for_each_Ok_elem {A B : Type} (f : A -> result B) (xs : list A)
    (ys : list B) :
  for_each f xs = Ok ys -> forall x, x ∈ xs -> exists y, y ∈ ys /\ f x = Ok y.
Proof.
  revert ys. induction xs as [|x xs IH]; intros ys Hrun x0 Hin.
  - by apply elem_of_nil in Hin.
  - cbn [for_each] in Hrun.
    destruct (f x) as [y|] eqn:Hx; [|done]. cbn [mbind result_bind] in Hrun.
    destruct (for_each f xs) as [ys'|] eqn:Hrest; [|done].
    cbn [mbind result_bind] in Hrun. injection Hrun as <-.
    apply elem_of_cons in Hin as [->|Hin].
    + exists y. split; [by left | done].
    + destruct (IH ys' eq_refl x0 Hin) as (y0 & ? & ?).
      exists y0. split; [by right | done].
Qed.

Lemma for_each_Ok_map {A B : Type} (f : A -> result B) (g : A -> B)
    (xs : list A) (ys : list B) :
  (forall x y, x ∈ xs -> f x = Ok y -> y = g x) ->
  for_each f xs = Ok ys -> ys = map g xs.
Proof.
  revert ys. induction xs as [|x xs IH]; intros ys Hg Hrun.
  - by injection Hrun as <-.
  - cbn [for_each] in Hrun.
    destruct (f x) as [y|] eqn:Hx; [|done]. cbn [mbind result_bind] in Hrun.
    destruct (for_each f xs) as [ys'|] eqn:Hrest; [|done].
    cbn [mbind result_bind] in Hrun. injection Hrun as <-.
    cbn [map]. f_equal; [by apply Hg; [left|] |].
    apply IH; [|done]. intros x' y' Hin. apply Hg. by right.
Qed.

Lemma one_hot_Raise (num_c : nat) (xs : list nat) (e : exn) :
  one_hot num_c xs = Raise e -> e = RuntimeError.
Proof. unfold one_hot. destruct (bool_decide _); [done | by intros [= <-]]. Qed.

Lemma one_hot_Ok (num_c : nat) (xs : list nat) (y : list (list nat)) :
  one_hot num_c xs = Ok y -> Forall (fun v => v < num_c)%nat xs.
Proof.
  unfold one_hot. destruct (bool_decide _) eqn:Hd; [|done].
  intros _. by apply bool_decide_eq_true_1 in Hd.
Qed.

Lemma for_each_one_hot_Ok (num_c : nat) (t : labels) (ys : list (list (list nat))) :
  for_each (fun p => one_hot num_c (concat p)) t = Ok ys -> classes_below num_c t.
Proof.
  intros Hrun. apply list.Forall_forall. intros g Hin.
  destruct (for_each_Ok_elem _ _ _ Hrun g Hin) as (y & _ & Hy).
  apply one_hot_Ok in Hy. by apply Forall_concat_nested.
Qed.

Lemma batch_dice_Raise (num_c : nat) (pred lbl : labels) (e : exn) :
  batch_dice num_c pred lbl = Raise e -> e = RuntimeError.
Proof.
  unfold batch_dice.
  destruct (for_each _ pred) as [ps|e1] eqn:Hp; cbn [mbind result_bind].
  - destruct (for_each _ lbl) as [gs|e2] eqn:Hg; cbn [mbind result_bind]; [done|].
    intros [= <-]. apply for_each_Raise_elem in Hg as (g & _ & Hg).
    by apply one_hot_Raise in Hg.
  - intros [= <-]. apply for_each_Raise_elem in Hp as (p & _ & Hp).
    by apply one_hot_Raise in Hp.
Qed.

(** A batch that scores has class ids below [num_c] on both sides, and its
    rows are the Dice rows of its samples. *)
Lemma batch_dice_Ok (num_c : nat) (pred lbl : labels) (rows : list (list npfloat)) :
  batch_dice num_c pred lbl = Ok rows ->
  classes_below num_c pred /\ classes_below num_c lbl
  /\ rows = zip_with (spec_dice_row num_c) pred lbl.
Proof.
  intros Hrun.
  assert (classes_below num_c pred /\ classes_below num_c lbl) as [Hp Hl].
  { unfold batch_dice in Hrun.
    destruct (for_each _ pred) as [ps|] eqn:Hps; [|done].
    cbn [mbind result_bind] in Hrun.
    destruct (for_each _ lbl) as [gs|] eqn:Hgs; [|done].
    split; by eapply for_each_one_hot_Ok. }
  split; [done|]. split; [done|].
  rewrite (batch_dice_spec num_c pred lbl Hp Hl) in Hrun. by injection Hrun.
Qed.

Lemma batch_dice_bad_label (num_c : nat) (pred lbl : labels) :
  ~ classes_below num_c lbl -> batch_dice num_c pred lbl = Raise RuntimeError.
Proof.
  intros Hbad.
  destruct (batch_dice num_c pred lbl) as [rows|e] eqn:Hrun.
  - by destruct (batch_dice_Ok _ _ _ _ Hrun) as (_ & ? & _).
  - by rewrite (batch_dice_Raise _ _ _ _ Hrun).
Qed.

(** What [evaluate] returns, when it returns: the column-wise mean of the
    defined entries of the Dice rows of all samples. *)
Lemma evaluate_Ok (data_loader : list batch) (dices : list npfloat) :
  evaluate model argmax size1 data_loader = Ok dices ->
  exists rows,
    rows = concat (map (fun b => zip_with (spec_dice_row (size1 (model (b_images b))))
                                          (argmax (model (b_images b))) (b_labels b))
                       data_loader)
    /\ dices = map (fun j => np_nanmean (column j rows))
                   (seq 0 (length (default [] (head rows)))).
Proof.
  unfold evaluate. intros Hrun.
  destruct (for_each _ data_loader) as [arrays|] eqn:Harr; [|done].
  cbn [mbind result_bind] in Hrun.
  eapply (for_each_Ok_map _
            (fun b => zip_with (spec_dice_row (size1 (model (b_images b))))
                               (argmax (model (b_images b))) (b_labels b)))
    in Harr; last first.
  { intros b rows _ Hb. by destruct (batch_dice_Ok _ _ _ _ Hb) as (_ & _ & ->). }
  subst arrays. eexists. split; [reflexivity|].
  unfold np_concatenate in Hrun.
  destruct (map _ data_loader) as [|a arrays] eqn:Hmap; [done|].
  destruct (bool_decide _) in Hrun; [|done].
  cbn [mbind result_bind] in Hrun. by injection Hrun as <-.
Qed.

Lemma dice_rows_Forall (P : npfloat -> Prop) (data_loader : list batch) :
  (forall c p g, P (spec_dice c p g)) ->
  Forall (Forall P)
    (concat (map (fun b => zip_with (spec_dice_row (size1 (model (b_images b))))
                                    (argmax (model (b_images b))) (b_labels b))
                 data_loader)).
Proof.
  intros HP. apply Forall_concat_nested.
  apply Forall_map_impl with (P := fun _ => True); [by apply Forall_true|].
  intros b _. apply Forall_zip_with_left with (P := fun _ => True);
    [by apply Forall_true|].
  intros p g _. unfold spec_dice_row.
  apply Forall_map_impl with (P := fun _ => True); [by apply Forall_true|].
  intros c _. apply HP.
Qed.

(** X11.  Every score [evaluate] returns is a mean of Dice scores: it is
    [nan] (the class occurs in the ground truth of no sample) or lies in
    [[0, 1]]. *)
Theorem evaluate_scores_in_unit_interval (data_loader : list batch)
    (dices : list npfloat) :
  evaluate model argmax size1 data_loader = Ok dices ->
  Forall unit_score dices.
Proof.
  intros Hrun. destruct (evaluate_Ok data_loader dices Hrun) as (rows & Hrows & ->).
  pose proof (dice_rows_Forall unit_score data_loader spec_dice_unit) as Hunit.
  rewrite <- Hrows in Hunit.
  apply Forall_map_impl with (P := fun _ => True); [by apply Forall_true|].
  intros j _. rewrite np_nanmean_defined.
  - apply spec_mean_defined_unit. by apply column_Forall.
  - apply column_Forall; [done|]. revert Hunit. apply Forall_impl.
    intros r. apply Forall_impl. by intros [].
Qed.


(** X13.  A label that is not a class of the network (a value at or above
    [logits.size(1)]) in any batch makes [F.one_hot] fail: [evaluate] ends
    in a [RuntimeError] and returns no score at all. *)
Theorem evaluate_label_out_of_range (data_loader : list batch) (b : batch) :
  b ∈ data_loader ->
  ~ classes_below (size1 (model (b_images b))) (b_labels b) ->
  evaluate model argmax size1 data_loader = Raise RuntimeError.
Proof.
  intros Hb Hbad. unfold evaluate.
  destruct (for_each_raise
              (fun samples => batch_dice (size1 (model (b_images samples)))
                                         (argmax (model (b_images samples)))
                                         (b_labels samples))
              data_loader b Hb) as (y & e & _ & Hy & ->).
  { intros rows. by rewrite batch_dice_bad_label. }
  apply batch_dice_Raise in Hy as ->. reflexivity.
Qed.

End EvaluatorScores.

Lemma evaluate_scores_in_unit_interval_witness :
  exists dices,
    evaluate eval_model_demo id (fun _ => 3%nat) eval_loader_demo = Ok dices
    /\ Forall unit_score dices.
Proof.
  assert (exists dices,
    evaluate eval_model_demo id (fun _ => 3%nat) eval_loader_demo = Ok dices)
    as [dices Hrun] by (vm_compute; eexists; reflexivity).
  exists dices. split; [exact Hrun|].
  exact (evaluate_scores_in_unit_interval labels eval_model_demo id
           (fun _ => 3%nat) eval_loader_demo dices Hrun).
Defined.


Lemma evaluate_label_out_of_range_witness :
  evaluate eval_model_demo id (fun _ => 3%nat)
           (eval_loader_demo ++ [Batch clean_demo None [[[0; 3]; [1; 0]]]%nat])
  = Raise RuntimeError.
Proof.
  apply (evaluate_label_out_of_range labels eval_model_demo id (fun _ => 3%nat)
           _ (Batch clean_demo None [[[0; 3]; [1; 0]]]%nat)).
  - apply elem_of_app. right. by left.
  - intros H. revert H. apply (bool_decide_eq_false_1 _). vm_compute. reflexivity.
Defined.

(** ** Guidance mask: shape and smallest input *)

Section BlurShape.

Lemma kernel_29_taps : length (kernel1d pdf_29_10) = 29%nat.
Proof.
  unfold kernel1d, pdf_29_10, exp_neg_sq_200.
  rewrite length_map, length_app, length_reverse, length_drop, !length_map.
  reflexivity.
Qed.

Lemma blur_img_Ok (m : img) (h w : nat) :
  length m = h -> Forall (fun r => length r = w) m ->
  (15 <= h)%nat -> (15 <= w)%nat ->
  exists m',
    blur_img (kernel1d pdf_29_10) m = Ok m'
    /\ length m' = h /\ Forall (fun r => length r = w) m'.
Proof.
  intros Hh Hw Hh15 Hw15. unfold blur_img.
  assert (Hwidth : width m = w).
  { unfold width. destruct m as [|r m]; [cbn in Hh; lia|]. cbn.
    exact (Forall_inv Hw). }
  rewrite kernel_29_taps. unfold height. rewrite Hh, Hwidth.
  change (29 / 2)%nat with 14%nat.
  rewrite !bool_decide_eq_true_2 by lia. cbn [andb].
  eexists. split; [reflexivity|]. split.
  - by rewrite length_map, length_seq.
  - apply Forall_map_impl with (P := fun _ => True); [by apply Forall_true|].
    intros y _. by rewrite length_map, length_seq.
Qed.

Lemma blur_img_Raise (m : img) :
  (height m < 15)%nat \/ (width m < 15)%nat ->
  blur_img (kernel1d pdf_29_10) m = Raise RuntimeError.
Proof.
  intros Hsmall. unfold blur_img. rewrite kernel_29_taps.
  change (29 / 2)%nat with 14%nat.
  destruct Hsmall.
  - by rewrite (bool_decide_eq_false_2 (14 < height m)%nat) by lia.
  - rewrite (bool_decide_eq_false_2 (14 < width m)%nat) by lia.
    by destruct (bool_decide _).
Qed.

Lemma img_zip_shape (f : Qc -> Qc -> Qc) (h w : nat) (m m' : img) :
  length m = h /\ Forall (fun r => length r = w) m ->
  length m' = h /\ Forall (fun r => length r = w) m' ->
  length (img_zip f m m') = h /\ Forall (fun r => length r = w) (img_zip f m m').
Proof.
  unfold img_zip. intros [Hm Hrows] [Hm' Hrows']. split.
  - rewrite length_zip_with. lia.
  - clear Hm Hm'. revert m' Hrows'.
    induction Hrows as [|r m Hr _ IH]; intros [|r' m'] Hrows';
      cbn [zip_with]; constructor.
    + rewrite length_zip_with. pose proof (Forall_inv Hrows') as Hr'.
      cbn beta in Hr'. lia.
    + apply IH. exact (Forall_inv_tail Hrows').
Qed.

Lemma shaped_zip (f : Qc -> Qc -> Qc) (n h w : nat) (a b : maps) :
  shaped n h w a -> shaped n h w b -> shaped n h w (maps_zip f a b).
Proof.
  unfold shaped, maps_zip. intros [Hna Ha] [Hnb Hb]. split.
  - rewrite length_zip_with. lia.
  - clear Hna Hnb. revert b Hb. induction Ha as [|m a Hm _ IH];
      intros [|m' b] Hb; cbn [zip_with]; constructor.
    + apply img_zip_shape; [done | exact (Forall_inv Hb)].
    + apply IH. exact (Forall_inv_tail Hb).
Qed.

Lemma shaped_map (f : Qc -> Qc) (n h w : nat) (a : maps) :
  shaped n h w a -> shaped n h w (map (map (map f)) a).
Proof.
  unfold shaped. intros [Hn Ha]. split; [by rewrite length_map|].
  apply (Forall_map_impl _ _ _ _ Ha). intros m [Hm Hrows].
  split; [by rewrite length_map|].
  apply (Forall_map_impl _ _ _ _ Hrows). intros r Hr. by rewrite length_map.
Qed.

Lemma shaped_rescale (n h w : nat) (a : maps) :
  shaped n h w a -> shaped n h w (rescale_intensity a).
Proof.
  unfold shaped, rescale_intensity, rescale_img. intros [Hn Ha].
  split; [by rewrite length_map|].
  apply (Forall_map_impl _ _ _ _ Ha). intros m [Hm Hrows].
  split; [by rewrite length_map|].
  apply (Forall_map_impl _ _ _ _ Hrows). intros r Hr. by rewrite length_map.
Qed.

Lemma GaussianBlur_shaped (n h w : nat) (t : maps) :
  shaped n h w t -> (15 <= h)%nat -> (15 <= w)%nat ->
  exists t', GaussianBlur_29_10 t = Ok t' /\ shaped n h w t'.
Proof.
  unfold shaped, GaussianBlur_29_10. intros [Hn Ht] Hh Hw. revert n Hn.
  induction Ht as [|m t [Hm Hrows] _ IH]; intros n Hn.
  - exists []. by split.
  - destruct (blur_img_Ok m h w Hm Hrows Hh Hw) as (m' & Hblur & Hm' & Hrows').
    destruct (IH (length t) eq_refl) as (t' & Hrest & Hlen & Hshape).
    exists (m' :: t'). cbn [for_each]. rewrite Hblur. cbn [mbind result_bind].
    rewrite Hrest. cbn [mbind result_bind]. split; [done|]. split.
    + cbn [length]. rewrite Hlen. exact Hn.
    + by constructor.
Qed.

(** The combination of lines 167-169, before the blur. *)
Lemma fused_shaped (n h w : nat) (uc ua : maps) :
  shaped n h w uc -> shaped n h w ua ->
  shaped n h w
    (maps_map (fun x => x / 2)
       (maps_zip Qcplus (maps_map (fun x => x / 2) (maps_zip Qcplus uc ua))
                        (maps_zip Qc_max uc ua))).
Proof.
  intros Hc Ha. unfold maps_map.
  apply shaped_map, shaped_zip; [apply shaped_map|]; by apply shaped_zip.
Qed.

(** X14.  For uncertainty maps of at least 15 x 15 pixels the fused guidance
    mask is computed, and it has the shape of the maps. *)
Theorem fuse_UG_keeps_shape (n h w : nat) (uc ua : maps) :
  shaped n h w uc -> shaped n h w ua ->
  (15 <= h)%nat -> (15 <= w)%nat ->
  exists UG, fuse_UG uc ua = Ok UG /\ shaped n h w UG.
Proof.
  intros Hc Ha Hh Hw. unfold fuse_UG.
  destruct (GaussianBlur_shaped n h w _ (fused_shaped n h w uc ua Hc Ha) Hh Hw)
    as (t' & -> & Ht').
  cbn [mbind result_bind]. eexists. split; [reflexivity|].
  by apply shaped_rescale.
Qed.

(** X15.  The 29-tap blur pads by 14 pixels in reflect mode, which needs
    more than 14 pixels on each axis: for maps with fewer than 15 rows or
    columns the guidance mask is a [RuntimeError]. *)
Theorem fuse_UG_minimum_size (n h w : nat) (uc ua : maps) :
  shaped n h w uc -> shaped n h w ua ->
  (1 <= n)%nat -> (h < 15)%nat \/ (w < 15)%nat ->
  fuse_UG uc ua = Raise RuntimeError.
Proof.
  intros Hc Ha Hn Hsmall. unfold fuse_UG.
  pose proof (fused_shaped n h w uc ua Hc Ha) as [Hlen Hshape].
  destruct (maps_map _ _) as [|m t]; [cbn in Hlen; lia|].
  destruct (Forall_inv Hshape) as [Hm Hrows].
  unfold GaussianBlur_29_10. cbn [for_each].
  rewrite blur_img_Raise; [done|].
  unfold height, width. destruct Hsmall as [?|?]; [left; lia|].
  destruct m as [|r m]; [left; cbn; lia|]. right. cbn.
  pose proof (Forall_inv Hrows) as Hr. cbn beta in Hr. lia.
Qed.

End BlurShape.

(** ** Coverage ratio and blend: ranges *)

Section CoverageRange.

Local Abbreviation weigh := (fun (g : nat) (u : Qc) => Qc_of_nat g * u).
Local Abbreviation ones := (fun l : list nat => length (filter (fun v => v = 1%nat) l)).

Lemma Qc_of_nat_nonneg (n : nat) : 0 <= Qc_of_nat n.
Proof. apply (Qc_of_nat_le 0). lia. Qed.

Lemma row_covered (gr : list nat) (ur : list Qc) :
  Forall (fun v => v <= 1)%nat gr -> Forall (fun u => 0 <= u /\ u <= 1) ur ->
  0 <= Qc_sum (zip_with weigh gr ur)
  /\ Qc_sum (zip_with weigh gr ur) <= Qc_of_nat (ones gr).
Proof.
  intros Hg. revert ur. induction Hg as [|g gr Hg1 _ IH]; intros ur Hu.
  - cbn. split; apply Qcle_refl.
  - destruct ur as [|u ur].
    + cbn [zip_with]. split; [apply Qcle_refl | apply Qc_of_nat_nonneg].
    + destruct (Forall_inv Hu) as [Hu0 Hu1].
      destruct (IH ur (Forall_inv_tail Hu)) as [IH0 IH1].
      cbn [zip_with]. change (Qc_sum (?x :: ?l)) with (x + Qc_sum l).
      destruct (decide (g = 1%nat)) as [->|Hg0].
      * rewrite filter_cons_True by done. cbn [length].
        change (Qc_of_nat 1) with 1. rewrite Qcmult_1_l, Qc_of_nat_S.
        split; [by apply Qcplus_nonneg_nonneg | by apply Qcplus_le_compat].
      * rewrite filter_cons_False by done.
        replace g with 0%nat by lia. change (Qc_of_nat 0) with 0.
        replace (0 * u + Qc_sum (zip_with weigh gr ur))
          with (Qc_sum (zip_with weigh gr ur)) by ring.
        done.
Qed.

Lemma img_covered (gm : list (list nat)) (um : img) :
  Forall (Forall (fun v => v <= 1)%nat) gm ->
  Forall (Forall (fun u => 0 <= u /\ u <= 1)) um ->
  0 <= Qc_sum (concat (zip_with (zip_with weigh) gm um))
  /\ Qc_sum (concat (zip_with (zip_with weigh) gm um)) <= Qc_of_nat (ones (concat gm)).
Proof.
  intros Hg. revert um. induction Hg as [|gr gm Hgr _ IH]; intros um Hu.
  - cbn. split; apply Qcle_refl.
  - destruct um as [|ur um].
    + cbn [zip_with concat]. split; [apply Qcle_refl | apply Qc_of_nat_nonneg].
    + destruct (row_covered gr ur Hgr (Forall_inv Hu)) as [H0 H1].
      destruct (IH um (Forall_inv_tail Hu)) as [IH0 IH1].
      cbn [zip_with concat].
      rewrite Qc_sum_app, list.filter_app, length_app, Qc_of_nat_add.
      split; [by apply Qcplus_nonneg_nonneg | by apply Qcplus_le_compat].
Qed.

Lemma maps_covered (gt : labels) (UG : maps) :
  Forall (Forall (Forall (fun v => v <= 1)%nat)) gt -> in_unit UG ->
  0 <= maps_sum (labels_times gt UG)
  /\ maps_sum (labels_times gt UG) <= Qc_of_nat (count_ones gt).
Proof.
  unfold in_unit, maps_sum, labels_times, count_ones.
  intros Hg. revert UG. induction Hg as [|gm gt Hgm _ IH]; intros UG Hu.
  - cbn. split; apply Qcle_refl.
  - destruct UG as [|um UG].
    + cbn [zip_with concat]. split; [apply Qcle_refl | apply Qc_of_nat_nonneg].
    + destruct (img_covered gm um Hgm (Forall_inv Hu)) as [H0 H1].
      destruct (IH UG (Forall_inv_tail Hu)) as [IH0 IH1].
      cbn [zip_with concat].
      rewrite !concat_app, Qc_sum_app, list.filter_app, length_app, Qc_of_nat_add.
      split; [by apply Qcplus_nonneg_nonneg | by apply Qcplus_le_compat].
Qed.

(** X16.  The coverage ratio is the mean of the guidance mask over the
    foreground pixels: for a mask with entries in [[0, 1]] and a label with
    at least one foreground pixel it is a number in [[0, 1]], so the test
    against 0.5 is a genuine threshold. *)
Theorem coverage_ratio_in_unit_interval (lbl : labels) (UG : maps) :
  same_shape lbl UG -> in_unit UG ->
  (0 < count_ones (binarize lbl))%nat ->
  exists q, coverage_ratio lbl UG = Fin q /\ 0 <= q /\ q <= 1.
Proof.
  intros _ Hu Hfg. unfold coverage_ratio, np_div_int.
  rewrite decide_False by lia.
  destruct (maps_covered (binarize lbl) UG (binarize_le_1 lbl) Hu) as [H0 H1].
  eexists. split; [reflexivity|].
  apply Qc_unit_quotient; [done | done |]. by apply Qc_of_nat_pos.
Qed.

Lemma blend_between (x a u : Qc) :
  0 <= u -> u <= 1 -> x <= a ->
  x <= x * u + a * (1 - u) /\ x * u + a * (1 - u) <= a.
Proof.
  intros Hu0 Hu1 Hxa.
  assert (Hv0 : 0 <= 1 - u) by (apply Qcle_minus_iff in Hu1; exact Hu1).
  split.
  - apply Qcle_trans with (x * u + x * (1 - u)).
    + replace (x * u + x * (1 - u)) with x by ring. apply Qcle_refl.
    + apply Qcplus_le_compat; [apply Qcle_refl|]. by apply Qcmult_le_compat_r.
  - apply Qcle_trans with (a * u + a * (1 - u)).
    + apply Qcplus_le_compat; [|apply Qcle_refl]. by apply Qcmult_le_compat_r.
    + replace (a * u + a * (1 - u)) with a by ring. apply Qcle_refl.
Qed.

(** X17.  In the blend branch every entry of the mixed input lies between
    the clean and the augmented entry, for a mask value in [[0, 1]]. *)
Theorem mixed_blend_between (CFAT_img LFAT_img : images) (lbl : labels) (UG : maps)
    (n c h w : nat) (x a u : Qc) :
  np_lt (coverage_ratio lbl UG) (1 / 2) = true ->
  at4 CFAT_img n c h w = Some x -> at4 LFAT_img n c h w = Some a ->
  at3 UG n h w = Some u ->
  0 <= u -> u <= 1 ->
  exists m,
    at4 (mixed_input CFAT_img LFAT_img lbl UG) n c h w = Some m
    /\ Qc_min x a <= m /\ m <= Qc_max x a.
Proof.
  intros Hlt Hx Ha Hu Hu0 Hu1. unfold mixed_input, detach. rewrite Hlt.
  exists (x * u + a * (1 - u)). split.
  - apply (at4_images_zip Qcplus).
    + by apply (at4_images_zip_bc Qcmult).
    + apply (at4_images_zip_bc Qcmult); [done|].
      unfold maps_map. by rewrite at3_map, Hu.
  - unfold Qc_min, Qc_max. destruct (decide (x <= a)) as [Hxa|Hxa].
    + by apply blend_between.
    + apply Qcnot_le_lt, Qclt_le_weak in Hxa.
      replace (x * u + a * (1 - u)) with (a * (1 - u) + x * (1 - (1 - u))) by ring.
      apply blend_between; [|  | done].
      * apply Qcle_minus_iff in Hu1. exact Hu1.
      * apply Qcle_minus_iff. by replace (1 + - (1 - u)) with u by ring.
Qed.

End CoverageRange.

Lemma fuse_UG_keeps_shape_witness :
  exists UG, fuse_UG [spike] [spike] = Ok UG /\ shaped 1 15 15 UG.
Proof.
  apply (fuse_UG_keeps_shape 1 15 15 [spike] [spike]).
  - split; [reflexivity|]. by_computation.
  - split; [reflexivity|]. by_computation.
  - lia.
  - lia.
Defined.

Lemma fuse_UG_minimum_size_witness :
  fuse_UG [short_map] [short_map] = Raise RuntimeError.
Proof.
  apply (fuse_UG_minimum_size 1 14 15 [short_map] [short_map]).
  - split; [reflexivity|]. by_computation.
  - split; [reflexivity|]. by_computation.
  - lia.
  - left. lia.
Defined.

Lemma coverage_ratio_in_unit_interval_witness :
  exists q, coverage_ratio lbl_demo UG_demo = Fin q /\ 0 <= q /\ q <= 1.
Proof.
  apply (coverage_ratio_in_unit_interval lbl_demo UG_demo).
  - repeat constructor.
  - unfold in_unit, UG_demo. repeat constructor; by_computation.
  - by_computation.
Defined.

Lemma mixed_blend_between_witness :
  np_lt (coverage_ratio lbl_demo [[[half; 0]; [0; half]]]) (1 / 2) = true
  /\ exists m,
       at4 (mixed_input clean_demo aug_demo lbl_demo [[[half; 0]; [0; half]]])
           0 0 0 0 = Some m
       /\ Qc_min 1 0 <= m /\ m <= Qc_max 1 0.
Proof.
  split; [vm_compute; reflexivity|].
  apply (mixed_blend_between clean_demo aug_demo lbl_demo [[[half; 0]; [0; half]]]
           0 0 0 0 1 0 half).
  - vm_compute. reflexivity.
  - reflexivity.
  - reflexivity.
  - reflexivity.
  - by_computation.
  - by_computation.
Defined.

(** ** [eval_list_wrapper]: the entries of [error_dict] *)

Section MeanOfNaN.

Lemma foldl_np_add_NaN (xs : list npfloat) : foldl np_add NaN xs = NaN.
Proof. induction xs as [|x xs IH]; [done|]. cbn [foldl np_add]. exact IH. Qed.

Lemma np_sum_NaN (acc : npfloat) (xs : list npfloat) :
  NaN ∈ xs -> foldl np_add acc xs = NaN.
Proof.
  revert acc. induction xs as [|x xs IH]; intros acc Hin.
  - by apply elem_of_nil in Hin.
  - cbn [foldl]. apply elem_of_cons in Hin as [<-|Hin]; [|by apply IH].
    replace (np_add acc NaN) with NaN by (by destruct acc).
    apply foldl_np_add_NaN.
Qed.

(** [np.mean] does not skip [nan]: one undefined entry makes the mean
    undefined. *)
Lemma np_mean_NaN (xs : list npfloat) : NaN ∈ xs -> np_mean xs = NaN.
Proof. intros Hin. unfold np_mean, np_sum. by rewrite np_sum_NaN. Qed.

End MeanOfNaN.

Section StringEnds.

Lemma string_app_nil_inv (s t : string) : (s ++ t)%string = ""%string -> t = ""%string.
Proof. destruct s; [done|]. rewrite string_app_cons. discriminate. Qed.

Lemma last_char_app (s t : string) :
  t <> ""%string -> last_char (s ++ t) = last_char t.
Proof.
  intros Ht. induction s as [|c s IH]; [done|].
  rewrite string_app_cons. cbn [last_char].
  destruct (s ++ t)%string eqn:Hst; [|exact IH].
  by apply string_app_nil_inv in Hst.
Qed.

Lemma overall_ne_table (d d' : string) :
  ("domain_" ++ d ++ "_overall" <> "domain_" ++ d' ++ "_table")%string.
Proof.
  intros H. apply String.app_inj in H.
  apply (f_equal last_char) in H. rewrite !last_char_app in H by done.
  discriminate H.
Qed.

Lemma overall_key_inj (d d' : string) :
  ("domain_" ++ d ++ "_overall" = "domain_" ++ d' ++ "_overall")%string -> d = d'.
Proof. intros H. apply String.app_inj in H. by apply string_app_inj_suffix in H. Qed.

Lemma table_key_inj (d d' : string) :
  ("domain_" ++ d ++ "_table" = "domain_" ++ d' ++ "_table")%string -> d = d'.
Proof. intros H. apply String.app_inj in H. by apply string_app_inj_suffix in H. Qed.

End StringEnds.

Section ErrorDict.

(** The value of [eval_list_wrapper] when every scan id parses and every
    volume scores. *)
Lemma eval_list_wrapper_value (vol_list : dict vol_entry) (nclass : nat)
    (label_name : list string) (scored : list (string * list npfloat)) :
  for_each (score_scan nclass) vol_list = Ok scored ->
  (nclass <= length label_name)%nat ->
  exists tables ed1,
    tables_group tables scored
    /\ organ_loop label_name (map snd scored) (seq 0 nclass) [] = Ok ed1
    /\ eval_list_wrapper vol_list nclass label_name
       = Ok (setitem
               (domain_loop tables
                  (setitem ed1 "overall" (VFloat (spec_overall scored))) [] []).1.1
               "overall_by_domain" (VFloat (spec_overall_by_domain scored)),
             map snd scored, first_occurrences (map fst scored)).
Proof.
  intros Hs Hn.
  destruct (scan_loop_spec nclass vol_list [] [] [] scored) as (tables & Hloop & Hg);
    [by split | done |].
  cbn [app] in Hloop, Hg.
  destruct (organ_loop_ok label_name (map snd scored) (seq 0 nclass) [])
    as [ed1 Hed1].
  { apply list.Forall_forall. intros organ Ho. apply elem_of_seq in Ho. lia. }
  exists tables, ed1. split; [done|]. split; [done|].
  unfold eval_list_wrapper. rewrite Hloop. cbn [mbind result_bind fst snd].
  rewrite Hed1. cbn [mbind result_bind].
  destruct (domain_loop_lists tables
              (setitem ed1 "overall"
                       (VFloat (mean_without_background (map snd scored)))) [] [])
    as [Hmeans Hnames].
  rewrite Hnames, Hmeans. cbn [app].
  rewrite (grouped_means tables scored Hg).
  destruct Hg as [-> _]. reflexivity.
Qed.

Lemma one_hot_value (num_c : nat) (xs : list nat) (y : list (list nat)) :
  one_hot num_c xs = Ok y ->
  y = map (fun c => map (fun v => if decide (v = c) then 1%nat else 0%nat) xs)
          (seq 0 num_c).
Proof. unfold one_hot. destruct (bool_decide _); [by intros [= <-] | done]. Qed.

(** Line 338: the score row of a volume, class by class, background
    included. *)
Lemma scan_dice_value (nclass : nat) (p g : volume) (row : list npfloat) :
  scan_dice nclass (VolEntry (Some p) (Some g)) = Ok row ->
  row = map (fun c => spec_dice c (concat (concat p)) (concat (concat g)))
            (seq 0 nclass).
Proof.
  unfold scan_dice. cbn [v_pred v_gth lookup_key mbind result_bind].
  destruct (one_hot nclass (concat (concat p))) as [yp|] eqn:Hp; [|done].
  destruct (one_hot nclass (concat (concat g))) as [yg|] eqn:Hg; [|done].
  cbn [mbind result_bind]. intros [= <-].
  apply one_hot_value in Hp as ->. apply one_hot_value in Hg as ->.
  unfold compute_meandice. rewrite zip_with_map_same.
  apply map_ext. intros c. apply dice_channel_spec.
Qed.

Lemma elem_of_drop_1 {A : Type} (l : list A) (i : nat) (x : A) :
  (1 <= i)%nat -> l !! i = Some x -> x ∈ drop 1 l.
Proof.
  intros Hi Hx. apply (list_elem_of_lookup_2 _ (i - 1)).
  rewrite lookup_drop. by replace (1 + (i - 1))%nat with i by lia.
Qed.

Lemma elem_of_concat_map {A B : Type} (f : A -> list B) (l : list A) (x : A) (y : B) :
  x ∈ l -> y ∈ f x -> y ∈ concat (map f l).
Proof.
  intros Hx Hy. induction l as [|a l IH]; [by apply elem_of_nil in Hx|].
  cbn [map concat]. apply elem_of_app.
  apply elem_of_cons in Hx as [->|Hx]; [by left | right; by apply IH].
Qed.

Lemma elem_of_map_2 {A B : Type} (f : A -> B) (l : list A) (x : A) :
  x ∈ l -> f x ∈ map f l.
Proof.
  intros Hx. induction l as [|a l IH]; [by apply elem_of_nil in Hx|].
  cbn [map]. apply elem_of_cons in Hx as [->|Hx]; [by left | right; by apply IH].
Qed.

Lemma organ_loop_get (label_name : list string) (dsc_table : list (list npfloat))
    (organs : list nat) (acc ed : dict evalue) :
  NoDup organs ->
  (forall o1 o2 n, o1 ∈ organs -> o2 ∈ organs ->
     label_name !! o1 = Some n -> label_name !! o2 = Some n -> o1 = o2) ->
  organ_loop label_name dsc_table organs acc = Ok ed ->
  (forall key, (forall organ, organ ∈ organs -> label_name !! organ <> Some key) ->
     get ed key = get acc key)
  /\ (forall organ name, organ ∈ organs -> label_name !! organ = Some name ->
        get ed name = Some (VFloat (np_mean (column organ dsc_table)))).
Proof.
  revert acc. induction organs as [|organ organs IH]; intros acc Hnd Hinj Hrun.
  - injection Hrun as <-. split; [done|]. intros o n Ho. by apply elem_of_nil in Ho.
  - cbn [organ_loop] in Hrun.
    destruct (label_name !! organ) as [name0|] eqn:Hname0; [|done].
    cbn [mbind result_bind] in Hrun.
    pose proof (NoDup_cons_1_1 _ _ Hnd) as Hfresh.
    apply NoDup_cons_1_2 in Hnd.
    destruct (IH _ Hnd (fun o1 o2 n H1 H2 => Hinj o1 o2 n (list_elem_of_further _ _ _ H1)
                                              (list_elem_of_further _ _ _ H2)) Hrun)
      as [Hout Hin].
    split.
    + intros key Hkey. rewrite Hout.
      * apply get_setitem_ne. intros ->. by apply (Hkey organ); [left|].
      * intros o Ho. apply Hkey. by right.
    + intros o name Ho Hname. apply elem_of_cons in Ho as [->|Ho]; [|by apply Hin].
      rewrite Hname0 in Hname. injection Hname as ->.
      rewrite Hout; [by rewrite get_setitem_eq|].
      intros o Ho Ho'. apply Hfresh.
      by rewrite (Hinj organ o name ltac:(left) ltac:(by right) Hname0 Ho').
Qed.

Lemma domain_loop_get_other (key : string) (tables : list (string * domain_table))
    (error_dict : dict evalue) (acc : list npfloat) (names : list string) :
  (forall d, d ∈ keys tables ->
     key <> ("domain_" ++ d ++ "_overall")%string
     /\ key <> ("domain_" ++ d ++ "_table")%string) ->
  get (domain_loop tables error_dict acc names).1.1 key = get error_dict key.
Proof.
  revert error_dict acc names.
  induction tables as [|[d t] tables IH]; intros error_dict acc names Hkey; [done|].
  cbn [domain_loop]. rewrite IH.
  - destruct (Hkey d ltac:(left)) as [Ho Ht].
    by rewrite !get_setitem_ne by congruence.
  - intros d' Hd'. apply Hkey. by right.
Qed.

Lemma domain_loop_entries (tables : list (string * domain_table))
    (error_dict : dict evalue) (acc : list npfloat) (names : list string)
    (d : string) (t : domain_table) :
  NoDup (keys tables) -> (d, t) ∈ tables ->
  get (domain_loop tables error_dict acc names).1.1 ("domain_" ++ d ++ "_overall")
  = Some (VFloat (mean_without_background (scores t)))
  /\ get (domain_loop tables error_dict acc names).1.1 ("domain_" ++ d ++ "_table")
     = Some (VTable (scores t)).
Proof.
  revert error_dict acc names.
  induction tables as [|[d0 t0] tables IH]; intros error_dict acc names Hnd Hin.
  { by apply elem_of_nil in Hin. }
  pose proof (NoDup_cons_1_1 _ _ Hnd) as Hfresh.
  apply NoDup_cons_1_2 in Hnd.
  cbn [domain_loop]. apply elem_of_cons in Hin as [[= <- <-]|Hin]; [|by apply IH].
  assert (Hother : forall d', d' ∈ keys tables -> d <> d')
    by (intros d' Hd' <-; by apply Hfresh).
  assert (Hne : forall d1 d2,
            ("domain_" ++ d1 ++ "_table" <> "domain_" ++ d2 ++ "_overall")%string).
  { intros d1 d2 H. symmetry in H. by apply overall_ne_table in H. }
  split.
  - rewrite domain_loop_get_other.
    + rewrite get_setitem_ne by apply Hne. by rewrite get_setitem_eq.
    + intros d' Hd'. split; [|apply overall_ne_table].
      intros H. apply overall_key_inj in H. by apply (Hother d').
  - rewrite domain_loop_get_other.
    + by rewrite get_setitem_eq.
    + intros d' Hd'. split; [apply Hne|].
      intros H. apply table_key_inj in H. by apply (Hother d').
Qed.

Lemma take_lookup_inj (names : list string) (n o1 o2 : nat) (name : string) :
  NoDup (take n names) -> (o1 < n)%nat -> (o2 < n)%nat ->
  names !! o1 = Some name -> names !! o2 = Some name -> o1 = o2.
Proof.
  intros Hnd H1 H2 Hn1 Hn2.
  apply (proj1 (NoDup_alt _) Hnd o1 o2 name); by rewrite lookup_take_lt.
Qed.

Lemma scan_loop_scored (nclass : nat) (vol_list : list (string * vol_entry))
    (tables : dict domain_table) (dsc_table : list (list npfloat))
    (r : dict domain_table * list (list npfloat)) :
  scan_loop nclass vol_list tables dsc_table = Ok r ->
  exists scored, for_each (score_scan nclass) vol_list = Ok scored.
Proof.
  revert tables dsc_table. induction vol_list as [|[id comp] vol_list IH];
    intros tables dsc_table Hrun; [by eexists|].
  cbn [scan_loop] in Hrun. cbn [for_each].
  destruct (domain_of id) as [d|] eqn:Hd; [|done]. cbn [mbind result_bind] in Hrun.
  destruct (scan_dice nclass comp) as [row|] eqn:Hrow; [|done].
  cbn [mbind result_bind] in Hrun.
  destruct (getitem _ d) as [t|] in Hrun; [|done]. cbn [mbind result_bind] in Hrun.
  assert (Hsc : score_scan nclass (id, comp) = Ok (d, row)).
  { unfold score_scan. cbn [fst snd]. rewrite Hd. cbn [mbind result_bind].
    by rewrite Hrow. }
  rewrite Hsc. cbn [mbind result_bind].
  destruct (IH _ _ Hrun) as [scored ->]. by eexists.
Qed.

Lemma organ_loop_bound (label_name : list string) (dsc_table : list (list npfloat))
    (organs : list nat) (acc ed : dict evalue) :
  organ_loop label_name dsc_table organs acc = Ok ed ->
  Forall (fun organ => organ < length label_name)%nat organs.
Proof.
  revert acc. induction organs as [|organ organs IH]; intros acc Hrun; [constructor|].
  cbn [organ_loop] in Hrun.
  destruct (label_name !! organ) as [name|] eqn:Hname; [|done].
  cbn [mbind result_bind] in Hrun. constructor; [|by apply (IH _ Hrun)].
  by apply lookup_lt_Some in Hname.
Qed.


(** What [eval_list_wrapper] returns, when it returns. *)
Lemma eval_list_wrapper_Ok (vol_list : dict vol_entry) (nclass : nat)
    (label_name : list string) (error_dict : dict evalue)
    (dsc_table : list (list npfloat)) (domain_names : list string) :
  eval_list_wrapper vol_list nclass label_name
  = Ok (error_dict, dsc_table, domain_names) ->
  exists scored tables ed1,
    for_each (score_scan nclass) vol_list = Ok scored
    /\ (nclass <= length label_name)%nat
    /\ tables_group tables scored
    /\ organ_loop label_name (map snd scored) (seq 0 nclass) [] = Ok ed1
    /\ error_dict
       = setitem
           (domain_loop tables
              (setitem ed1 "overall" (VFloat (spec_overall scored))) [] []).1.1
           "overall_by_domain" (VFloat (spec_overall_by_domain scored))
    /\ dsc_table = map snd scored
    /\ domain_names = first_occurrences (map fst scored).
Proof.
  intros Hrun.
  assert (exists scored, for_each (score_scan nclass) vol_list = Ok scored)
    as [scored Hs].
  { unfold eval_list_wrapper in Hrun.
    destruct (scan_loop nclass vol_list [] []) as [r1|] eqn:Hloop; [|done].
    by apply scan_loop_scored in Hloop. }
  assert (nclass <= length label_name)%nat as Hn.
  { unfold eval_list_wrapper in Hrun.
    destruct (scan_loop nclass vol_list [] []) as [r1|] eqn:Hloop; [|done].
    cbn [mbind result_bind] in Hrun.
    destruct (organ_loop _ _ _ _) as [ed1|] eqn:Hed1; [|done].
    apply organ_loop_bound in Hed1. destruct nclass as [|n]; [lia|].
    pose proof (proj1 (list.Forall_forall _ _) Hed1 n) as Hlast.
    cbn beta in Hlast. specialize (Hlast ltac:(apply elem_of_seq; lia)). lia. }
  destruct (eval_list_wrapper_value vol_list nclass label_name scored Hs Hn)
    as (tables & ed1 & Hg & Hed1 & Hval).
  rewrite Hval in Hrun. injection Hrun as <- <- <-.
  exists scored, tables, ed1. done.
Qed.

(** X18.  [eval_list_wrapper] averages with [np.mean], which does not skip
    [nan]: when the ground truth of a single scan has no voxel of some class
    other than the background, that scan's Dice for the class is [nan], and
    so are the [overall] mean and the [overall_by_domain] mean that the
    function returns. *)
Theorem eval_list_wrapper_absent_class (vol_list : dict vol_entry) (nclass : nat)
    (label_name : list string) (error_dict : dict evalue)
    (dsc_table : list (list npfloat)) (domain_names : list string)
    (scan_id : string) (p g : volume) (c : nat) :
  eval_list_wrapper vol_list nclass label_name
  = Ok (error_dict, dsc_table, domain_names) ->
  (scan_id, VolEntry (Some p) (Some g)) ∈ vol_list ->
  (1 <= c < nclass)%nat ->
  count_eq c (concat (concat g)) = 0%nat ->
  get error_dict "overall" = Some (VFloat NaN)
  /\ get error_dict "overall_by_domain" = Some (VFloat NaN).
Proof.
  intros Hrun Hin Hc Habsent.
  destruct (eval_list_wrapper_Ok _ _ _ _ _ _ Hrun)
    as (scored & tables & ed1 & Hs & Hn & Hg & Hed1 & -> & -> & ->).
  destruct (for_each_Ok_elem _ _ _ Hs _ Hin) as ([d row] & Hrow & Hscore).
  unfold score_scan in Hscore. cbn [fst snd] in Hscore.
  destruct (domain_of scan_id) as [d'|]; [|done]. cbn [mbind result_bind] in Hscore.
  destruct (scan_dice nclass _) as [row'|] eqn:Hdice; [|done].
  cbn [mbind result_bind] in Hscore. injection Hscore as -> ->.
  apply scan_dice_value in Hdice.
  assert (Hnan : NaN ∈ drop 1 row).
  { apply (elem_of_drop_1 _ c); [lia|]. rewrite Hdice.
    rewrite lookup_map, lookup_seq_lt by lia. cbn.
    unfold spec_dice. by rewrite decide_True. }
  assert (Hoverall : spec_overall scored = NaN).
  { unfold spec_overall. apply np_mean_NaN.
    apply (elem_of_concat_map _ _ row); [|done].
    by apply (elem_of_map_2 snd _ (d, row)). }
  assert (Hdomain : spec_domain_mean d scored = NaN).
  { unfold spec_domain_mean. apply np_mean_NaN.
    apply (elem_of_concat_map _ _ row); [|done].
    unfold rows_of_domain. apply (elem_of_map_2 snd _ (d, row)).
    by apply list_elem_of_filter. }
  split.
  - rewrite get_setitem_ne by done.
    rewrite domain_loop_get by (intros d0; cbn; discriminate).
    by rewrite get_setitem_eq, Hoverall.
  - rewrite get_setitem_eq. do 2 f_equal. unfold spec_overall_by_domain.
    apply np_mean_NaN. rewrite <- Hdomain.
    apply (elem_of_map_2 (fun d => spec_domain_mean d scored)).
    apply first_occurrences_elem. by apply (elem_of_map_2 fst _ (d, row)).
Qed.

(** X19.  Lines 350-354, read back: when the label names of the classes are
    distinct and none is a key the function writes itself, the entry of the
    returned [error_dict] under the name of class [c] is the [np.mean] of
    column [c] of the returned score table, background included. *)
Theorem eval_list_wrapper_class_entries (vol_list : dict vol_entry) (nclass : nat)
    (label_name : list string) (error_dict : dict evalue)
    (dsc_table : list (list npfloat)) (domain_names : list string)
    (c : nat) (name : string) :
  eval_list_wrapper vol_list nclass label_name
  = Ok (error_dict, dsc_table, domain_names) ->
  NoDup (take nclass label_name) ->
  Forall (fun name => ~ reserved_key name) (take nclass label_name) ->
  (c < nclass)%nat -> label_name !! c = Some name ->
  get error_dict name = Some (VFloat (np_mean (column c dsc_table))).
Proof.
  intros Hrun Hnd Hfree Hc Hname.
  destruct (eval_list_wrapper_Ok _ _ _ _ _ _ Hrun)
    as (scored & tables & ed1 & Hs & Hn & Hg & Hed1 & -> & -> & ->).
  assert (Hres : ~ reserved_key name).
  { apply (proj1 (list.Forall_forall _ _) Hfree name).
    apply (list_elem_of_lookup_2 _ c). by rewrite lookup_take_lt. }
  unfold reserved_key in Hres.
  rewrite get_setitem_ne by (intros <-; apply Hres; right; by left).
  rewrite domain_loop_get; last first.
  { intros d ->. apply Hres. do 2 right. exists d. by right. }
  { intros d ->. apply Hres. do 2 right. exists d. by left. }
  rewrite get_setitem_ne by (intros <-; apply Hres; by left).
  refine (proj2 (organ_loop_get label_name (map snd scored) (seq 0 nclass) [] ed1
                   (NoDup_seq 0 nclass) _ Hed1) c name _ Hname).
  - intros o1 o2 n Ho1 Ho2. apply elem_of_seq in Ho1, Ho2.
    apply (take_lookup_inj label_name nclass); [done | lia | lia].
  - apply elem_of_seq. lia.
Qed.

Lemma domain_rows_scored (nclass : nat) (d : string) (vol_list : dict vol_entry)
    (scored : list (string * list npfloat)) :
  for_each (score_scan nclass) vol_list = Ok scored ->
  domain_rows d vol_list (map snd scored) = rows_of_domain d scored.
Proof.
  unfold domain_rows, rows_of_domain. revert scored.
  induction vol_list as [|[id comp] vol_list IH]; intros scored Hs.
  - by injection Hs as <-.
  - cbn [for_each] in Hs.
    destruct (score_scan nclass (id, comp)) as [[d' row]|] eqn:Hsc; [|done].
    cbn [mbind result_bind] in Hs.
    destruct (for_each (score_scan nclass) vol_list) as [rest|] eqn:Hrest; [|done].
    cbn [mbind result_bind] in Hs. injection Hs as <-.
    unfold score_scan in Hsc. cbn [fst snd] in Hsc.
    destruct (domain_of id) as [d0|] eqn:Hd; [|done]. cbn [mbind result_bind] in Hsc.
    destruct (scan_dice nclass comp) as [row0|]; [|done].
    cbn [mbind result_bind] in Hsc. injection Hsc as -> ->.
    cbn [map zip zip_with omap list_omap fst snd]. rewrite Hd.
    change (zip_with pair vol_list (map snd rest)) with (zip vol_list (map snd rest)).
    rewrite (IH rest eq_refl).
    destruct (decide (d' = d)) as [->|Hne].
    + by rewrite filter_cons_True by done.
    + by rewrite filter_cons_False by done.
Qed.

(** X20.  Lines 362-368, read back: for every domain [d] that is returned,
    the entry under [domain_d_table] holds the score rows of the scans of
    [d], in arrival order, and the entry under [domain_d_overall] their
    [np.mean] over the columns other than the background. *)
Theorem eval_list_wrapper_domain_entries (vol_list : dict vol_entry) (nclass : nat)
    (label_name : list string) (error_dict : dict evalue)
    (dsc_table : list (list npfloat)) (domain_names : list string) (d : string) :
  eval_list_wrapper vol_list nclass label_name
  = Ok (error_dict, dsc_table, domain_names) ->
  d ∈ domain_names ->
  get error_dict ("domain_" ++ d ++ "_table")
  = Some (VTable (domain_rows d vol_list dsc_table))
  /\ get error_dict ("domain_" ++ d ++ "_overall")
     = Some (VFloat (np_mean (concat (map (drop 1)
                                          (domain_rows d vol_list dsc_table))))).
Proof.
  intros Hrun Hd.
  destruct (eval_list_wrapper_Ok _ _ _ _ _ _ Hrun)
    as (scored & tables & ed1 & Hs & Hn & Hg & Hed1 & -> & -> & ->).
  rewrite (domain_rows_scored nclass d vol_list scored Hs).
  pose proof (tables_group_NoDup _ _ Hg) as Hnd. destruct Hg as [Hkeys Hrows].
  assert (exists t, (d, t) ∈ tables /\ scores t = rows_of_domain d scored)
    as (t & Ht & Hscores).
  { assert (d ∈ keys tables) as Hin by (by rewrite Hkeys).
    unfold keys in Hin. apply list_elem_of_fmap in Hin as ([d' t] & -> & Hin).
    exists t. split; [done|].
    exact (proj1 (list.Forall_forall _ _) Hrows _ Hin). }
  destruct (domain_loop_entries tables
              (setitem ed1 "overall" (VFloat (spec_overall scored))) [] [] d t
              Hnd Ht) as [Ho Htab].
  rewrite !get_setitem_ne by (cbn; discriminate).
  rewrite Ho, Htab, Hscores. done.
Qed.

Lemma classes_below_concat (n : nat) (t : list (list (list nat))) :
  Forall (fun v => v < n)%nat (concat (concat t)) -> classes_below n t.
Proof.
  intros H. apply Forall_concat_nested in H.
  by apply (Forall_concat_nested (Forall (fun v => v < n)%nat)) in H.
Qed.

(** X21.  [eval_list_wrapper] returns only if every scan id has the form
    [domain_pid] with a single underscore, every entry holds a prediction
    and a ground truth whose class ids are below [nclass], and there is a
    label name for every class: otherwise it raises, and no partial result
    comes back. *)
Theorem eval_list_wrapper_requirements (vol_list : dict vol_entry) (nclass : nat)
    (label_name : list string)
    (r : dict evalue * list (list npfloat) * list string) :
  eval_list_wrapper vol_list nclass label_name = Ok r ->
  (nclass <= length label_name)%nat
  /\ Forall (scorable nclass) vol_list
  /\ length r.1.2 = length vol_list.
Proof.
  destruct r as [[ed table] names]. intros Hrun.
  destruct (eval_list_wrapper_Ok _ _ _ _ _ _ Hrun)
    as (scored & tables & ed1 & Hs & Hn & _ & _ & _ & -> & _).
  split; [done|]. split.
  - apply list.Forall_forall. intros [id comp] Hin.
    destruct (for_each_Ok_elem _ _ _ Hs _ Hin) as ([d row] & _ & Hscore).
    unfold score_scan in Hscore. cbn [fst snd] in Hscore.
    destruct (domain_of id) as [d'|] eqn:Hd; [|done].
    cbn [mbind result_bind] in Hscore.
    destruct (scan_dice nclass comp) as [row'|] eqn:Hdice; [|done].
    split; cbn [fst snd].
    + apply (proj1 (domain_of_one_underscore_aux id d')) in Hd as (pid & ? & ? & ?).
      by exists d', pid.
    + unfold scan_dice in Hdice. destruct comp as [[p|] [g|]]; try done.
      cbn [v_pred v_gth lookup_key mbind result_bind] in Hdice.
      destruct (one_hot nclass (concat (concat p))) as [yp|] eqn:Hp; [|done].
      cbn [mbind result_bind] in Hdice.
      destruct (one_hot nclass (concat (concat g))) as [yg|] eqn:Hgt; [|done].
      exists p, g. split; [done|].
      split; apply classes_below_concat; by eapply one_hot_Ok.
  - cbn [fst snd]. rewrite length_map. clear -Hs. revert scored Hs.
    induction vol_list as [|x vol_list IH]; intros scored Hs.
    + by injection Hs as <-.
    + cbn [for_each] in Hs. destruct (score_scan nclass x); [|done].
      cbn [mbind result_bind] in Hs.
      destruct (for_each _ vol_list) as [rest|]; [|done].
      cbn [mbind result_bind] in Hs. injection Hs as <-.
      cbn [length]. f_equal. by apply IH.
Qed.

End ErrorDict.

Lemma eval_list_wrapper_absent_class_witness :
  exists error_dict dsc_table domain_names,
    eval_list_wrapper vol_list_absent 2 label_name_demo
    = Ok (error_dict, dsc_table, domain_names)
    /\ get error_dict "overall" = Some (VFloat NaN)
    /\ get error_dict "overall_by_domain" = Some (VFloat NaN).
Proof.
  assert (exists ed tab names,
    eval_list_wrapper vol_list_absent 2 label_name_demo = Ok (ed, tab, names))
    as (ed & tab & names & Hrun) by (vm_compute; eexists _, _, _; reflexivity).
  exists ed, tab, names. split; [exact Hrun|].
  apply (eval_list_wrapper_absent_class vol_list_absent 2 label_name_demo ed tab
           names "B_1" [[[0; 0]; [0; 1]]]%nat [[[0; 0]; [0; 0]]]%nat 1 Hrun).
  - right. by left.
  - lia.
  - reflexivity.
Defined.

Lemma eval_list_wrapper_class_entries_witness :
  exists error_dict dsc_table domain_names,
    eval_list_wrapper vol_list_demo 2 label_name_demo
    = Ok (error_dict, dsc_table, domain_names)
    /\ get error_dict "foreground"
       = Some (VFloat (np_mean (column 1 dsc_table))).
Proof.
  assert (exists ed tab names,
    eval_list_wrapper vol_list_demo 2 label_name_demo = Ok (ed, tab, names))
    as (ed & tab & names & Hrun) by (vm_compute; eexists _, _, _; reflexivity).
  exists ed, tab, names. split; [exact Hrun|].
  apply (eval_list_wrapper_class_entries vol_list_demo 2 label_name_demo ed tab
           names 1 "foreground" Hrun).
  - by_computation.
  - repeat constructor; intros [H|[H|(d & [H|H])]]; discriminate H.
  - lia.
  - reflexivity.
Defined.

Lemma eval_list_wrapper_domain_entries_witness :
  exists error_dict dsc_table domain_names,
    eval_list_wrapper vol_list_demo 2 label_name_demo
    = Ok (error_dict, dsc_table, domain_names)
    /\ get error_dict "domain_A_table"
       = Some (VTable (domain_rows "A" vol_list_demo dsc_table)).
Proof.
  assert (exists ed tab names,
    eval_list_wrapper vol_list_demo 2 label_name_demo = Ok (ed, tab, names)
    /\ "A"%string ∈ names)
    as (ed & tab & names & Hrun & Hin).
  { vm_compute. eexists _, _, _. split; [reflexivity|]. by left. }
  exists ed, tab, names. split; [exact Hrun|].
  exact (proj1 (eval_list_wrapper_domain_entries vol_list_demo 2 label_name_demo
                  ed tab names "A" Hrun Hin)).
Defined.

Lemma eval_list_wrapper_requirements_witness :
  exists r,
    eval_list_wrapper vol_list_demo 2 label_name_demo = Ok r
    /\ Forall (scorable 2) vol_list_demo.
Proof.
  assert (exists r, eval_list_wrapper vol_list_demo 2 label_name_demo = Ok r)
    as [r Hrun] by (vm_compute; eexists; reflexivity).
  exists r. split; [exact Hrun|].
  exact (proj1 (proj2 (eval_list_wrapper_requirements vol_list_demo 2
                         label_name_demo r Hrun))).
Defined.

(** ** [prediction_wrapper]: several scans, stray batches, empty loader *)

Section Wrapper.
Variable logits : Type.
Variable model : images -> logits.
Variable argmax : logits -> labels.

Lemma end_scan_keys (st st' : pw_state) :
  end_scan st = Ok st' ->
  keys (out_prediction_list st') = keys (out_prediction_list st).
Proof.
  unfold end_scan. destruct (scan_id_full st) as [sid|]; [|done].
  cbn [bound mbind result_bind]. unfold getitem.
  destruct (get (out_prediction_list st) sid) as [entry|] eqn:He; [|done].
  cbn [mbind result_bind]. destruct (curr_pred st) as [a1|]; [|done].
  cbn [bound mbind result_bind]. rewrite get_setitem_eq. cbn [mbind result_bind].
  destruct (curr_gth st) as [a2|]; [|done]. cbn [bound mbind result_bind].
  intros [= <-]. cbn [out_prediction_list].
  assert (Hin : sid ∈ keys (out_prediction_list st))
    by (apply get_is_Some_keys; by eexists).
  rewrite !keys_setitem_list.
  rewrite (decide_True (P := sid ∈ keys (out_prediction_list st))) by done.
  by rewrite decide_True.
Qed.

Lemma record_slice_keys (st st' : pw_state) (b : slice_batch) :
  record_slice model argmax st b = Ok st' ->
  keys (out_prediction_list st') = keys (out_prediction_list st)
  /\ length (s_labels b) = 1%nat.
Proof.
  unfold record_slice. destruct (bool_decide _) eqn:Hsize; [|done].
  apply bool_decide_eq_true_1 in Hsize.
  destruct (first (argmax _)) as [pred0|]; [|done]. cbn [mbind result_bind].
  destruct (bound (curr_pred st) _) as [a1|]; [|done]. cbn [mbind result_bind].
  destruct (bound (slice_idx st) _) as [idx|]; [|done]. cbn [mbind result_bind].
  destruct (store_slice _ _ _ _) as [store1|]; [|done]. cbn [mbind result_bind].
  destruct (first (s_labels b)) as [gth0|]; [|done]. cbn [mbind result_bind].
  destruct (bound (curr_gth st) _) as [a2|]; [|done]. cbn [mbind result_bind].
  destruct (store_slice _ _ _ _) as [store2|]; [|done]. cbn [mbind result_bind].
  destruct (is_end b).
  - intros Hend. apply end_scan_keys in Hend. by split.
  - intros [= <-]. by split.
Qed.

Lemma pw_step_size (st st' : pw_state) (b : slice_batch) :
  pw_step model argmax st b = Ok st' -> length (s_labels b) = 1%nat.
Proof.
  unfold pw_step.
  destruct (is_start b).
  - destruct (start_scan st b) as [st1|]; cbn [mbind result_bind]; [|done].
    intros H. by apply record_slice_keys in H as [_ H].
  - cbn [mbind result_bind]. intros H. by apply record_slice_keys in H as [_ H].
Qed.

Lemma pw_step_keys_continue (st st' : pw_state) (b : slice_batch) :
  is_start b = false ->
  pw_step model argmax st b = Ok st' ->
  keys (out_prediction_list st') = keys (out_prediction_list st).
Proof.
  unfold pw_step. intros ->. cbn [mbind result_bind].
  intros H. by apply record_slice_keys in H as [H _].
Qed.

Lemma pw_step_keys_start (st st' : pw_state) (b : slice_batch) (sid : string) :
  is_start b = true -> head (scan_id b) = Some sid ->
  pw_step model argmax st b = Ok st' ->
  keys (out_prediction_list st')
  = keys (setitem (out_prediction_list st) sid (Comp None None)).
Proof.
  unfold pw_step, start_scan. intros -> Hsid.
  destruct (scan_id b) as [|sid' ids]; [done|]. injection Hsid as ->.
  cbn [first mbind result_bind]. intros H. apply record_slice_keys in H as [H _].
  exact H.
Qed.

Lemma pw_loop_keys_continue (st st' : pw_state) (bs : list slice_batch) :
  Forall (fun b => is_start b = false) bs ->
  pw_loop model argmax st bs = Ok st' ->
  keys (out_prediction_list st') = keys (out_prediction_list st).
Proof.
  intros Hbs. revert st. induction Hbs as [|b bs Hb _ IH]; intros st Hrun.
  - by injection Hrun as <-.
  - cbn [pw_loop] in Hrun.
    destruct (pw_step model argmax st b) as [st1|] eqn:Hstep; [|done].
    cbn [mbind result_bind] in Hrun.
    rewrite (IH st1 Hrun). by apply pw_step_keys_continue with b.
Qed.

(** A loader that is worked through holds batches of size 1 only. *)
Lemma pw_loop_sizes (st st' : pw_state) (bs : list slice_batch) :
  pw_loop model argmax st bs = Ok st' ->
  Forall (fun b => length (s_labels b) = 1%nat) bs.
Proof.
  revert st. induction bs as [|b bs IH]; intros st Hrun; [constructor|].
  cbn [pw_loop] in Hrun.
  destruct (pw_step model argmax st b) as [st1|] eqn:Hstep; [|done].
  cbn [mbind result_bind] in Hrun. constructor.
  - by apply pw_step_size in Hstep.
  - by apply (IH st1).
Qed.

Section OneScan.
Variables nx ny : nat.
Variable sid : string.
Variable bs : list slice_batch.
Hypothesis Hwf : well_formed_scan model argmax nx ny sid bs.

(** The state after all the batches of one well-formed scan: the keys of
    the result buffer, the entry of the scan and the volumes behind the
    earlier entries. *)
Lemma scan_done (st0 : pw_state) :
  exists st',
    pw_loop model argmax st0 bs = Ok st'
    /\ scan_progress model argmax nx ny sid bs st0 (length bs) st'
    /\ keys (out_prediction_list st')
       = keys (setitem (out_prediction_list st0) sid (Comp None None)).
Proof.
  pose proof (wf_nonempty _ _ _ _ _ _ Hwf) as Hne.
  assert (Hlen : (1 <= length bs)%nat) by (destruct bs; [done | cbn; lia]).
  destruct (scan_prefix _ model argmax nx ny sid bs Hwf st0 (length bs) ltac:(lia))
    as (st' & Hloop & Hprog).
  rewrite firstn_all in Hloop.
  exists st'. split; [done|]. split; [done|].
  destruct bs as [|b0 rest] eqn:Hbs; [done|].
  cbn [pw_loop] in Hloop.
  destruct (pw_step model argmax st0 b0) as [st1|] eqn:Hstep; [|done].
  cbn [mbind result_bind] in Hloop.
  destruct (wf_flags _ _ _ _ _ _ Hwf 0%nat b0 eq_refl) as [Hstart _].
  pose proof (wf_scan_id _ _ _ _ _ _ Hwf b0 eq_refl) as Hsid.
  rewrite (pw_loop_keys_continue st1 st' rest); [|  | done].
  - by apply (pw_step_keys_start st0 st1 b0).
  - apply list.Forall_forall. intros b Hb.
    apply list_elem_of_lookup_1 in Hb as [i Hi].
    destruct (wf_flags _ _ _ _ _ _ Hwf (S i) b Hi) as [Hs _].
    rewrite Hs. by apply bool_decide_eq_false_2.
Qed.

(** A batch without the start flag that follows a completed scan finds the
    buffers full: the write at [slice_idx = nframe] is an [IndexError]. *)
Lemma stray_batch_step (st0 st' : pw_state) (b : slice_batch) :
  scan_progress model argmax nx ny sid bs st0 (length bs) st' ->
  is_start b = false -> length (s_labels b) = 1%nat ->
  argmax (model (s_images b)) <> [] ->
  pw_step model argmax st' b = Raise IndexError.
Proof.
  intros [Hidx _ Hp _ Hst _ _] Hstart Hsize Hpred.
  unfold pw_step. rewrite Hstart. cbn [mbind result_bind].
  unfold record_slice. rewrite bool_decide_eq_true_2 by done.
  rewrite (first_head _ Hpred), Hp, Hidx, Hst. cbn [mbind result_bind bound].
  unfold store_slice, volume.
  rewrite lookup_app_r, Nat.sub_diag by lia. cbn [lookup list_lookup].
  unfold assign_slice, volume.
  rewrite (proj2 (lookup_ge_None _ _)); [done|].
  unfold scan_buffer. rewrite length_app, length_map, length_take, length_replicate.
  lia.
Qed.

End OneScan.

(** X22.  A batch without the start flag that comes right after a completed
    scan is not taken for a new scan: the buffers of the finished scan are
    full, and the write of its slice is an [IndexError]. *)
Theorem pw_loop_stray_batch (nx ny : nat) (sid : string) (bs : list slice_batch)
    (st0 : pw_state) (b : slice_batch) :
  well_formed_scan model argmax nx ny sid bs ->
  is_start b = false -> length (s_labels b) = 1%nat ->
  argmax (model (s_images b)) <> [] ->
  pw_loop model argmax st0 (bs ++ [b]) = Raise IndexError.
Proof.
  intros Hwf Hstart Hsize Hpred.
  destruct (scan_done nx ny sid bs Hwf st0) as (st' & Hloop & Hprog & _).
  rewrite pw_loop_app, Hloop. cbn [mbind option_bind result_bind pw_loop].
  by rewrite (stray_batch_step nx ny sid bs st0 st' b Hprog).
Qed.

(** X23.  A loader whose first batch does not carry the start flag: the
    buffers were never allocated, and the first write ends in an
    [UnboundLocalError]. *)
Theorem prediction_wrapper_missing_start (b : slice_batch) (rest : list slice_batch)
    (label_name : list string) (mode : string) (save_prediction : bool) :
  is_start b = false -> length (s_labels b) = 1%nat ->
  argmax (model (s_images b)) <> [] ->
  prediction_wrapper model argmax (b :: rest) label_name mode save_prediction
  = Raise (UnboundLocalError "curr_pred").
Proof.
  intros Hstart Hsize Hpred. unfold prediction_wrapper. cbn [pw_loop].
  unfold pw_step. rewrite Hstart. cbn [mbind result_bind].
  unfold record_slice. rewrite bool_decide_eq_true_2 by done.
  by rewrite (first_head _ Hpred).
Qed.

(** X24.  The assertion of line 288: a loader with a batch of any size other
    than 1 is never evaluated, the call ends in an exception. *)
Theorem prediction_wrapper_batch_size (test_loader : list slice_batch)
    (b : slice_batch) (label_name : list string) (mode : string)
    (save_prediction : bool) :
  b ∈ test_loader -> length (s_labels b) <> 1%nat ->
  exists e,
    prediction_wrapper model argmax test_loader label_name mode save_prediction
    = Raise e.
Proof.
  intros Hb Hsize. unfold prediction_wrapper.
  destruct (pw_loop model argmax pw_init test_loader) as [st|e] eqn:Hloop.
  - apply pw_loop_sizes in Hloop.
    by destruct (Hsize (proj1 (list.Forall_forall _ _) Hloop b Hb)).
  - by exists e.
Qed.

(** X25.  With an empty test loader nothing is predicted and nothing raises:
    the table is empty, and the means, taken over no scan, are [nan]. *)
Theorem prediction_wrapper_empty_loader (label_name : list string) (mode : string)
    (save_prediction : bool) :
  exists error_dict,
    prediction_wrapper model argmax [] label_name mode save_prediction
    = Ok ([], [], error_dict, [])
    /\ get error_dict "overall" = Some (VFloat NaN)
    /\ get error_dict "overall_by_domain" = Some (VFloat NaN)
    /\ get error_dict "mode" = Some (VStr mode).
Proof.
  unfold prediction_wrapper. cbn [pw_loop mbind result_bind pw_init
                                  out_prediction_list map].
  destruct (eval_list_wrapper_value [] (length label_name) label_name [] eq_refl
              ltac:(lia)) as (tables & ed1 & Hg & Hed1 & ->).
  destruct Hg as [Hkeys _]. destruct tables as [|[d t] tables]; [|done].
  cbn [mbind result_bind fst snd domain_loop map first_occurrences].
  eexists. split; [by destruct save_prediction|].
  split; [|split].
  - by rewrite !get_setitem_ne, get_setitem_eq by done.
  - by rewrite get_setitem_ne, get_setitem_eq by done.
  - by rewrite get_setitem_eq.
Qed.


Lemma keys_app {V : Type} (d1 d2 : dict V) : keys (d1 ++ d2) = keys d1 ++ keys d2.
Proof. unfold keys. apply fmap_app. Qed.

Lemma get_app_l {V : Type} (d1 d2 : dict V) (k : string) :
  k ∈ keys d1 -> get (d1 ++ d2) k = get d1 k.
Proof.
  unfold keys. induction d1 as [|[k' v'] d1 IH]; cbn.
  - intros H. by apply elem_of_nil in H.
  - destruct (decide (k' = k)); [done|]. rewrite elem_of_cons.
    intros [?|?]; [congruence | by apply IH].
Qed.

Lemma get_app_r {V : Type} (d1 d2 : dict V) (k : string) :
  k ∉ keys d1 -> get (d1 ++ d2) k = get d2 k.
Proof.
  unfold keys. induction d1 as [|[k' v'] d1 IH]; cbn; [done|].
  rewrite not_elem_of_cons. intros [Hne Hk].
  rewrite decide_False by congruence. by apply IH.
Qed.

(** A dictionary is determined by the order of its keys and the value of
    each. *)
Lemma dict_ext {V : Type} (d1 d2 : dict V) :
  keys d1 = keys d2 -> NoDup (keys d1) ->
  (forall k, get d1 k = get d2 k) -> d1 = d2.
Proof.
  revert d2. induction d1 as [|[k v] d1 IH]; intros [|[k2 v2] d2] Hkeys Hnd Hget;
    try done.
  injection Hkeys as <- Hkeys.
  pose proof (Hget k) as Hk. cbn in Hk. rewrite !decide_True in Hk by done.
  injection Hk as <-. f_equal.
  pose proof (NoDup_cons_1_1 _ _ Hnd) as Hfresh.
  apply IH; [done | by apply NoDup_cons_1_2 in Hnd |].
  intros j. destruct (decide (k = j)) as [<-|Hne].
  - rewrite (proj2 (get_None_keys d1 k)) by done.
    rewrite (proj2 (get_None_keys d2 k)); [done|]. unfold keys in *. by rewrite <- Hkeys.
  - specialize (Hget j). cbn in Hget. by rewrite !decide_False in Hget by done.
Qed.

Lemma deref_app (st extra : list volume) (c : comp) :
  (forall a, c_pred c = Some a \/ c_gth c = Some a -> (a < length st)%nat) ->
  deref (st ++ extra) c = deref st c.
Proof.
  intros Hb. unfold deref. destruct c as [[a1|] [a2|]]; cbn in *;
    rewrite ?lookup_app_l by (apply Hb; auto); done.
Qed.

(** One more well-formed scan, with an id not yet in the buffer, adds its
    two volumes at the end and leaves the others as they are. *)
Lemma scan_appended (nx ny : nat) (sid : string) (bs : list slice_batch)
    (st0 : pw_state) :
  well_formed_scan model argmax nx ny sid bs ->
  sid ∉ keys (out_prediction_list st0) ->
  NoDup (keys (out_prediction_list st0)) ->
  references_bound st0 ->
  exists st',
    pw_loop model argmax st0 bs = Ok st'
    /\ keys (out_prediction_list st') = keys (out_prediction_list st0) ++ [sid]
    /\ references_bound st'
    /\ volumes_of st' = volumes_of st0 ++ [(sid, reassembled model argmax bs)].
Proof.
  intros Hwf Hfresh Hnd Hbound.
  destruct (scan_done nx ny sid bs Hwf st0) as (st' & Hloop & Hprog & Hkeys).
  rewrite keys_setitem_list, decide_False in Hkeys by done.
  destruct Hprog as [_ _ _ _ Hstore Hentry Hothers].
  rewrite decide_True in Hentry by done.
  unfold scan_buffer in Hstore.
  rewrite Nat.sub_diag, firstn_all in Hstore. cbn [replicate] in Hstore.
  rewrite !app_nil_r in Hstore.
  set (a := length (store st0)) in *.
  assert (Hout : out_prediction_list st'
                 = out_prediction_list st0 ++ [(sid, Comp (Some a) (Some (S a)))]).
  { apply dict_ext.
    - by rewrite keys_app.
    - rewrite Hkeys. apply list.NoDup_app. split; [done|]. split.
      + intros x Hx Hx'. apply list_elem_of_singleton in Hx' as ->. done.
      + apply list.NoDup_singleton.
    - intros j. destruct (decide (j = sid)) as [->|Hne].
      + rewrite Hentry, get_app_r by done. cbn. by rewrite decide_True.
      + rewrite Hothers by done.
        destruct (decide (j ∈ keys (out_prediction_list st0))) as [Hin|Hnin].
        * by rewrite get_app_l.
        * rewrite get_app_r by done. cbn. rewrite decide_False by done.
          by apply get_None_keys. }
  exists st'. split; [done|]. split; [done|]. split.
  - unfold references_bound. rewrite Hout, Hstore, length_app. cbn [length].
    apply Forall_app. split.
    + revert Hbound. unfold references_bound. apply Forall_impl.
      intros kc Hkc a' Ha'. specialize (Hkc a' Ha'). lia.
    + constructor; [|constructor]. cbn [snd c_pred c_gth].
      intros a' [[= <-]|[= <-]]; lia.
  - unfold volumes_of. rewrite Hout, Hstore, map_app. cbn [map fst snd]. f_equal.
    + apply Forall_fmap_ext_1. revert Hbound. unfold references_bound.
      apply Forall_impl. intros kc Hkc. f_equal. by apply deref_app.
    + unfold deref, reassembled. cbn [c_pred c_gth mbind option_bind].
      rewrite !lookup_app_r by lia. fold a. rewrite Nat.sub_diag.
      replace (S a - a)%nat with 1%nat by lia. reflexivity.
Qed.

Lemma scans_appended (scans : list (string * list slice_batch)) (st0 : pw_state) :
  NoDup (keys (out_prediction_list st0) ++ map fst scans) ->
  Forall (well_formed_entry model argmax) scans ->
  references_bound st0 ->
  exists st',
    pw_loop model argmax st0 (loader_of scans) = Ok st'
    /\ volumes_of st' = volumes_of st0 ++ reassembled_scans model argmax scans.
Proof.
  revert st0. induction scans as [|[sid bs] scans IH]; intros st0 Hnd Hwf Hbound.
  - exists st0. unfold loader_of, reassembled_scans. cbn. by rewrite app_nil_r.
  - pose proof (Forall_inv Hwf) as (nx & ny & Hscan). cbn [fst snd] in Hscan.
    apply Forall_inv_tail in Hwf.
    cbn [map fst] in Hnd.
    assert (Hfresh : sid ∉ keys (out_prediction_list st0)).
    { apply list.NoDup_app in Hnd as (_ & Hdisj & _). intros Hin.
      apply (Hdisj sid Hin). by left. }
    assert (Hnd0 : NoDup (keys (out_prediction_list st0)))
      by (by apply list.NoDup_app in Hnd as (? & _ & _)).
    destruct (scan_appended nx ny sid bs st0 Hscan Hfresh Hnd0 Hbound)
      as (st1 & Hloop1 & Hkeys1 & Hbound1 & Hvols1).
    destruct (IH st1) as (st' & Hloop & Hvols); [|done|done|].
    { rewrite Hkeys1, <- app_assoc. exact Hnd. }
    exists st'. unfold loader_of in *. cbn [map snd concat].
    rewrite pw_loop_app, Hloop1. cbn [mbind result_bind]. split; [done|].
    rewrite Hvols, Hvols1, <- app_assoc. reflexivity.
Qed.

(** X26.  Reassembly composed with scoring: for a loader that presents
    well-formed scans with distinct ids one after the other,
    [prediction_wrapper] scores exactly the reassembled volumes, one entry
    per scan in loader order, and returns them with the table, the
    [error_dict] (to which it adds ['mode']) and the domain names that
    [eval_list_wrapper] gives for them. *)
Theorem prediction_wrapper_on_scans (scans : list (string * list slice_batch))
    (label_name : list string) (mode : string) :
  NoDup (map fst scans) ->
  Forall (well_formed_entry model argmax) scans ->
  prediction_wrapper model argmax (loader_of scans) label_name mode true
  = r ← eval_list_wrapper (reassembled_scans model argmax scans)
                          (length label_name) label_name;
    Ok (reassembled_scans model argmax scans, r.1.2,
        setitem r.1.1 "mode" (VStr mode), r.2).
Proof.
  intros Hnd Hwf.
  destruct (scans_appended scans pw_init) as (st' & Hloop & Hvols);
    [done | done | constructor |].
  unfold prediction_wrapper. rewrite Hloop. cbn [mbind result_bind].
  fold (volumes_of st'). rewrite Hvols. reflexivity.
Qed.

End Wrapper.

Lemma scan_demo_B_well_formed :
  well_formed_scan scan_model_demo id 2 2 "B_7" scan_demo_B.
Proof.
  split.
  - discriminate.
  - intros [|[|i]] b Hb; cbn in Hb; try discriminate Hb;
      injection Hb as <-; split; reflexivity.
  - intros b Hb. injection Hb as <-. reflexivity.
  - intros b Hb. injection Hb as <-. eexists _, _, _.
    split; [reflexivity|]. split; reflexivity.
  - repeat constructor.
  - repeat constructor.
  - unfold has_shape. repeat constructor.
  - unfold has_shape. repeat constructor; discriminate.
Qed.

Lemma pw_loop_stray_batch_witness :
  pw_loop scan_model_demo id pw_init (scan_demo ++ [stray_demo]) = Raise IndexError.
Proof.
  apply (pw_loop_stray_batch labels scan_model_demo id 2 2 "A_1" scan_demo
           pw_init stray_demo scan_demo_well_formed).
  - reflexivity.
  - reflexivity.
  - discriminate.
Defined.

Lemma prediction_wrapper_missing_start_witness :
  prediction_wrapper scan_model_demo id [stray_demo] label_name_demo "base" false
  = Raise (UnboundLocalError "curr_pred").
Proof.
  apply (prediction_wrapper_missing_start labels scan_model_demo id stray_demo []
           label_name_demo "base" false).
  - reflexivity.
  - reflexivity.
  - discriminate.
Defined.

Lemma prediction_wrapper_batch_size_witness :
  exists e,
    prediction_wrapper scan_model_demo id
      [SliceBatch true true ["A_1"%string] 1 [[[[0; 1]]]; [[[1; 0]]]]
                  [[[0; 1]]; [[1; 0]]]%nat]
      label_name_demo "base" false
    = Raise e.
Proof.
  eapply (prediction_wrapper_batch_size labels scan_model_demo id).
  - by left.
  - cbn. lia.
Defined.

Lemma prediction_wrapper_on_scans_witness :
  prediction_wrapper scan_model_demo id (scan_demo ++ scan_demo_B)
                     ["background"; "organ"; "lesion"]%string "base" true
  = r ← eval_list_wrapper
          (reassembled_scans scan_model_demo id
             [("A_1"%string, scan_demo); ("B_7"%string, scan_demo_B)])
          3 ["background"; "organ"; "lesion"]%string;
    Ok (reassembled_scans scan_model_demo id
          [("A_1"%string, scan_demo); ("B_7"%string, scan_demo_B)],
        r.1.2, setitem r.1.1 "mode" (VStr "base"), r.2).
Proof.
  apply (prediction_wrapper_on_scans labels scan_model_demo id
           [("A_1"%string, scan_demo); ("B_7"%string, scan_demo_B)]
           ["background"; "organ"; "lesion"]%string "base").
  - by_computation.
  - constructor; [exists 2%nat, 2%nat; exact scan_demo_well_formed|].
    constructor; [exists 2%nat, 2%nat; exact scan_demo_B_well_formed|].
    constructor.
Defined.
